(** * SiteForge pre-render pipeline: validation, localisation, asset download

    A shallow embedding of the configuration pipeline of the site generator:

    - [I18n]      : [src/lib/i18n.ts], the localized-text resolver [t];
    - [Download]  : [pipeline/download-assets.js], the asset walker and
                    downloader ([collectRemoteUrls], [deduplicateByUrl],
                    [uniqueFilename], [downloadFile], [downloadAssets]);
    - [Zod], [Schemas] : [pipeline/schemas.js], the schema registry and the
                    validation orchestrator ([validateSectionProps],
                    [validateSiteConfig]), with the hero schema of
                    [src/schemas/sections.ts] next to it.

    - [ValidateConfig], [Siteforge] : [pipeline/validate-config.js] and
                    [bin/siteforge.js], the pipeline steps around them.

    JavaScript strings are modelled as [string] (a sequence of code units
    below 256); objects parsed from JSON are association lists in
    [Object.keys] order.  Where the code looks a key it was given up in an
    object ([t], [validateSectionProps]), the members the object inherits
    from [Object.prototype] are part of the model; where the key is one
    of the object's own by construction, the own properties are enough. *)

From Stdlib Require Import ZArith QArith Ascii String List Bool Lia.
From stdpp Require Import base option list strings pretty gmap.

Local Open Scope string_scope.
Local Open Scope list_scope.

(** ** JavaScript string primitives *)

Module Js.

(** [WhiteSpace] and [LineTerminator] code units below 256: the characters
    that [String.prototype.trim] strips. *)
Definition isWhiteSpace (c : ascii) : bool :=
  let n := nat_of_ascii c in
  (Nat.leb 9 n && Nat.leb n 13) || Nat.eqb n 32 || Nat.eqb n 160.

Fixpoint trimStart (s : string) : string :=
  match s with
  | String c r => if isWhiteSpace c then trimStart r else s
  | EmptyString => EmptyString
  end.

Fixpoint rev_string (s acc : string) : string :=
  match s with
  | String c r => rev_string r (String c acc)
  | EmptyString => acc
  end.

Definition trimEnd (s : string) : string :=
  rev_string (trimStart (rev_string s EmptyString)) EmptyString.

(** [s.trim()] *)
Definition trim (s : string) : string := trimEnd (trimStart s).

(** [s.startsWith(p)] *)
Definition startsWith (p s : string) : bool := String.prefix p s.

(** [s.includes(c)] for a single character. *)
Fixpoint includesChar (c : ascii) (s : string) : bool :=
  match s with
  | String d r => Ascii.eqb c d || includesChar c r
  | EmptyString => false
  end.

(** A JavaScript value used as a condition: a string is truthy when it is
    not empty. *)
Definition truthy (s : string) : bool :=
  match s with EmptyString => false | _ => true end.

Definition dquote : string := String (ascii_of_nat 34) EmptyString.

Section Loops.
Context {A R : Type} (body : nat -> A -> R -> R).
(** [for (let i = 0; i < l.length; i++) body(i, l[i])] *)
Fixpoint forIndex (i : nat) (l : list A) (r : R) : R :=
  match l with
  | [] => r
  | x :: l' => forIndex (S i) l' (body i x r)
  end.
End Loops.

(** The names of the members every plain object inherits from
    [Object.prototype]: [key in obj] holds for them and [obj[key]] is the
    inherited member (a function, or the prototype itself for
    [__proto__]) unless the object has an own property of that name. *)
Definition objectPrototype : list string :=
  ["constructor"; "__defineGetter__"; "__defineSetter__"; "hasOwnProperty";
   "__lookupGetter__"; "__lookupSetter__"; "isPrototypeOf"; "propertyIsEnumerable";
   "toString"; "valueOf"; "__proto__"; "toLocaleString"].

(** How a call ends: it returns a value, or an exception leaves it. *)
Inductive completion (A : Type) : Type :=
  | Returns (a : A)
  | Throws (message : string).
Arguments Returns {A} a.
Arguments Throws {A} message.

(** The statements after a call run when the call returned. *)
Definition andThen {A B : Type} (c : completion A) (rest : A -> completion B) : completion B :=
  match c with
  | Returns a => rest a
  | Throws message => Throws message
  end.

(** A string that is not empty after trimming is not empty. *)
Lemma trim_truthy s : truthy (trim s) = true -> truthy s = true.
Proof.
  intros H. destruct s; [|done]. by vm_compute in H.
Qed.

End Js.

(** ** src/lib/i18n.ts *)

Module I18n.

(** [LocalizedText]: a plain string, or an object with language keys. *)
Inductive LocalizedText : Type :=
  | Plain (s : string)
  | Localized (entries : list (string * string)).

(** The argument of [t]: [LocalizedText | undefined | null]. *)
Inductive Arg : Type :=
  | Undefined
  | Null
  | Value (v : LocalizedText).

(** The module-level variables [currentLanguage], [defaultLanguage] and
    [availableLanguages], threaded explicitly. *)
Record LocaleContext : Type := {
  currentLanguage : string;
  defaultLanguage : string;
  availableLanguages : list string;
}.

(** The own property [key] of an object of strings, if it has one. *)
Fixpoint prop (key : string) (entries : list (string * string)) : option string :=
  match entries with
  | [] => None
  | (k, v) :: rest => if String.eqb key k then Some v else prop key rest
  end.

(** [if (table[key]) return table[key]] on the own properties: the entry
    when it is truthy. *)
Definition truthyProp (key : string) (entries : list (string * string)) : option string :=
  match prop key entries with
  | Some v => if Js.truthy v then Some v else None
  | None => None
  end.

(** What a property read on an object of strings yields, and so what [t]
    can return: a string, or a member inherited from [Object.prototype]. *)
Inductive member : Type :=
  | Str (s : string)
  | Inherited (name : string).

(** [value[key]]: the own property, else the member of that name on the
    prototype chain; [None] is [undefined]. *)
Definition get (key : string) (entries : list (string * string)) : option member :=
  match prop key entries with
  | Some v => Some (Str v)
  | None => if bool_decide (key ∈ Js.objectPrototype) then Some (Inherited key) else None
  end.

(** A member used as a condition: functions and objects are truthy. *)
Definition truthy (m : member) : bool :=
  match m with
  | Str s => Js.truthy s
  | Inherited _ => true
  end.

(** [if (value[key]) return value[key]] *)
Definition truthyGet (key : string) (entries : list (string * string)) : option member :=
  match get key entries with
  | Some m => if truthy m then Some m else None
  | None => None
  end.

(** [Object.keys(value)] *)
Definition keys (entries : list (string * string)) : list string := map fst entries.

Definition t (ctx : LocaleContext) (value : Arg) : member :=
  match value with
  | Undefined | Null => Str EmptyString
  | Value (Plain s) => Str s
  | Value (Localized value) =>
      match truthyGet (currentLanguage ctx) value with
      | Some v => v
      | None =>
      match truthyGet (defaultLanguage ctx) value with
      | Some v => v
      | None =>
      let firstLang := head (availableLanguages ctx) in
      match firstLang with
      | Some l =>
          match (if Js.truthy l then truthyGet l value else None) with
          | Some v => v
          | None =>
              match keys value with
              | k :: _ => default (Str EmptyString) (get k value)
              | [] => Str EmptyString
              end
          end
      | None =>
          match keys value with
          | k :: _ => default (Str EmptyString) (get k value)
          | [] => Str EmptyString
          end
      end
      end
      end
  end.

(** [LocalizedTextSchema]: a string that is not empty once trimmed, or a
    record with at least one language whose keys are not empty and whose
    texts are not empty once trimmed. *)
Definition validLocalizedText (v : LocalizedText) : Prop :=
  match v with
  | Plain s => Js.truthy (Js.trim s) = true
  | Localized m =>
      m <> [] /\
      Forall (fun kv => Js.truthy (fst kv) = true /\ Js.truthy (Js.trim (snd kv)) = true) m
  end.

(** The fallback chain in the words of the specification: the entry of the
    current language if present, else that of the default language, else
    that of the first available language, else that of the first key. *)
Definition fallbackChain (ctx : LocaleContext) (m : list (string * string)) : option string :=
  match prop (currentLanguage ctx) m with
  | Some v => Some v
  | None =>
  match prop (defaultLanguage ctx) m with
  | Some v => Some v
  | None =>
  match head (availableLanguages ctx) ≫= (fun l => prop l m) with
  | Some v => Some v
  | None => snd <$> head m
  end
  end
  end.

Definition resolved (ctx : LocaleContext) (v : LocalizedText) : option string :=
  match v with
  | Plain s => Some s
  | Localized m => fallbackChain ctx m
  end.

(** No language the module looks up names a member of [Object.prototype]. *)
Definition ownLanguages (ctx : LocaleContext) : Prop :=
  (currentLanguage ctx ∉ Js.objectPrototype) /\
  (defaultLanguage ctx ∉ Js.objectPrototype) /\
  (forall l, head (availableLanguages ctx) = Some l -> l ∉ Js.objectPrototype).

Lemma prop_elem key m v : prop key m = Some v -> (key, v) ∈ m.
Proof.
  induction m as [|[k w] m IH]; simpl; [done|].
  destruct (String.eqb key k) eqn:E.
  - intros [= ->]. apply String.eqb_eq in E as ->. left.
  - intros H. right. auto.
Qed.

Lemma truthyProp_valid key m :
  Forall (fun kv => Js.truthy (fst kv) = true /\ Js.truthy (Js.trim (snd kv)) = true) m ->
  truthyProp key m = prop key m.
Proof.
  intros Hall. unfold truthyProp. destruct (prop key m) as [v|] eqn:E; [|done].
  apply prop_elem in E. rewrite Forall_forall in Hall.
  destruct (Hall _ E) as [_ Hv]. simpl in Hv.
  by rewrite (Js.trim_truthy _ Hv).
Qed.

Lemma prop_truthy key m v :
  Forall (fun kv => Js.truthy (fst kv) = true /\ Js.truthy (Js.trim (snd kv)) = true) m ->
  prop key m = Some v -> Js.truthy v = true.
Proof.
  intros Hall E. apply prop_elem in E. rewrite Forall_forall in Hall.
  destruct (Hall _ E) as [_ Hv]. by apply Js.trim_truthy.
Qed.

Lemma prop_none_empty_key m :
  Forall (fun kv => Js.truthy (fst kv) = true /\ Js.truthy (Js.trim (snd kv)) = true) m ->
  prop EmptyString m = None.
Proof.
  induction 1 as [|[k v] m [Hk _] _ IH]; simpl; [done|].
  simpl in Hk. destruct k; [done|]. simpl. exact IH.
Qed.

(** On a valid text, a look-up under a name that no object inherits is a
    look-up among the own entries. *)
Lemma truthyGet_own key m :
  Forall (fun kv => Js.truthy (fst kv) = true /\ Js.truthy (Js.trim (snd kv)) = true) m ->
  key ∉ Js.objectPrototype ->
  truthyGet key m = Str <$> prop key m.
Proof.
  intros Hall Hown. unfold truthyGet, get.
  destruct (prop key m) as [v|] eqn:E.
  - cbn. by rewrite (prop_truthy key m v Hall E).
  - by rewrite bool_decide_eq_false_2.
Qed.

(** X30. For every valid LocalizedText value and every locale context
    whose current, default and first available language do not name a
    member of [Object.prototype], [t] returns a non-empty string, and that
    string is the one the fallback chain selects: the current language's
    entry if present, else the default language's entry, else the first
    available language's entry, else the entry of the map's first key. *)
Theorem t_fallback_chain (ctx : LocaleContext) (v : LocalizedText) :
  validLocalizedText v -> ownLanguages ctx ->
  exists s, t ctx (Value v) = Str s /\ resolved ctx v = Some s /\ Js.truthy s = true.
Proof.
  destruct v as [s|m]; simpl.
  - intros H _. exists s. split; [done|]. split; [done|]. by apply Js.trim_truthy.
  - intros [Hne Hall] (Hcur & Hdef & Hfirst). unfold fallbackChain.
    rewrite (truthyGet_own _ _ Hall Hcur), (truthyGet_own _ _ Hall Hdef).
    destruct (prop (currentLanguage ctx) m) as [v|] eqn:E1; cbn [fmap option_fmap option_map].
    { exists v. split; [done|]. split; [done|]. eapply prop_truthy; eauto. }
    destruct (prop (defaultLanguage ctx) m) as [v|] eqn:E2; cbn [fmap option_fmap option_map].
    { exists v. split; [done|]. split; [done|]. eapply prop_truthy; eauto. }
    destruct m as [|[k0 v0] rest] eqn:Em; [done|]. rewrite <- Em in *.
    assert (Hk : keys m = k0 :: keys rest) by (by rewrite Em).
    assert (Hget : get k0 m = Some (Str v0)).
    { unfold get. rewrite Em. cbn [prop]. by rewrite String.eqb_refl. }
    assert (Hhead : snd <$> head m = Some v0) by (by rewrite Em).
    assert (Hv0 : Js.truthy v0 = true).
    { rewrite Em in Hall. inversion Hall as [|? ? [_ Hv] _]; subst. simpl in Hv.
      by apply Js.trim_truthy. }
    destruct (availableLanguages ctx) as [|l ls]; simpl.
    { rewrite Hk, Hget, Hhead. by exists v0. }
    destruct (Js.truthy l) eqn:El.
    + rewrite (truthyGet_own _ _ Hall (Hfirst l eq_refl)).
      destruct (prop l m) as [v|] eqn:E3; cbn [fmap option_fmap option_map].
      { exists v. split; [done|]. split; [done|]. eapply prop_truthy; eauto. }
      rewrite Hk, Hget, Hhead. by exists v0.
    + destruct l; [|done]. rewrite (prop_none_empty_key _ Hall).
      rewrite Hk, Hget, Hhead. by exists v0.
Qed.

Definition ctx_fr : LocaleContext :=
  {| currentLanguage := "fr"; defaultLanguage := "en"; availableLanguages := ["en"; "fr"] |}.

Definition welcome : LocalizedText := Localized [("en", "Welcome"); ("fr", "Bienvenue")].

Lemma ctx_fr_own : ownLanguages ctx_fr.
Proof.
  split; [|split]; [| |intros l [= <-]];
    apply (bool_decide_unpack _); vm_compute; exact I.
Defined.

Lemma t_fallback_chain_witness :
  validLocalizedText welcome /\
  exists s, t ctx_fr (Value welcome) = Str s /\
            resolved ctx_fr welcome = Some s /\ Js.truthy s = true.
Proof.
  assert (Hv : validLocalizedText welcome).
  { split; [done|]. repeat constructor. }
  split; [exact Hv|]. exact (t_fallback_chain ctx_fr welcome Hv ctx_fr_own).
Defined.

(** *** Choosing the language *)

(** The first argument of [initI18n]: [languages] and [defaultLanguage],
    each of which may be missing. *)
Record InitConfig : Type := {
  languages : option (list string);
  configDefaultLanguage : option string;
}.

(** What the module reads from [window], where there is one: the entry
    [siteforge-language] of [localStorage], and the path and the fragment
    of [window.location]. *)
Record Window : Type := {
  storedLanguage : option string;
  pathname : string;
  hash : string;
}.

(** [availableLanguages.includes(lang)] *)
Definition includes (lang : string) (langs : list string) : bool :=
  bool_decide (lang ∈ langs).

(** [localStorage.setItem("siteforge-language", lang)] *)
Definition setItem (lang : string) (w : Window) : Window :=
  {| storedLanguage := Some lang; pathname := pathname w; hash := hash w |}.

Definition initI18n (config : InitConfig) (urlLanguage : option string)
    (window : option Window) : LocaleContext * option Window :=
  let configDefault :=
    match configDefaultLanguage config with
    | Some d => if Js.truthy d then d else "en"
    | None => "en"
    end in
  let configLangs := default [] (languages config) in
  let available := if Nat.ltb 0 (length configLangs) then configLangs else [configDefault] in
  let available := if includes configDefault available then available
                   else configDefault :: available in
  let withCurrent := fun current =>
    {| currentLanguage := current; defaultLanguage := configDefault;
       availableLanguages := available |} in
  let usable := fun (lang : option string) =>
    match lang with
    | Some l => Js.truthy l && includes l available
    | None => false
    end in
  if usable urlLanguage then
    (withCurrent (default EmptyString urlLanguage),
     setItem (default EmptyString urlLanguage) <$> window)
  else
    match window with
    | Some w =>
        let stored := storedLanguage w in
        if usable stored then (withCurrent (default EmptyString stored), window)
        else (withCurrent configDefault, window)
    | None => (withCurrent configDefault, window)
    end.

(** The text put in place of a match by [String.prototype.replace] for a
    pattern without capture groups: [$$], [$&], [$`] and [$'] are
    expanded, every other character stands for itself. *)
Fixpoint substitution (replacement matched before after : string) : string :=
  match replacement with
  | EmptyString => EmptyString
  | String c rest =>
      if Ascii.eqb c "$" then
        match rest with
        | String d rest' =>
            if Ascii.eqb d "$" then String "$" (substitution rest' matched before after)
            else if Ascii.eqb d "&" then matched +:+ substitution rest' matched before after
            else if Ascii.eqb d "`" then before +:+ substitution rest' matched before after
            else if Ascii.eqb d "'" then after +:+ substitution rest' matched before after
            else String c (substitution rest matched before after)
        | EmptyString => String c EmptyString
        end
      else String c (substitution rest matched before after)
  end.

Definition isLowerLetter (c : ascii) : bool :=
  Nat.leb 97 (nat_of_ascii c) && Nat.leb (nat_of_ascii c) 122.

(** [currentPath.match(/^\/([a-z]{2})(\/|$)/)] as a condition. *)
Definition langPrefixMatch (currentPath : string) : bool :=
  match currentPath with
  | String s (String a (String b rest)) =>
      Ascii.eqb s "/" && isLowerLetter a && isLowerLetter b &&
      match rest with
      | EmptyString => true
      | String c _ => Ascii.eqb c "/"
      end
  | _ => false
  end.

(** [currentPath.replace(/^\/[a-z]{2}/, replacement)] *)
Definition replaceLangPrefix (replacement currentPath : string) : string :=
  match currentPath with
  | String s (String a (String b rest)) =>
      if Ascii.eqb s "/" && isLowerLetter a && isLowerLetter b
      then substitution replacement (String s (String a (String b EmptyString)))
                        EmptyString rest +:+ rest
      else currentPath
  | _ => currentPath
  end.

(** [setLanguage(lang, updateUrl)]: the module variables and the storage
    afterwards, and the URL handed to [history.replaceState], if any. *)
Definition setLanguage (lang : string) (updateUrl : bool) (ctx : LocaleContext)
    (window : option Window) : LocaleContext * option Window * option string :=
  if includes lang (availableLanguages ctx) then
    let ctx' := {| currentLanguage := lang; defaultLanguage := defaultLanguage ctx;
                   availableLanguages := availableLanguages ctx |} in
    match window with
    | Some w =>
        (ctx', Some (setItem lang w),
         if updateUrl then
           let currentPath := pathname w in
           if langPrefixMatch currentPath
           then Some (replaceLangPrefix ("/" +:+ lang) currentPath +:+ hash w)
           else Some ("/" +:+ lang +:+ currentPath +:+ hash w)
         else None)
    | None => (ctx', None, None)
    end
  else (ctx, window, None).

Definition getLanguage (ctx : LocaleContext) : string := currentLanguage ctx.
Definition getAvailableLanguages (ctx : LocaleContext) : list string := availableLanguages ctx.
Definition getDefaultLanguage (ctx : LocaleContext) : string := defaultLanguage ctx.

(** What [initI18n] establishes and [setLanguage] keeps. *)
Definition consistent (ctx : LocaleContext) : Prop :=
  Js.truthy (defaultLanguage ctx) = true /\
  defaultLanguage ctx ∈ availableLanguages ctx /\
  currentLanguage ctx ∈ availableLanguages ctx.

(** A language the module may switch to. *)
Definition usable (ctx : LocaleContext) (lang : string) : Prop :=
  Js.truthy lang = true /\ lang ∈ availableLanguages ctx.

(** X21. [initI18n] leaves the module in a consistent state and chooses
    the language by priority.  The default language is never empty and is
    available; the available languages are the configured ones and the
    default.  The current language is the URL language when that one is
    given, not empty and available (and it is then stored); otherwise the
    storage is left alone and the current language is the stored one when
    there is a window with a stored language that is not empty and
    available; otherwise it is the default language. *)
Theorem initI18n_chooses (config : InitConfig) (urlLanguage : option string)
    (window : option Window) :
  let ctx := (initI18n config urlLanguage window).1 in
  let w' := (initI18n config urlLanguage window).2 in
  Js.truthy (defaultLanguage ctx) = true /\
  defaultLanguage ctx ∈ availableLanguages ctx /\
  (forall l, l ∈ availableLanguages ctx <->
             l ∈ default [] (languages config) \/ l = defaultLanguage ctx) /\
  ((exists u, urlLanguage = Some u /\ usable ctx u /\
              currentLanguage ctx = u /\ w' = setItem u <$> window) \/
   ((forall u, urlLanguage = Some u -> ~ usable ctx u) /\ w' = window /\
    ((exists s, window ≫= storedLanguage = Some s /\ usable ctx s /\
                currentLanguage ctx = s) \/
     ((forall s, window ≫= storedLanguage = Some s -> ~ usable ctx s) /\
      currentLanguage ctx = defaultLanguage ctx)))).
Proof.
  cbv zeta. unfold initI18n, usable.
  set (configDefault := match configDefaultLanguage config with
                        | Some d => if Js.truthy d then d else "en"
                        | None => "en"
                        end).
  set (available0 := if Nat.ltb 0 (length (default [] (languages config)))
                     then default [] (languages config) else [configDefault]).
  set (available := if includes configDefault available0 then available0
                    else configDefault :: available0).
  assert (Htruthy : Js.truthy configDefault = true).
  { unfold configDefault. destruct (configDefaultLanguage config) as [d|]; [|done].
    by destruct (Js.truthy d) eqn:Ed. }
  assert (Hdefault : configDefault ∈ available).
  { unfold available, includes. case_bool_decide; [done|left]. }
  assert (Hlangs : forall l, l ∈ available <->
                             l ∈ default [] (languages config) \/ l = configDefault).
  { intros l.
    assert (Hl0 : l ∈ available0 -> l ∈ default [] (languages config) \/ l = configDefault).
    { unfold available0. destruct (default [] (languages config)) as [|l0 ls]; cbn.
      - intros ->%list_elem_of_singleton. by right.
      - by left. }
    assert (Hl1 : l ∈ default [] (languages config) -> l ∈ available0).
    { unfold available0. destruct (default [] (languages config)); [|done].
      by intros ?%elem_of_nil. }
    split.
    - unfold available. destruct (includes _ _); [done|].
      intros [->|?]%elem_of_cons; [by right|auto].
    - intros [Hl| ->]; [|done]. unfold available.
      destruct (includes _ _); [auto|]. right. auto. }
  assert (Husable : forall lang : option string,
            (exists l, lang = Some l /\ Js.truthy l = true /\ l ∈ available /\
                       match lang with
                       | Some l => Js.truthy l && includes l available
                       | None => false
                       end = true) \/
            ((forall l, lang = Some l -> ~ (Js.truthy l = true /\ l ∈ available)) /\
             match lang with
             | Some l => Js.truthy l && includes l available
             | None => false
             end = false)).
  { intros [l|]; [|right; by split]. unfold includes.
    destruct (Js.truthy l) eqn:Et; [|right; split; [by intros ? [= <-] [? _]; congruence|done]].
    case_bool_decide as Hin.
    - left. by exists l.
    - right. split; [|done]. by intros ? [= <-] [_ ?]. }
  split; [|split; [|split]].
  1-3: by destruct (match urlLanguage with Some _ => _ | None => _ end);
       [|destruct window as [w|];
         [destruct (match storedLanguage w with Some _ => _ | None => _ end)|]].
  destruct (Husable urlLanguage) as [(u & -> & Hu & Hin & ->)|[Hno ->]].
  { left. by exists u. }
  right. destruct window as [w|]; cbn [mbind option_bind].
  - destruct (Husable (storedLanguage w)) as [(s & Hs & Hst & Hin & ->)|[Hnos ->]].
    + rewrite Hs. cbn. split; [done|]. split; [done|]. left. by exists s.
    + cbn. split; [done|]. split; [done|]. by right.
  - cbn. split; [done|]. split; [done|]. right. by split.
Qed.


(** The state after a series of calls [setLanguage(lang, updateUrl)]. *)
Definition setLanguages (calls : list (string * bool)) (ctx : LocaleContext)
    (window : option Window) : LocaleContext * option Window :=
  fold_left (fun st call => (setLanguage call.1 call.2 st.1 st.2).1) calls (ctx, window).

Lemma setLanguage_consistent lang updateUrl ctx window :
  consistent ctx ->
  let ctx' := (setLanguage lang updateUrl ctx window).1.1 in
  consistent ctx' /\ defaultLanguage ctx' = defaultLanguage ctx /\
  availableLanguages ctx' = availableLanguages ctx /\
  (currentLanguage ctx' = lang \/ currentLanguage ctx' = currentLanguage ctx).
Proof.
  intros (Ht & Hd & Hc). cbv zeta. unfold setLanguage, includes.
  case_bool_decide as Hin.
  - destruct window as [w|]; cbn; (split; [by repeat split|]); auto.
  - cbn. split; [by repeat split|]. auto.
Qed.

(** X22. Whatever languages are asked for, in whatever order, the current
    language stays one of the available languages: from a consistent state
    any series of calls to [setLanguage] leads to a consistent state with
    the same default and available languages, and the current language is
    the one it was or one that was asked for. *)
Theorem setLanguage_keeps_consistent (calls : list (string * bool)) (ctx : LocaleContext)
    (window : option Window) :
  consistent ctx ->
  let ctx' := (setLanguages calls ctx window).1 in
  consistent ctx' /\
  defaultLanguage ctx' = defaultLanguage ctx /\
  availableLanguages ctx' = availableLanguages ctx /\
  (currentLanguage ctx' = currentLanguage ctx \/ currentLanguage ctx' ∈ map fst calls).
Proof.
  cbv zeta. unfold setLanguages. revert ctx window.
  induction calls as [|[lang updateUrl] calls IH]; intros ctx window Hctx; cbn [fold_left].
  - repeat split; try apply Hctx. by left.
  - destruct (setLanguage_consistent lang updateUrl ctx window Hctx) as (Hc & Hd & Ha & Hcur).
    cbv zeta in *. cbn [fst snd].
    destruct (setLanguage lang updateUrl ctx window) as [[ctx1 w1] url1]. cbn [fst snd] in *.
    destruct (IH ctx1 w1 Hc) as (Hc' & Hd' & Ha' & Hcur').
    split; [done|]. split; [congruence|]. split; [congruence|].
    cbn [map fst]. destruct Hcur' as [->|Hin]; [|right; by right].
    destruct Hcur as [->| ->]; [right; left|by left].
Qed.

(** A language code of two lower-case letters. *)
Definition isLanguageCode (lang : string) : bool :=
  match lang with
  | String a (String b EmptyString) => isLowerLetter a && isLowerLetter b
  | _ => false
  end.

(** The path behind its first three characters. *)
Definition afterLangPrefix (currentPath : string) : string :=
  match currentPath with
  | String _ (String _ (String _ rest)) => rest
  | _ => EmptyString
  end.

(** The path [setLanguage] asks for: the language prefix replaced when
    there is one, added otherwise. *)
Definition localizedPath (lang currentPath : string) : string :=
  "/" +:+ lang +:+
  (if langPrefixMatch currentPath then afterLangPrefix currentPath else currentPath).

Lemma substitution_code lang matched before after :
  isLanguageCode lang = true ->
  substitution ("/" +:+ lang) matched before after = "/" +:+ lang.
Proof.
  destruct lang as [|a [|b [|c lang]]]; try done. cbn [isLanguageCode].
  intros [Ha Hb]%andb_true_iff.
  assert (Hne : forall c, isLowerLetter c = true -> Ascii.eqb c "$" = false).
  { intros c Hc. destruct (Ascii.eqb c "$") eqn:E; [|done].
    apply Ascii.eqb_eq in E as ->. done. }
  change ("/" +:+ String a (String b EmptyString))
    with (String "/" (String a (String b EmptyString))).
  cbn [substitution]. change (Ascii.eqb "/" "$") with false. cbv iota.
  by rewrite (Hne a Ha), (Hne b Hb).
Qed.

(** X23. For an available language code of two lower-case letters and a
    path that starts with a slash, [setLanguage(lang, true)] asks for the
    URL whose path is the current path with its language prefix replaced
    by [/lang], or with [/lang] put in front when it has none, followed by
    the fragment; that path has a language prefix, and asking again from
    there changes nothing. *)
Theorem setLanguage_url (lang : string) (ctx : LocaleContext) (w : Window) :
  lang ∈ availableLanguages ctx -> isLanguageCode lang = true ->
  Js.startsWith "/" (pathname w) = true ->
  let newPath := localizedPath lang (pathname w) in
  let w' := {| storedLanguage := Some lang; pathname := newPath; hash := hash w |} in
  (setLanguage lang true ctx (Some w)).2 = Some (newPath +:+ hash w) /\
  langPrefixMatch newPath = true /\
  (setLanguage lang true ctx (Some w')).2 = Some (newPath +:+ hash w).
Proof.
  intros Hin Hcode Hslash. cbv zeta.
  assert (Hurl : forall w0 : Window,
            (setLanguage lang true ctx (Some w0)).2 =
            Some (localizedPath lang (pathname w0) +:+ hash w0)).
  { intros w0. unfold setLanguage, includes, localizedPath.
    rewrite (bool_decide_eq_true_2 _ Hin). cbn [snd].
    destruct (langPrefixMatch (pathname w0)) eqn:Em.
    - f_equal. f_equal. unfold replaceLangPrefix.
      destruct (pathname w0) as [|s [|a [|b rest]]]; try done.
      cbn [langPrefixMatch] in Em. apply andb_true_iff in Em as [Em _]. rewrite Em.
      by rewrite (substitution_code lang _ _ _ Hcode).
    - f_equal. destruct lang as [|a [|b [|c lang]]]; done. }
  assert (Hmatch : langPrefixMatch (localizedPath lang (pathname w)) = true).
  { unfold localizedPath. destruct lang as [|a [|b [|c lang]]]; try done.
    cbn [isLanguageCode] in Hcode. apply andb_true_iff in Hcode as [Ha Hb].
    change (langPrefixMatch
              (String "/" (String a (String b
                 (if langPrefixMatch (pathname w) then afterLangPrefix (pathname w)
                  else pathname w)))) = true).
    cbn [langPrefixMatch]. rewrite Ha, Hb. cbn [Ascii.eqb andb].
    change (Ascii.eqb "/" "/") with true. cbn [andb].
    destruct (langPrefixMatch (pathname w)) eqn:Em.
    - destruct (pathname w) as [|s [|x [|y rest]]]; try done.
      cbn [langPrefixMatch] in Em. apply andb_true_iff in Em as [_ Em].
      cbn [afterLangPrefix]. exact Em.
    - destruct (pathname w) as [|s rest]; [done|].
      unfold Js.startsWith in Hslash. cbn [String.prefix] in Hslash.
      destruct (ascii_dec "/" s) as [<-|]; [done|done]. }
  split; [apply Hurl|]. split; [exact Hmatch|].
  rewrite Hurl. cbn [pathname hash]. f_equal. f_equal.
  unfold localizedPath at 1. rewrite Hmatch. f_equal.
  unfold localizedPath. destruct lang as [|a [|b [|c lang]]]; done.
Qed.

(** *** src/main.tsx: the routes *)

(** The module-level code of [main.tsx]: [defaultLanguage], [languages]
    and the configuration afterwards.  When the configuration lists
    languages, [languages] is that very array, so the [unshift] is seen
    through [config.languages] too. *)
Definition routeLanguages (config : InitConfig) : string * list string * InitConfig :=
  let defaultLanguage :=
    match configDefaultLanguage config with
    | Some d => if Js.truthy d then d else "en"
    | None => "en"
    end in
  let configLanguages := default [] (languages config) in
  if Nat.ltb 0 (length configLanguages) then
    if includes defaultLanguage configLanguages then (defaultLanguage, configLanguages, config)
    else (defaultLanguage, defaultLanguage :: configLanguages,
          {| languages := Some (defaultLanguage :: configLanguages);
             configDefaultLanguage := configDefaultLanguage config |})
  else
    (defaultLanguage,
     (if includes defaultLanguage [defaultLanguage] then [defaultLanguage]
      else [defaultLanguage; defaultLanguage]),
     config).

(** [validLang] in [LanguageRoute]: [None] is [null], and the route
    redirects to the default language. *)
Definition validLang (languages : list string) (lang : option string) : option string :=
  match lang with
  | Some l => if Js.truthy l && includes l languages then Some l else None
  | None => None
  end.

Definition getInitialLanguage (defaultLanguage : string) (languages : list string)
    (window : option Window) : string :=
  match window with
  | Some w =>
      match storedLanguage w with
      | Some stored =>
          if Js.truthy stored && includes stored languages then stored else defaultLanguage
      | None => defaultLanguage
      end
  | None => defaultLanguage
  end.

(** X25. The router and [initI18n] agree.  The languages [main.tsx]
    routes on and its default language are the available languages and
    the default language [initI18n] ends with, whatever URL language and
    storage it is given; a language the route accepts becomes the current
    language; and without a URL language the current language is the one
    [getInitialLanguage] sends the root path to. *)
Theorem routes_agree_with_initI18n (config : InitConfig) (window : option Window) :
  let '(defaultLanguage', languages', config') := routeLanguages config in
  (forall urlLanguage w,
     availableLanguages (initI18n config' urlLanguage w).1 = languages' /\
     defaultLanguage (initI18n config' urlLanguage w).1 = defaultLanguage') /\
  (forall lang l, validLang languages' lang = Some l ->
     currentLanguage (initI18n config' (Some l) window).1 = l) /\
  currentLanguage (initI18n config' None window).1 =
    getInitialLanguage defaultLanguage' languages' window.
Proof.
  unfold routeLanguages.
  set (d := match configDefaultLanguage config with
            | Some d => if Js.truthy d then d else "en"
            | None => "en"
            end).
  assert (Hself : includes d [d] = true).
  { apply bool_decide_eq_true. left. }
  assert (Hhead : forall l, includes d (d :: l) = true).
  { intros l. apply bool_decide_eq_true. left. }
  assert (Hinit : forall config' langs,
            configDefaultLanguage config' = configDefaultLanguage config ->
            (if Nat.ltb 0 (length (default [] (languages config')))
             then default [] (languages config') else [d]) = langs ->
            includes d langs = true ->
            (forall urlLanguage w,
               availableLanguages (initI18n config' urlLanguage w).1 = langs /\
               defaultLanguage (initI18n config' urlLanguage w).1 = d) /\
            (forall lang l, validLang langs lang = Some l ->
               currentLanguage (initI18n config' (Some l) window).1 = l) /\
            currentLanguage (initI18n config' None window).1 =
              getInitialLanguage d langs window).
  { intros config' langs Hd Hlangs Hin. unfold initI18n. rewrite Hd. fold d.
    rewrite Hlangs, Hin. split; [|split].
    - intros urlLanguage w.
      destruct (match urlLanguage with Some _ => _ | None => _ end); [done|].
      destruct w as [w|]; [|done].
      by destruct (match storedLanguage w with Some _ => _ | None => _ end).
    - intros lang l Hvalid. unfold validLang in Hvalid.
      destruct lang as [l'|]; [|done].
      destruct (Js.truthy l' && includes l' langs) eqn:E; [|done].
      injection Hvalid as ->. by rewrite E.
    - unfold getInitialLanguage. destruct window as [w|]; [|done].
      destruct (storedLanguage w) as [stored|]; [|done].
      by destruct (Js.truthy stored && includes stored langs). }
  destruct (Nat.ltb 0 (length (default [] (languages config)))) eqn:Elen.
  - destruct (includes d (default [] (languages config))) eqn:Ein.
    + apply Hinit; [done| |done]. by rewrite Elen.
    + apply Hinit; [done|done|apply Hhead].
  - rewrite Hself. apply Hinit; [done| |done]. by rewrite Elen.
Qed.

(** *** src/lib/defaultStrings.ts *)

Definition defaultStrings : list (string * list (string * string)) :=
  [("fr",
    [("ui.today", "Aujourd'hui");
     ("ui.closed", "Fermé");
     ("ui.open", "Ouvert");
     ("ui.paymentMethods", "Moyens de paiement");
     ("ui.loadMore", "Voir plus");
     ("ui.navigation", "Navigation");
     ("ui.close", "Fermer");
     ("ui.previous", "Précédent");
     ("ui.next", "Suivant");
     ("ui.call", "Appeler");
     ("ui.phone", "Téléphone");
     ("ui.email", "Email");
     ("ui.address", "Adresse");
     ("ui.disclaimer.title", "Aperçu");
     ("ui.disclaimer.message",
      "Ce site est un brouillon et est uniquement destiné à la prévisualisation.");
     ("ui.disclaimer.notIndexed", "Ce site n'est pas indexé par les moteurs de recherche");
     ("ui.disclaimer.mayContainErrors",
      "Le contenu peut contenir des erreurs ou des inexactitudes");
     ("ui.disclaimer.button", "Compris")]);
   ("en",
    [("ui.today", "Today");
     ("ui.closed", "Closed");
     ("ui.open", "Open");
     ("ui.paymentMethods", "Payment methods");
     ("ui.loadMore", "Load more");
     ("ui.navigation", "Navigation");
     ("ui.close", "Close");
     ("ui.previous", "Previous");
     ("ui.next", "Next");
     ("ui.call", "Call");
     ("ui.phone", "Phone");
     ("ui.email", "Email");
     ("ui.address", "Address");
     ("ui.disclaimer.title", "Preview Draft");
     ("ui.disclaimer.message", "This website is a draft and for preview only.");
     ("ui.disclaimer.notIndexed", "This site is not indexed by search engines");
     ("ui.disclaimer.mayContainErrors", "Content may contain errors or inaccuracies");
     ("ui.disclaimer.button", "Understood")]);
   ("de",
    [("ui.today", "Heute");
     ("ui.closed", "Geschlossen");
     ("ui.open", "Geöffnet");
     ("ui.paymentMethods", "Zahlungsmethoden");
     ("ui.loadMore", "Mehr laden");
     ("ui.navigation", "Navigation");
     ("ui.close", "Schließen");
     ("ui.previous", "Zurück");
     ("ui.next", "Weiter");
     ("ui.call", "Anrufen");
     ("ui.phone", "Telefon");
     ("ui.email", "E-Mail");
     ("ui.address", "Adresse");
     ("ui.disclaimer.title", "Vorschau");
     ("ui.disclaimer.message", "Diese Website ist ein Entwurf und dient nur zur Vorschau.");
     ("ui.disclaimer.notIndexed", "Diese Website wird nicht von Suchmaschinen indexiert");
     ("ui.disclaimer.mayContainErrors",
      "Der Inhalt kann Fehler oder Ungenauigkeiten enthalten");
     ("ui.disclaimer.button", "Verstanden")]);
   ("it",
    [("ui.today", "Oggi");
     ("ui.closed", "Chiuso");
     ("ui.open", "Aperto");
     ("ui.paymentMethods", "Metodi di pagamento");
     ("ui.loadMore", "Carica altro");
     ("ui.navigation", "Navigazione");
     ("ui.close", "Chiudi");
     ("ui.previous", "Precedente");
     ("ui.next", "Successivo");
     ("ui.call", "Chiama");
     ("ui.phone", "Telefono");
     ("ui.email", "Email");
     ("ui.address", "Indirizzo");
     ("ui.disclaimer.title", "Anteprima");
     ("ui.disclaimer.message",
      "Questo sito web è una bozza e serve solo per l'anteprima.");
     ("ui.disclaimer.notIndexed", "Questo sito non è indicizzato dai motori di ricerca");
     ("ui.disclaimer.mayContainErrors", "Il contenuto può contenere errori o imprecisioni");
     ("ui.disclaimer.button", "Capito")])].

(** [defaultStrings[language]]: the table of a language. *)
Fixpoint stringsOf (language : string) (tables : list (string * list (string * string)))
  : option (list (string * string)) :=
  match tables with
  | [] => None
  | (l, table) :: rest => if String.eqb language l then Some table else stringsOf language rest
  end.

(** [getDefaultString(key, language)] for a key that starts with [ui.],
    as every key [tui] asks for does.  Neither a table nor a member of
    [Object.prototype] has a property of such a name unless it is a
    table's own, so [defaultStrings[language]?.[key]] is the own entry of
    the table of [language] when there is such a table and such an entry,
    and [undefined] otherwise, also for a language that names an inherited
    member. *)
Definition getDefaultString (key language : string) : string :=
  match stringsOf language defaultStrings ≫= truthyProp key with
  | Some v => v
  | None =>
      match stringsOf "en" defaultStrings ≫= truthyProp key with
      | Some v => v
      | None => key
      end
  end.

Definition tui (ctx : LocaleContext) (key : string) (override : Arg) : member :=
  match override with
  | Value v => t ctx (Value v)
  | Undefined | Null => Str (getDefaultString ("ui." +:+ key) (currentLanguage ctx))
  end.

(** The keys of the English table. *)
Definition uiKeys : list string :=
  keys (default [] (stringsOf "en" defaultStrings)).

Lemma prop_keys key table : key ∉ keys table -> prop key table = None.
Proof.
  induction table as [|[k v] table IH]; cbn [keys map fst prop]; [done|].
  intros [Hne Hnin]%not_elem_of_cons.
  destruct (String.eqb key k) eqn:E; [by apply String.eqb_eq in E|by apply IH].
Qed.

Lemma prop_Forall (P : string -> Prop) key table v :
  Forall (fun kv => P (snd kv)) table -> prop key table = Some v -> P v.
Proof.
  intros Hall Hp. apply prop_elem in Hp. rewrite Forall_forall in Hall.
  exact (Hall _ Hp).
Qed.

Lemma stringsOf_elem language tables table :
  stringsOf language tables = Some table -> (language, table) ∈ tables.
Proof.
  induction tables as [|[l tb] tables IH]; cbn [stringsOf]; [done|].
  destruct (String.eqb language l) eqn:E.
  - intros [= ->]. apply String.eqb_eq in E as ->. left.
  - intros Hs. right. auto.
Qed.

Lemma stringsOf_None language tables :
  language ∉ map fst tables -> stringsOf language tables = None.
Proof.
  induction tables as [|[l tb] tables IH]; cbn [stringsOf map fst]; [done|].
  intros [Hne Hnin]%not_elem_of_cons.
  destruct (String.eqb language l) eqn:E; [by apply String.eqb_eq in E|by apply IH].
Qed.

(** The four tables define the same keys, and no text is empty. *)
Lemma defaultStrings_complete :
  Forall (fun lt => keys (snd lt) = uiKeys /\
                    Forall (fun kv => Js.truthy (snd kv) = true) (snd lt)) defaultStrings.
Proof. repeat constructor. Qed.

(** X24. Without an override, [tui] never returns an empty string, for
    [undefined] as for [null].  For a language without a table it returns
    what English gives; for a key outside the eighteen known ones it
    returns [ui.<key>] itself; and as the four tables define the same
    keys, a known key is always answered from the table of the current
    language when it has one. *)
Theorem tui_fallback (ctx : LocaleContext) (key : string) :
  exists text,
  tui ctx key Undefined = Str text /\
  tui ctx key Null = Str text /\
  Js.truthy text = true /\
  (currentLanguage ctx ∉ map fst defaultStrings ->
   text = getDefaultString ("ui." +:+ key) "en") /\
  ("ui." +:+ key ∉ uiKeys -> text = "ui." +:+ key) /\
  (forall table, stringsOf (currentLanguage ctx) defaultStrings = Some table ->
     "ui." +:+ key ∈ uiKeys -> prop ("ui." +:+ key) table = Some text).
Proof.
  exists (getDefaultString ("ui." +:+ key) (currentLanguage ctx)).
  split; [done|]. split; [done|].
  set (k := "ui." +:+ key). set (lang := currentLanguage ctx).
  assert (Htable : forall l table, stringsOf l defaultStrings = Some table ->
            keys table = uiKeys /\ Forall (fun kv => Js.truthy (snd kv) = true) table).
  { intros l table Hs. apply stringsOf_elem in Hs.
    pose proof defaultStrings_complete as Hall. rewrite Forall_forall in Hall.
    exact (Hall _ Hs). }
  assert (Hlookup : forall l table, stringsOf l defaultStrings = Some table ->
            (k ∈ uiKeys -> exists v, prop k table = Some v /\ Js.truthy v = true /\
                                     truthyProp k table = Some v) /\
            (k ∉ uiKeys -> truthyProp k table = None)).
  { intros l table Hs. destruct (Htable l table Hs) as [Hkeys Htexts]. split.
    - intros Hin. rewrite <- Hkeys in Hin. unfold truthyProp.
      destruct (prop k table) as [v|] eqn:Ep.
      + pose proof (prop_Forall (fun v => Js.truthy v = true) k table v Htexts Ep) as Hv.
        exists v. by rewrite Hv.
      + exfalso. clear -Hin Ep. induction table as [|[k0 v0] table IH].
        * by apply elem_of_nil in Hin.
        * cbn [prop] in Ep. destruct (String.eqb k k0) eqn:E; [done|].
          apply String.eqb_neq in E. cbn in Hin.
          apply elem_of_cons in Hin as [?|?]; [done|auto].
    - intros Hnin. rewrite <- Hkeys in Hnin. unfold truthyProp.
      by rewrite (prop_keys k table Hnin). }
  assert (Hkey : Js.truthy k = true) by done.
  unfold getDefaultString.
  destruct (stringsOf "en" defaultStrings) as [en|] eqn:Een; [|done].
  destruct (Hlookup "en" en Een) as [Hen1 Hen2].
  destruct (decide (k ∈ uiKeys)) as [Hin|Hnin].
  - destruct (Hen1 Hin) as (ve & _ & Hve & Hte).
    destruct (stringsOf lang defaultStrings) as [table|] eqn:El; cbn [mbind option_bind].
    + destruct (Hlookup lang table El) as [Hl1 _].
      destruct (Hl1 Hin) as (v & Hp & Hv & Ht). rewrite Ht.
      split; [done|]. split.
      * intros Hno. by rewrite (stringsOf_None lang defaultStrings Hno) in El.
      * split; [done|]. by intros table' [= <-] _.
    + rewrite Hte. split; [done|]. split; [done|]. split; [done|]. done.
  - cbn [mbind option_bind]. rewrite (Hen2 Hnin).
    destruct (stringsOf lang defaultStrings) as [table|] eqn:El; cbn [mbind option_bind].
    + destruct (Hlookup lang table El) as [_ Hl2]. rewrite (Hl2 Hnin).
      split; [done|]. split; [done|]. split; [done|]. by intros table' _ ?.
    + split; [done|]. split; [done|]. split; [done|]. done.
Qed.

(** C9 (the code departs from the claim).  [t] reads
    [value[currentLanguage]] through the prototype chain.  With
    [constructor] among the configured languages and chosen by the URL,
    [t] returns, for a valid text that has no entry of that name, the
    function every object inherits as [constructor], neither a string nor
    what the fallback chain selects, which is the text of the default
    language. *)
Theorem t_returns_inherited_member :
  let config := {| languages := Some ["en"; "constructor"];
                   configDefaultLanguage := Some "en" |} in
  let ctx := (initI18n config (Some "constructor") None).1 in
  validLocalizedText welcome /\
  ctx = {| currentLanguage := "constructor"; defaultLanguage := "en";
           availableLanguages := ["en"; "constructor"] |} /\
  resolved ctx welcome = Some "Welcome" /\
  t ctx (Value welcome) = Inherited "constructor".
Proof.
  cbv zeta. split; [split; [done|repeat constructor]|].
  split; [vm_compute; reflexivity|]. split; vm_compute; reflexivity.
Qed.

Lemma ctx_fr_consistent : consistent ctx_fr.
Proof.
  split; [reflexivity|]. split; apply (bool_decide_unpack _); vm_compute; exact I.
Defined.

(** Asking for German (not available), then English, then Italian (not
    available) leaves English. *)
Lemma setLanguage_keeps_consistent_witness :
  let ctx' := (setLanguages [("de", false); ("en", true); ("it", false)] ctx_fr None).1 in
  consistent ctx' /\ defaultLanguage ctx' = "en" /\ availableLanguages ctx' = ["en"; "fr"].
Proof.
  destruct (setLanguage_keeps_consistent [("de", false); ("en", true); ("it", false)]
              ctx_fr None ctx_fr_consistent) as (Hc & Hd & Ha & _).
  split; [exact Hc|]. split; [exact Hd|exact Ha].
Defined.

Lemma setLanguage_url_witness :
  (setLanguage "fr" true ctx_fr
     (Some {| storedLanguage := None; pathname := "/en/menu"; hash := "#hours" |})).2 =
    Some "/fr/menu#hours" /\
  (setLanguage "fr" true ctx_fr
     (Some {| storedLanguage := Some "fr"; pathname := "/fr/menu"; hash := "#hours" |})).2 =
    Some "/fr/menu#hours".
Proof.
  destruct (setLanguage_url "fr" ctx_fr
              {| storedLanguage := None; pathname := "/en/menu"; hash := "#hours" |})
    as (Hfirst & _ & Hagain).
  - apply (bool_decide_unpack _). vm_compute. exact I.
  - reflexivity.
  - reflexivity.
  - split; [exact Hfirst|exact Hagain].
Defined.

End I18n.

(** ** JSON values *)

Module Json.

(** A value produced by [JSON.parse].  The fields of an object are listed
    in [Object.keys] order. *)
#[local] Unset Elimination Schemes.
Inductive json : Type :=
  | JNull
  | JBool (b : bool)
  | JNum (q : Q)
  | JStr (s : string)
  | JArr (items : list json)
  | JObj (fields : list (string * json)).
#[local] Set Elimination Schemes.

(** One step of a property access: [a[i]] or [o[k]]. *)
Inductive step : Type :=
  | Idx (i : nat)
  | Key (k : string).

Definition path : Type := list step.

#[global] Instance step_eq_dec : EqDecision step.
Proof. solve_decision. Defined.

(** [o[k]] on the fields of an object. *)
Fixpoint field (k : string) (fields : list (string * json)) : option json :=
  match fields with
  | [] => None
  | (k', v) :: rest => if String.eqb k k' then Some v else field k rest
  end.

(** [o[k] = f(o[k])] on an existing key: the field keeps its position. *)
Fixpoint alterField (f : json -> json) (k : string) (fields : list (string * json))
  : list (string * json) :=
  match fields with
  | [] => []
  | (k', v) :: rest =>
      if String.eqb k k' then (k', f v) :: rest else (k', v) :: alterField f k rest
  end.

(** The value reached from [t] along a path. *)
Fixpoint getAt (p : path) (t : json) : option json :=
  match p with
  | [] => Some t
  | Idx i :: p' =>
      match t with
      | JArr items => items !! i ≫= getAt p'
      | _ => None
      end
  | Key k :: p' =>
      match t with
      | JObj fields => field k fields ≫= getAt p'
      | _ => None
      end
  end.

(** The tree after the assignment [c[k] = new], where the container [c] and
    its slot [k] are reached from the root along the path.  The tree comes
    from [JSON.parse], so no container is shared and the path names the
    container. *)
Fixpoint assignAt (p : path) (new : json) (t : json) : json :=
  match p with
  | [] => new
  | Idx i :: p' =>
      match t with
      | JArr items => JArr (alter (assignAt p' new) i items)
      | _ => t
      end
  | Key k :: p' =>
      match t with
      | JObj fields => JObj (alterField (assignAt p' new) k fields)
      | _ => t
      end
  end.

(** Objects have one value per key. *)
Fixpoint wf (t : json) : Prop :=
  match t with
  | JArr items => (fix all (l : list json) : Prop :=
                     match l with [] => True | x :: l' => wf x /\ all l' end) items
  | JObj fields =>
      NoDup (map fst fields) /\
      (fix all (l : list (string * json)) : Prop :=
         match l with [] => True | (_, x) :: l' => wf x /\ all l' end) fields
  | _ => True
  end.

Section Induction.
Variable P : json -> Prop.
Hypothesis Hnull : P JNull.
Hypothesis Hbool : forall b, P (JBool b).
Hypothesis Hnum : forall q, P (JNum q).
Hypothesis Hstr : forall s, P (JStr s).
Hypothesis Harr : forall items, Forall P items -> P (JArr items).
Hypothesis Hobj : forall fields, Forall (fun kv => P (snd kv)) fields -> P (JObj fields).

Fixpoint json_ind (t : json) : P t :=
  match t with
  | JNull => Hnull
  | JBool b => Hbool b
  | JNum q => Hnum q
  | JStr s => Hstr s
  | JArr items =>
      Harr items ((fix go (l : list json) : Forall P l :=
                     match l with
                     | [] => @List.Forall_nil _ P
                     | x :: l' => @List.Forall_cons _ P x l' (json_ind x) (go l')
                     end) items)
  | JObj fields =>
      Hobj fields ((fix go (l : list (string * json)) : Forall (fun kv => P (snd kv)) l :=
                      match l with
                      | [] => @List.Forall_nil _ _
                      | kv :: l' => @List.Forall_cons _ _ kv l' (json_ind (snd kv)) (go l')
                      end) fields)
  end.
End Induction.

Lemma wf_arr items : wf (JArr items) <-> Forall wf items.
Proof.
  simpl. induction items as [|x l IH]; [by split; [constructor|]|].
  split.
  - intros [Hx Hl]. constructor; [done|]. by apply IH.
  - intros H. inversion H; subst. split; [done|]. by apply IH.
Qed.

Lemma wf_obj fields :
  wf (JObj fields) <-> NoDup (map fst fields) /\ Forall (fun kv => wf (snd kv)) fields.
Proof.
  simpl. apply and_iff_compat_l.
  induction fields as [|[k x] l IH]; [by split; [constructor|]|].
  split.
  - intros [Hx Hl]. constructor; [done|]. by apply IH.
  - intros H. inversion H; subst. split; [done|]. by apply IH.
Qed.

Lemma field_elem k fields v : field k fields = Some v -> (k, v) ∈ fields.
Proof.
  induction fields as [|[k' w] fields IH]; simpl; [done|].
  destruct (String.eqb k k') eqn:E.
  - intros [= ->]. apply String.eqb_eq in E as ->. left.
  - intros Hf. right. auto.
Qed.

Lemma elem_field k fields v :
  NoDup (map fst fields) -> (k, v) ∈ fields -> field k fields = Some v.
Proof.
  induction fields as [|[k' w] fields IH]; simpl; intros Hnd Hin.
  - by apply elem_of_nil in Hin.
  - apply NoDup_cons in Hnd as [Hk Hnd].
    apply elem_of_cons in Hin as [[= <- <-]|Hin].
    + by rewrite String.eqb_refl.
    + destruct (String.eqb k k') eqn:E; [|auto].
      apply String.eqb_eq in E as <-. exfalso. apply Hk.
      apply list_elem_of_fmap. by exists (k, v).
Qed.

Lemma field_alterField_eq f k fields :
  field k (alterField f k fields) = f <$> field k fields.
Proof.
  induction fields as [|[k' w] fields IH]; simpl; [done|].
  destruct (String.eqb k k') eqn:E; simpl; by rewrite E.
Qed.

Lemma field_alterField_ne f k k' fields :
  k <> k' -> field k' (alterField f k fields) = field k' fields.
Proof.
  intros Hne. induction fields as [|[k0 w] fields IH]; simpl; [done|].
  destruct (String.eqb k k0) eqn:E; simpl.
  - apply String.eqb_eq in E as <-.
    destruct (String.eqb k' k) eqn:E'; [|done].
    apply String.eqb_eq in E'. congruence.
  - by rewrite IH.
Qed.

Lemma alterField_keys f k fields : map fst (alterField f k fields) = map fst fields.
Proof.
  induction fields as [|[k0 w] fields IH]; simpl; [done|].
  destruct (String.eqb k k0); simpl; by rewrite ?IH.
Qed.

Lemma getAt_str_nil p s a : getAt p (JStr s) = Some a -> p = [] /\ a = JStr s.
Proof. destruct p as [|[i|k] p]; simpl; [|done..]. by intros [= <-]. Qed.

(** Reading a string slot after the assignment of a string to a string
    slot: the assigned slot holds the new string, every other slot holds
    what it held. *)
Lemma getAt_assignAt q : forall t b v p a,
  getAt q t = Some (JStr b) ->
  getAt p (assignAt q (JStr v) t) = Some (JStr a) <->
  (if decide (p = q) then a = v else getAt p t = Some (JStr a)).
Proof.
  induction q as [|s q IH]; intros t b v p a Hq.
  - simpl in Hq. injection Hq as ->. cbn [assignAt].
    case_decide as Hp.
    + subst p. cbn [getAt]. split; [by intros [= ->]|by intros ->].
    + split; intros Hg; by apply getAt_str_nil in Hg as [? ?].
  - destruct s as [i|k]; destruct t; try done; cbn [getAt assignAt] in Hq |- *.
    + destruct (items !! i) as [x|] eqn:Ei; [|done]. cbn in Hq.
      destruct p as [|[j|k] p]; cbn [getAt].
      * case_decide; done.
      * destruct (decide (i = j)) as [<-|Hij].
        -- rewrite list_lookup_alter_eq, Ei. cbn.
           rewrite (IH x b v p a Hq).
           destruct (decide (p = q)) as [->|Hpq].
           ++ by rewrite !decide_True by done.
           ++ by rewrite !decide_False by congruence.
        -- rewrite list_lookup_alter_ne by done.
           rewrite decide_False by congruence. done.
      * case_decide; done.
    + destruct (field k fields) as [x|] eqn:Ek; [|done]. cbn in Hq.
      destruct p as [|[j|k'] p]; cbn [getAt].
      * case_decide; done.
      * case_decide; done.
      * destruct (decide (k = k')) as [<-|Hkk].
        -- rewrite field_alterField_eq, Ek. cbn.
           rewrite (IH x b v p a Hq).
           destruct (decide (p = q)) as [->|Hpq].
           ++ by rewrite !decide_True by done.
           ++ by rewrite !decide_False by congruence.
        -- rewrite field_alterField_ne by done.
           rewrite decide_False by congruence. done.
Qed.

Lemma wf_assignAt p : forall v t, wf t -> wf (assignAt p (JStr v) t).
Proof.
  induction p as [|s p IH]; intros v t Hwf; [done|].
  destruct s as [i|k]; destruct t; try done; simpl assignAt.
  - apply wf_arr. apply wf_arr in Hwf. apply Forall_alter; [done|].
    intros x _ Hx. by apply IH.
  - apply wf_obj. apply wf_obj in Hwf as [Hnd Hall].
    rewrite alterField_keys. split; [done|].
    clear Hnd. induction Hall as [|[k0 w] fields Hw Hall IHf]; simpl; [constructor|].
    destruct (String.eqb k k0); constructor; simpl; auto.
Qed.

(** The tree with its strings blanked: what is left is the containers,
    their keys and lengths, and the other scalars. *)
Fixpoint skeleton (t : json) : json :=
  match t with
  | JStr _ => JStr EmptyString
  | JArr items => JArr (map skeleton items)
  | JObj fields => JObj (map (fun kv => (fst kv, skeleton (snd kv))) fields)
  | _ => t
  end.

(** Assigning a string to a slot that holds a string changes no more than
    that string. *)
Lemma skeleton_assignAt q : forall t b v,
  getAt q t = Some (JStr b) -> skeleton (assignAt q (JStr v) t) = skeleton t.
Proof.
  induction q as [|s q IH]; intros t b v Hq.
  - cbn in Hq. by injection Hq as ->.
  - destruct s as [i|k]; destruct t; try done; cbn [getAt assignAt skeleton] in Hq |- *.
    + destruct (items !! i) as [x|] eqn:Ei; [|done]. cbn in Hq. f_equal.
      apply list_eq. intros j. change (map skeleton) with (fmap (M:=list) skeleton).
      rewrite !list_lookup_fmap.
      destruct (decide (i = j)) as [<-|Hij].
      * rewrite list_lookup_alter_eq, Ei. cbn. by rewrite (IH x b v Hq).
      * by rewrite list_lookup_alter_ne.
    + f_equal. revert Hq. induction fields as [|[k0 w] fields IHf]; cbn [field alterField]; [done|].
      destruct (String.eqb k k0); cbn [map fst snd].
      * intros Hq. cbn in Hq. by rewrite (IH w b v Hq).
      * intros Hq. by rewrite IHf.
Qed.

End Json.

(** ** pipeline/download-assets.js *)

Module Download.
Import Json.

(** The parts of the Node.js runtime the downloader calls: the WHATWG URL
    parser, [decodeURIComponent] and [JSON.stringify].  [None] stands for
    a thrown exception. *)
Class Platform : Type := {
  (** [new URL(s).pathname] *)
  urlPathname : string -> option string;
  (** [new URL(s).protocol], for a string that [new URL] parses *)
  urlProtocol : string -> string;
  (** [new URL(location, base).href] *)
  urlResolve : string -> string -> option string;
  decodeURIComponent : string -> option string;
  (** [JSON.stringify(value, null, 2)] *)
  stringify : json -> string;
}.

Definition MAX_REDIRECTS : nat := 5.

(** *** File names *)

(** [x | 0]: conversion to a signed 32-bit integer. *)
Definition toInt32 (z : Z) : Z := ((z + 2 ^ 31) mod 2 ^ 32 - 2 ^ 31)%Z.

Definition charCode (c : ascii) : Z := Z.of_nat (nat_of_ascii c).

Definition digit36 (d : Z) : ascii :=
  if (d <? 10)%Z then ascii_of_nat (48 + Z.to_nat d) else ascii_of_nat (87 + Z.to_nat d).

Fixpoint toString36_go (fuel : nat) (z : Z) (acc : string) : string :=
  match fuel with
  | O => acc
  | S fuel' =>
      let acc' := String (digit36 (z mod 36)) acc in
      if (z / 36 =? 0)%Z then acc' else toString36_go fuel' (z / 36) acc'
  end.

(** [n.toString(36)] for a non-negative integer; a number has no more
    digits in base 36 than bits. *)
Definition toString36 (z : Z) : string :=
  toString36_go (S (Z.to_nat (Z.log2 z))) z EmptyString.

Fixpoint simpleHash_go (str : string) (hash : Z) : Z :=
  match str with
  | EmptyString => hash
  | String ch rest =>
      let hash1 := (toInt32 (hash * 32) - hash + charCode ch)%Z in
      simpleHash_go rest (toInt32 hash1)
  end.

Definition simpleHash (str : string) : string :=
  toString36 (Z.abs (simpleHash_go str 0%Z)).

(** [s.split('/')] *)
Fixpoint splitSlash (s : string) (cur : string) : list string :=
  match s with
  | EmptyString => [cur]
  | String c rest =>
      if Ascii.eqb c "/" then cur :: splitSlash rest EmptyString
      else splitSlash rest (cur +:+ String c EmptyString)
  end.

(** The class [[a-zA-Z0-9._-]]. *)
Definition isSafeChar (c : ascii) : bool :=
  let n := nat_of_ascii c in
  (Nat.leb 97 n && Nat.leb n 122) || (Nat.leb 65 n && Nat.leb n 90) ||
  (Nat.leb 48 n && Nat.leb n 57) || Nat.eqb n 46 || Nat.eqb n 95 || Nat.eqb n 45.

(** [filename.replace(/[^a-zA-Z0-9._-]/g, '_')] *)
Fixpoint replaceUnsafe (s : string) : string :=
  match s with
  | EmptyString => EmptyString
  | String c rest => String (if isSafeChar c then c else "_"%char) (replaceUnsafe rest)
  end.

(** [filename.replace(/^\.+/, '')] *)
Fixpoint stripLeadingDots (s : string) : string :=
  match s with
  | String c rest => if Ascii.eqb c "." then stripLeadingDots rest else s
  | EmptyString => EmptyString
  end.

Definition localFilenameFromUrl `{Platform} (urlString : string) : string :=
  match urlPathname urlString with
  | None => "asset_" +:+ simpleHash urlString
  | Some pathname =>
      let segments := filter (fun s => Js.truthy s = true) (splitSlash pathname EmptyString) in
      let filename := default EmptyString (last segments) in
      let filename := default filename (decodeURIComponent filename) in
      let filename := replaceUnsafe filename in
      let filename := stripLeadingDots filename in
      if Js.truthy filename then filename else "asset_" +:+ simpleHash urlString
  end.

(** Index of the last ['.'] of a string, if any. *)
Fixpoint lastDot (s : string) (i : nat) (found : option nat) : option nat :=
  match s with
  | EmptyString => found
  | String c rest => lastDot rest (S i) (if Ascii.eqb c "." then Some i else found)
  end.

Fixpoint dropString (n : nat) (s : string) : string :=
  match n, s with
  | O, _ => s
  | S n', String _ rest => dropString n' rest
  | S _, EmptyString => EmptyString
  end.

Fixpoint takeString (n : nat) (s : string) : string :=
  match n, s with
  | O, _ => EmptyString
  | S n', String c rest => String c (takeString n' rest)
  | S _, EmptyString => EmptyString
  end.

(** Where the extension of a file name without directory part starts:
    at its last dot, unless that dot opens the name or the name is [..]. *)
Definition extStart (filename : string) : option nat :=
  match lastDot filename 0 None with
  | Some (S i) => if String.eqb filename ".." then None else Some (S i)
  | _ => None
  end.

(** [path.extname(filename)] *)
Definition extname (filename : string) : string :=
  match extStart filename with
  | Some i => dropString i filename
  | None => EmptyString
  end.

(** [path.basename(filename, path.extname(filename))] *)
Definition basenameNoExt (filename : string) : string :=
  match extStart filename with
  | Some i => takeString i filename
  | None => filename
  end.

(** The files of the output directory, by name; [fs.existsSync] of
    [path.join(dir, name)] is membership of [name]. *)
Abbreviation disk := (gmap string string).

Definition existsSync (files : disk) (name : string) : bool :=
  bool_decide (is_Some (files !! name)).

Definition taken (files : disk) (reserved : gset string) (name : string) : bool :=
  existsSync files name || bool_decide (name ∈ reserved).

Definition candidateName (base ext : string) (counter : nat) : string :=
  base +:+ "_" +:+ pretty counter +:+ ext.

(** The [while (true)] loop of [uniqueFilename], run for at most [fuel]
    candidates. *)
Fixpoint uniqueFilename_loop (files : disk) (reserved : gset string)
    (base ext : string) (fuel counter : nat) : option string :=
  match fuel with
  | O => None
  | S fuel' =>
      let candidate := candidateName base ext counter in
      if taken files reserved candidate
      then uniqueFilename_loop files reserved base ext fuel' (S counter)
      else Some candidate
  end.

(** One candidate more than there are names in use is enough for the loop
    to return (see [uniqueFilename_loop_returns]). *)
Definition uniqueFilename (files : disk) (filename : string) (reserved : gset string) : string :=
  if negb (taken files reserved filename) then filename
  else
    let ext := extname filename in
    let base := basenameNoExt filename in
    default filename
      (uniqueFilename_loop files reserved base ext (S (size (dom files ∪ reserved))) 2).

Lemma append_length s1 s2 :
  String.length (s1 +:+ s2) = String.length s1 + String.length s2.
Proof.
  induction s1 as [|c s1 IH]; [done|].
  change (S (String.length (s1 +:+ s2)) = S (String.length s1 + String.length s2)).
  by rewrite IH.
Qed.

Lemma append_inj_r e s1 s2 : s1 +:+ e = s2 +:+ e -> s1 = s2.
Proof.
  assert (Hno : forall d s, e <> String d s +:+ e).
  { intros d s Heq. apply (f_equal String.length) in Heq.
    change (String.length e = S (String.length (s +:+ e))) in Heq.
    rewrite append_length in Heq. lia. }
  revert s2. induction s1 as [|c s1 IH]; intros [|d s2] Heq.
  - done.
  - by destruct (Hno d s2).
  - by destruct (Hno c s1).
  - injection Heq as -> Heq. f_equal. by apply IH.
Qed.

Lemma candidateName_inj base ext : Inj (=) (=) (candidateName base ext).
Proof.
  intros i j Heq. unfold candidateName in Heq.
  apply (inj (String.app base)) in Heq.
  apply (inj (String.app "_")) in Heq.
  apply append_inj_r in Heq. by apply (inj pretty) in Heq.
Qed.

Lemma uniqueFilename_loop_some files reserved base ext fuel counter c :
  uniqueFilename_loop files reserved base ext fuel counter = Some c ->
  taken files reserved c = false /\
  exists k, counter <= k /\ c = candidateName base ext k /\
            forall j, counter <= j < k ->
                      taken files reserved (candidateName base ext j) = true.
Proof.
  revert counter. induction fuel as [|fuel IH]; intros counter; simpl; [done|].
  destruct (taken files reserved (candidateName base ext counter)) eqn:E.
  - intros Hc. destruct (IH _ Hc) as [Hfree (k & Hk & -> & Hbelow)].
    split; [done|]. exists k. split; [lia|]. split; [done|].
    intros j Hj. destruct (decide (j = counter)) as [->|]; [done|].
    apply Hbelow. lia.
  - intros [= <-]. split; [done|]. exists counter. split; [lia|]. split; [done|].
    intros j Hj. lia.
Qed.

Lemma uniqueFilename_loop_none files reserved base ext fuel counter :
  uniqueFilename_loop files reserved base ext fuel counter = None ->
  forall j, counter <= j < counter + fuel ->
            taken files reserved (candidateName base ext j) = true.
Proof.
  revert counter. induction fuel as [|fuel IH]; intros counter; simpl.
  - intros _ j Hj. lia.
  - destruct (taken files reserved (candidateName base ext counter)) eqn:E; [|done].
    intros Hn j Hj. destruct (decide (j = counter)) as [->|]; [done|].
    apply (IH _ Hn). lia.
Qed.

Lemma taken_elem files reserved name :
  taken files reserved name = true <-> name ∈ dom files ∪ reserved.
Proof.
  unfold taken, existsSync. rewrite orb_true_iff, !bool_decide_eq_true.
  rewrite elem_of_union, elem_of_dom. done.
Qed.

(** The loop of [uniqueFilename] returns: among one candidate more than
    there are names in use, one is free. *)
Lemma uniqueFilename_loop_returns files reserved base ext :
  is_Some (uniqueFilename_loop files reserved base ext
             (S (size (dom files ∪ reserved))) 2).
Proof.
  destruct (uniqueFilename_loop _ _ _ _ _ _) as [c|] eqn:E; [by eexists|].
  exfalso.
  pose proof (uniqueFilename_loop_none _ _ _ _ _ _ E) as Hall.
  set (n := size (dom files ∪ reserved)) in *.
  set (cands := candidateName base ext <$> seq 2 (S n)).
  assert (Hnd : NoDup cands).
  { apply NoDup_fmap_2; [apply candidateName_inj|apply NoDup_seq]. }
  assert (Hsub : (list_to_set cands : gset string) ⊆ dom files ∪ reserved).
  { intros x Hx. apply elem_of_list_to_set in Hx.
    apply list_elem_of_fmap in Hx as (j & -> & Hj).
    apply elem_of_seq in Hj. apply taken_elem, Hall. lia. }
  apply subseteq_size in Hsub. rewrite (size_list_to_set _ Hnd) in Hsub.
  unfold cands in Hsub. rewrite length_fmap, length_seq in Hsub.
  fold n in Hsub. lia.
Qed.

(** [uniqueFilename] returns a name that is neither on disk nor reserved:
    the wanted name when it is free, else the first free candidate
    [base_2.ext], [base_3.ext], ... *)
Lemma uniqueFilename_spec files filename reserved :
  taken files reserved (uniqueFilename files filename reserved) = false /\
  (taken files reserved filename = false ->
   uniqueFilename files filename reserved = filename) /\
  (taken files reserved filename = true ->
   exists k, 2 <= k /\
     uniqueFilename files filename reserved =
       candidateName (basenameNoExt filename) (extname filename) k /\
     forall j, 2 <= j < k ->
       taken files reserved
         (candidateName (basenameNoExt filename) (extname filename) j) = true).
Proof.
  unfold uniqueFilename.
  destruct (taken files reserved filename) eqn:E; cbn [negb].
  - destruct (uniqueFilename_loop_returns files reserved
                (basenameNoExt filename) (extname filename)) as [c Hc].
    rewrite Hc. cbn [default from_option].
    destruct (uniqueFilename_loop_some _ _ _ _ _ _ _ Hc) as [Hfree (k & Hk & -> & Hb)].
    split; [done|]. split; [done|]. intros _. exists k. done.
  - split; [done|]. split; [done|]. done.
Qed.

(** *** Walking the configuration *)

Definition isRemoteUrl (value : string) : bool :=
  Js.startsWith "http://" value || Js.startsWith "https://" value.

(** A collected reference.  The closure [set] captures the container and
    the slot; it is represented by the path of the slot from the root, and
    calling it is [assignAt]. *)
Record entry : Type := Entry { url : string; set : path }.

Section Walk.
Context (recurse : path -> json -> list entry -> list entry).
(** The body of both loops of [collectRemoteUrls]: the slot [s] of the
    container at [here] holds [val]. *)
Definition visit (here : path) (s : step) (val : json) (results : list entry)
  : list entry :=
  match val with
  | JStr v =>
      if isRemoteUrl v then results ++ [Entry v (here ++ [s])] else results
  | JArr _ | JObj _ => recurse (here ++ [s]) val results
  | _ => results
  end.
End Walk.

Fixpoint collectRemoteUrls_at (here : path) (obj : json) (results : list entry)
  : list entry :=
  match obj with
  | JArr items =>
      Js.forIndex (fun i val results => visit collectRemoteUrls_at here (Idx i) val results)
        0 items results
  | JObj fields =>
      fold_left (fun results kv =>
                   match kv with
                   | (key, val) => visit collectRemoteUrls_at here (Key key) val results
                   end) fields results
  | _ => results
  end.

Definition collectRemoteUrls (obj : json) : list entry :=
  collectRemoteUrls_at [] obj [].

(** *** Grouping by URL *)

(** [if (!map.has(url)) map.set(url, []); map.get(url).push(set)] on a
    [Map] kept in insertion order. *)
Fixpoint mapPush (u : string) (s : path) (m : list (string * list path))
  : list (string * list path) :=
  match m with
  | [] => [(u, [s])]
  | (u', ss) :: rest =>
      if String.eqb u' u then (u', ss ++ [s]) :: rest else (u', ss) :: mapPush u s rest
  end.

Definition deduplicateByUrl (entries : list entry) : list (string * list path) :=
  fold_left (fun m e => mapPush (url e) (set e) m) entries [].

(** *** Downloading one file *)

(** What happens to the body of a 2xx response piped into the write
    stream of the destination file. *)
Inductive transfer : Type :=
  | Finish (body : string)               (* the stream emits 'finish' *)
  | WriteError (written err : string)    (* the stream emits 'error' *)
  | Stall (written : string).            (* the socket goes silent: the 30 s timeout fires *)

(** What a request to a URL meets. *)
Inductive exchange : Type :=
  | RequestError (err : string)          (* the request emits 'error' *)
  | NoResponse                           (* nothing within 30 s *)
  | Response (statusCode : Z) (location : option string) (body : transfer).

(** What becomes of a call of [downloadFile]: its promise is resolved or
    rejected, or an exception is thrown inside the response callback,
    where neither the promise nor the caller's [try] catches it: the
    process dies. *)
Inductive outcome : Type :=
  | Resolved
  | Rejected (message : string)
  | Thrown (message : string).

(** How a call of [downloadFile] ends: the outcome, the output directory
    at that moment, and whether [fs.unlink(destPath)] has been requested.
    The removal is carried out some time later. *)
Record ending : Type := Ending {
  how : outcome;
  directory : disk;
  unlinking : bool;
}.

Definition hasLocation (location : option string) : bool :=
  match location with
  | Some l => Js.truthy l
  | None => false
  end.

(** [transport.get(url, ...)] takes the URL when its protocol is the one
    of the module it belongs to, and throws [ERR_INVALID_PROTOCOL]
    otherwise; [https] is chosen for [https:] and [http] for every other
    protocol. *)
Definition supportedProtocol (protocol : string) : bool :=
  String.eqb protocol "https:" || String.eqb protocol "http:".

Definition unsupportedProtocol (protocol : string) : string :=
  "Protocol " +:+ Js.dquote +:+ protocol +:+ Js.dquote +:+ " not supported. Expected " +:+
  Js.dquote +:+ "http:" +:+ Js.dquote.

Section DownloadFile.
Context `{Platform} (net : string -> exchange) (urlString destPath : string).

Definition tooManyRedirects : string :=
  "Too many redirects (>" +:+ pretty MAX_REDIRECTS +:+ ") for URL: " +:+ urlString.

Definition timeoutMessage : string := "Timeout downloading " +:+ urlString.

(** [doRequest(url, redirectsLeft)].  The first call is made by the
    executor of the promise, which turns an exception into a rejection;
    the calls that follow a redirect are made [inCallback], by the
    response callback. *)
Fixpoint doRequest (inCallback : bool) (redirectsLeft : nat) (url : string) (files : disk)
  : ending :=
  match urlPathname url with
  | None => Ending (Rejected ("Invalid URL: " +:+ url)) files false
  | Some _ =>
      if negb (supportedProtocol (urlProtocol url)) then
        (* transport.get throws *)
        Ending ((if inCallback then Thrown else Rejected)
                  (unsupportedProtocol (urlProtocol url))) files false
      else
      match net url with
      | RequestError err => Ending (Rejected err) files false
      | NoResponse => Ending (Rejected timeoutMessage) files false
      | Response statusCode location body =>
          if (300 <=? statusCode)%Z && (statusCode <? 400)%Z && hasLocation location then
            match redirectsLeft with
            | O => Ending (Rejected tooManyRedirects) files false
            | S redirectsLeft' =>
                match urlResolve (default EmptyString location) url with
                | None => Ending (Thrown "Invalid URL") files false
                | Some redirectUrl => doRequest true redirectsLeft' redirectUrl files
                end
            end
          else if (statusCode <? 200)%Z || (300 <=? statusCode)%Z then
            Ending (Rejected ("HTTP " +:+ pretty statusCode +:+ " when downloading " +:+
                              urlString)) files false
          else
            match body with
            | Finish data => Ending Resolved (<[destPath := data]> files) false
            | WriteError written err =>
                (* fs.unlink(destPath, () => {}); reject(err) *)
                Ending (Rejected err) (<[destPath := written]> files) true
            | Stall written =>
                (* req.destroy(); reject(new Error(`Timeout ...`)) *)
                Ending (Rejected timeoutMessage) (<[destPath := written]> files) false
            end
      end
  end.

Definition downloadFile (files : disk) : ending :=
  doRequest false MAX_REDIRECTS urlString files.
End DownloadFile.

(** *** The downloader *)

Record stats : Type := Stats {
  downloaded : nat;
  skipped : nat;
  errors : list string;
}.

(** The variables of the loop over [urlMap] and the output directory, with
    the log of the calls to [downloadFile], the names [fs.unlink] was
    called for, and the exception that ended the process, if one did. *)
Record loopState : Type := LoopState {
  config : json;
  files : disk;
  reservedFilenames : gset string;
  loopStats : stats;
  fetches : list string;
  unlinks : gset string;
  uncaught : option string;
}.

(** [s.replace(/\\/g, '/')] *)
Fixpoint replaceBackslashes (s : string) : string :=
  match s with
  | EmptyString => EmptyString
  | String c rest =>
      String (if Nat.eqb (nat_of_ascii c) 92 then "/"%char else c) (replaceBackslashes rest)
  end.

(** [path.join(relativeAssetsDir, filename).replace(/\\/g, '/')] for the
    normalized relative directory that [path.relative] returns and a file
    name without directory part. *)
Definition localRefOf (relativeAssetsDir filename : string) : string :=
  replaceBackslashes
    (if Js.truthy relativeAssetsDir then relativeAssetsDir +:+ "/" +:+ filename
     else filename).

(** [for (const set of setters) set(value)] *)
Definition callSetters (setters : list path) (value : string) (config : json) : json :=
  fold_left (fun config set => assignAt set (JStr value) config) setters config.

Definition newline : string := String (ascii_of_nat 10) EmptyString.

Section DownloadAssets.
(** [removed url name]: the removal of the file [name], once requested,
    has been carried out when the turn of [url] comes.  [configName] is
    [path.basename(resolvedConfigPath)]. *)
Context `{Platform} (net : string -> exchange) (removed : string -> string -> bool)
        (relativeAssetsDir configName : string).

(** The output directory as the turn of [url] finds it.  The removals are
    requested for destination names of this run, which are reserved: the
    tests of [uniqueFilename] come out the same whether such a file is
    still there or not (see [uniqueFilename_settle]), so that it is
    enough to look at the directory once per turn. *)
Definition settle (url : string) (s : loopState) : disk :=
  filter (fun entry => ~ (entry.1 ∈ unlinks s /\ removed url entry.1 = true)) (files s).

(** One turn of [for (const [url, setters] of urlMap)]. *)
Definition processUrl (s : loopState) (item : string * list path) : loopState :=
  match uncaught s with
  | Some _ => s
  | None =>
  let '(url, setters) := item in
  let files0 := settle url s in
  let rawFilename := localFilenameFromUrl url in
  let filename := uniqueFilename files0 rawFilename (reservedFilenames s) in
  let reserved' := {[filename]} ∪ reservedFilenames s in
  let localRef := localRefOf relativeAssetsDir filename in
  if existsSync files0 rawFilename then
    let existingLocalRef := localRefOf relativeAssetsDir rawFilename in
    {| config := callSetters setters existingLocalRef (config s);
       files := files0;
       reservedFilenames := reserved';
       loopStats := {| downloaded := downloaded (loopStats s);
                       skipped := S (skipped (loopStats s));
                       errors := errors (loopStats s) |};
       fetches := fetches s;
       unlinks := unlinks s;
       uncaught := None |}
  else
    match downloadFile net url filename files0 with
    | Ending Resolved files' _ =>
        {| config := callSetters setters localRef (config s);
           files := files';
           reservedFilenames := reserved';
           loopStats := {| downloaded := S (downloaded (loopStats s));
                           skipped := skipped (loopStats s);
                           errors := errors (loopStats s) |};
           fetches := fetches s ++ [url];
           unlinks := unlinks s;
           uncaught := None |}
    | Ending (Rejected message) files' unlinking =>
        {| config := config s;
           files := files';
           reservedFilenames := reserved';
           loopStats := {| downloaded := downloaded (loopStats s);
                           skipped := skipped (loopStats s);
                           errors := errors (loopStats s) ++
                                     ["Failed to download " +:+ url +:+ ": " +:+ message] |};
           fetches := fetches s ++ [url];
           unlinks := if unlinking then {[filename]} ∪ unlinks s else unlinks s;
           uncaught := None |}
    | Ending (Thrown message) files' _ =>
        {| config := config s;
           files := files';
           reservedFilenames := reserved';
           loopStats := loopStats s;
           fetches := fetches s ++ [url];
           unlinks := unlinks s;
           uncaught := Some message |}
    end
  end.

(** The outcome of one run: the statistics it returns ([None] when an
    exception that nothing catches ends the process, and then [died] is
    its message), the configuration file and the output directory
    afterwards, the payload of every [writeFileSync] of the configuration
    file, the URLs handed to [downloadFile], in order, and the names
    [fs.unlink] was called for. *)
Record run : Type := Run {
  returned : option stats;
  configFile : json;
  configWrites : list json;
  assets : disk;
  fetched : list string;
  unlinkRequests : gset string;
  died : option string;
}.

(** The output directory after [writeFileSync(resolvedConfigPath, ...)]:
    the configuration file is one of its files when [path.relative]
    returned the empty string.  (It is then a file of the directory
    before the run too; the theorems that depend on that say so.) *)
Definition writeBack (config : json) (files : disk) : disk :=
  if Js.truthy relativeAssetsDir then files
  else <[configName := stringify config +:+ newline]> files.

(** [downloadAssets] from the point where the configuration file has been
    read and parsed into [configFile0] and the output directory can be
    created.  The file is modelled by the tree it serializes;
    [writeError] is the message of the exception [writeFileSync] throws,
    if it does, and the file is then as it was. *)
Definition downloadAssets (writeError : option string) (assets0 : disk)
    (configFile0 : json) : run :=
  let config0 := configFile0 in
  let entries := collectRemoteUrls config0 in
  match entries with
  | [] =>
      {| returned := Some (Stats 0 0 []);
         configFile := configFile0; configWrites := [];
         assets := assets0; fetched := [];
         unlinkRequests := ∅; died := None |}
  | _ :: _ =>
      let urlMap := deduplicateByUrl entries in
      let s := fold_left processUrl urlMap
                 (LoopState config0 assets0 ∅ (Stats 0 0 []) [] ∅ None) in
      match uncaught s with
      | Some message =>
          {| returned := None;
             configFile := configFile0; configWrites := [];
             assets := files s; fetched := fetches s;
             unlinkRequests := unlinks s; died := Some message |}
      | None =>
          match writeError with
          | None =>
              {| returned := Some (loopStats s);
                 configFile := config s; configWrites := [config s];
                 assets := writeBack (config s) (files s); fetched := fetches s;
                 unlinkRequests := unlinks s; died := None |}
          | Some message =>
              {| returned :=
                   Some {| downloaded := downloaded (loopStats s);
                           skipped := skipped (loopStats s);
                           errors := errors (loopStats s) ++
                                     ["Failed to write updated config: " +:+ message] |};
                 configFile := configFile0; configWrites := [config s];
                 assets := files s; fetched := fetches s;
                 unlinkRequests := unlinks s; died := None |}
          end
      end
  end.
End DownloadAssets.

(** *** Redirects and failures of [downloadFile] *)

Section DownloadFileFacts.
Context `{Platform} (net : string -> exchange) (urlString destPath : string).

(** A URL that [new URL] parses and that [transport.get] takes. *)
Definition requestable (url : string) : Prop :=
  is_Some (urlPathname url) /\ supportedProtocol (urlProtocol url) = true.

(** [url] answers with a redirect to the first of [hops], which answers
    with a redirect to the next one, and so on. *)
Fixpoint redirects (url : string) (hops : list string) : Prop :=
  match hops with
  | [] => True
  | next :: rest =>
      requestable url /\
      (exists statusCode location body,
          net url = Response statusCode (Some location) body /\
          (300 <= statusCode < 400)%Z /\
          Js.truthy location = true /\
          urlResolve location url = Some next) /\
      redirects next rest
  end.

(** The response that ends a chain: a 2xx whose body is written in full. *)
Definition delivers (url data : string) : Prop :=
  requestable url /\
  exists statusCode location,
    net url = Response statusCode location (Finish data) /\
    (200 <= statusCode < 300)%Z.

Lemma doRequest_requestable inCallback n url files :
  requestable url ->
  doRequest net urlString destPath inCallback n url files =
  match net url with
  | RequestError err => Ending (Rejected err) files false
  | NoResponse => Ending (Rejected (timeoutMessage urlString)) files false
  | Response statusCode location body =>
      if (300 <=? statusCode)%Z && (statusCode <? 400)%Z && hasLocation location then
        match n with
        | O => Ending (Rejected (tooManyRedirects urlString)) files false
        | S n' =>
            match urlResolve (default EmptyString location) url with
            | None => Ending (Thrown "Invalid URL") files false
            | Some redirectUrl => doRequest net urlString destPath true n' redirectUrl files
            end
        end
      else if (statusCode <? 200)%Z || (300 <=? statusCode)%Z then
        Ending (Rejected ("HTTP " +:+ pretty statusCode +:+ " when downloading " +:+
                          urlString)) files false
      else
        match body with
        | Finish data => Ending Resolved (<[destPath := data]> files) false
        | WriteError written err => Ending (Rejected err) (<[destPath := written]> files) true
        | Stall written =>
            Ending (Rejected (timeoutMessage urlString)) (<[destPath := written]> files) false
        end
  end.
Proof.
  intros [[pn Hp] Hproto]. destruct n; cbn [doRequest]; by rewrite Hp, Hproto.
Qed.

Lemma doRequest_redirect inCallback n url next rest files :
  redirects url (next :: rest) ->
  doRequest net urlString destPath inCallback n url files =
  match n with
  | O => Ending (Rejected (tooManyRedirects urlString)) files false
  | S n' => doRequest net urlString destPath true n' next files
  end.
Proof.
  intros [Hreq [(st & loc & body & Hnet & Hst & Hloc & Hres) _]].
  rewrite (doRequest_requestable _ _ _ _ Hreq), Hnet. cbn [hasLocation]. rewrite Hloc.
  replace (300 <=? st)%Z with true by (symmetry; apply Z.leb_le; lia).
  replace (st <? 400)%Z with true by (symmetry; apply Z.ltb_lt; lia).
  cbn [andb]. change (default EmptyString (Some loc)) with loc. by rewrite Hres.
Qed.

Lemma doRequest_follow inCallback n url hops data files :
  length hops <= n ->
  redirects url hops ->
  delivers (List.last hops url) data ->
  doRequest net urlString destPath inCallback n url files =
  Ending Resolved (<[destPath := data]> files) false.
Proof.
  revert inCallback n url. induction hops as [|next rest IH]; intros inCallback n url Hlen Hred Hfin.
  - simpl in Hfin. destruct Hfin as [Hreq (st & loc & Hnet & Hst)].
    assert (Hno : (300 <=? st)%Z = false) by (apply Z.leb_gt; lia).
    assert (Hlo : (st <? 200)%Z = false) by (apply Z.ltb_ge; lia).
    by rewrite (doRequest_requestable _ _ _ _ Hreq), Hnet, Hno, Hlo.
  - rewrite (doRequest_redirect inCallback n url next rest files Hred).
    destruct n as [|n']; [simpl in Hlen; lia|].
    apply IH.
    + simpl in Hlen. lia.
    + by destruct Hred as (_ & _ & Hrest).
    + assert (Hlast : forall (l : list string) x d d',
                List.last (x :: l) d = List.last (x :: l) d').
      { induction l as [|y l IHl]; intros x d d'; [done|].
        change (List.last (y :: l) d = List.last (y :: l) d'). apply IHl. }
      destruct rest as [|s rest]; [exact Hfin|].
      rewrite (Hlast rest s next url). exact Hfin.
Qed.

Lemma doRequest_too_many inCallback n url hops files :
  n < length hops ->
  redirects url hops ->
  doRequest net urlString destPath inCallback n url files =
  Ending (Rejected (tooManyRedirects urlString)) files false.
Proof.
  revert inCallback url hops. induction n as [|n IH]; intros inCallback url hops Hlen Hred.
  - destruct hops as [|next rest]; [simpl in Hlen; lia|].
    by rewrite (doRequest_redirect inCallback 0 url next rest files Hred).
  - destruct hops as [|next rest]; [simpl in Hlen; lia|].
    rewrite (doRequest_redirect inCallback (S n) url next rest files Hred).
    apply (IH true next rest); [simpl in Hlen; lia|].
    by destruct Hred as (_ & _ & Hrest).
Qed.

(** C4. [downloadFile] follows 3xx redirects, resolving each Location
    header against the URL that sent it.  When the chain has at most 5
    redirects and ends in a 2xx response, the promise resolves and the
    destination file holds the final body; when the chain has 6 redirects
    or more, the promise is rejected with the "Too many redirects" error
    and the output directory is unchanged: no file is written.  The URLs
    of the chain are ones that [new URL] parses and [http] or [https]
    takes. *)
Theorem downloadFile_redirect_limit (hops : list string) (files : disk) :
  redirects urlString hops ->
  (length hops <= 5 ->
   forall data, delivers (List.last hops urlString) data ->
     downloadFile net urlString destPath files =
     Ending Resolved (<[destPath := data]> files) false) /\
  (6 <= length hops ->
   downloadFile net urlString destPath files =
   Ending (Rejected ("Too many redirects (>5) for URL: " +:+ urlString)) files false).
Proof.
  intros Hred. split.
  - intros Hlen data Hfin. by apply (doRequest_follow false 5 urlString hops).
  - intros Hlen. apply (doRequest_too_many false 5 urlString hops); [lia|done].
Qed.

(** A write-stream error asks for the removal of the partial file and
    rejects the promise at once: the file is still there at that moment. *)
Lemma downloadFile_write_error statusCode location written err files :
  requestable urlString ->
  net urlString = Response statusCode location (WriteError written err) ->
  (200 <= statusCode < 300)%Z ->
  downloadFile net urlString destPath files =
  Ending (Rejected err) (<[destPath := written]> files) true.
Proof.
  intros Hreq Hnet Hst.
  assert (Hno : (300 <=? statusCode)%Z = false) by (apply Z.leb_gt; lia).
  assert (Hlo : (statusCode <? 200)%Z = false) by (apply Z.ltb_ge; lia).
  unfold downloadFile. by rewrite (doRequest_requestable _ _ _ _ Hreq), Hnet, Hno, Hlo.
Qed.

(** C5 (the code departs from the claim).  When a 2xx response stalls
    after part of the body has reached the destination file and the
    30-second timeout fires, the promise is rejected with the timeout
    error, the partial file is still in the output directory and no
    removal has been requested for it: the timeout handler destroys the
    request and rejects, it does not unlink the file as the write-stream
    error handler does. *)
Theorem downloadFile_timeout_keeps_partial_file statusCode location written files :
  requestable urlString ->
  net urlString = Response statusCode location (Stall written) ->
  (200 <= statusCode < 300)%Z ->
  downloadFile net urlString destPath files =
    Ending (Rejected ("Timeout downloading " +:+ urlString))
           (<[destPath := written]> files) false /\
  (<[destPath := written]> files : disk) !! destPath = Some written.
Proof.
  intros Hreq Hnet Hst.
  assert (Hno : (300 <=? statusCode)%Z = false) by (apply Z.leb_gt; lia).
  assert (Hlo : (statusCode <? 200)%Z = false) by (apply Z.ltb_ge; lia).
  unfold downloadFile. rewrite (doRequest_requestable _ _ _ _ Hreq), Hnet, Hno, Hlo.
  split; [done|]. apply lookup_insert_eq.
Qed.
End DownloadFileFacts.

(** *** What [downloadFile] does to the directory *)

Lemma doRequest_frame `{Platform} (net : string -> exchange) (urlString destPath : string)
    (n : nat) : forall inCallback url files,
  (forall name, name <> destPath ->
     directory (doRequest net urlString destPath inCallback n url files) !! name =
     files !! name) /\
  (how (doRequest net urlString destPath inCallback n url files) = Resolved ->
   is_Some (directory (doRequest net urlString destPath inCallback n url files) !! destPath)) /\
  (unlinking (doRequest net urlString destPath inCallback n url files) = true ->
   exists message,
     how (doRequest net urlString destPath inCallback n url files) = Rejected message) /\
  (forall message,
     how (doRequest net urlString destPath inCallback n url files) = Thrown message ->
     directory (doRequest net urlString destPath inCallback n url files) = files).
Proof.
  assert (Hplain : forall (o : outcome) (files : disk),
            o <> Resolved ->
            (forall name, name <> destPath ->
               directory (Ending o files false) !! name = files !! name) /\
            (how (Ending o files false) = Resolved ->
             is_Some (directory (Ending o files false) !! destPath)) /\
            (unlinking (Ending o files false) = true ->
             exists message, how (Ending o files false) = Rejected message) /\
            (forall message, how (Ending o files false) = Thrown message ->
               directory (Ending o files false) = files)).
  { intros o files Ho. cbn. split; [done|]. split; [done|]. split; done. }
  assert (Hbody : forall (body : transfer) (files : disk),
            let e := match body with
                     | Finish data => Ending Resolved (<[destPath := data]> files) false
                     | WriteError written err =>
                         Ending (Rejected err) (<[destPath := written]> files) true
                     | Stall written =>
                         Ending (Rejected (timeoutMessage urlString))
                                (<[destPath := written]> files) false
                     end in
            (forall name, name <> destPath -> directory e !! name = files !! name) /\
            (how e = Resolved -> is_Some (directory e !! destPath)) /\
            (unlinking e = true -> exists message, how e = Rejected message) /\
            (forall message, how e = Thrown message -> directory e = files)).
  { intros [data|written err|written] files; cbn [how directory unlinking];
      (split; [intros name Hne; by rewrite lookup_insert_ne|]);
      (split; [intros _; by rewrite lookup_insert_eq|]);
      (split; [intros Hu; try done; by eexists|done]). }
  induction n as [|n IH]; intros inCallback url files; cbn [doRequest];
    (destruct (urlPathname url); [|by apply Hplain]);
    (destruct (negb (supportedProtocol (urlProtocol url)));
     [apply Hplain; by destruct inCallback|]);
    (destruct (net url) as [err| |statusCode location body]; [by apply Hplain..|]);
    (destruct (_ && hasLocation location);
     [first [by apply Hplain
            |destruct (urlResolve (default EmptyString location) url);
             [apply IH|by apply Hplain]]|]);
    (destruct (_ || _); [by apply Hplain|]); apply Hbody.
Qed.

(** Whether the promise resolves does not depend on the directory. *)
Lemma doRequest_how `{Platform} (net : string -> exchange) (urlString destPath : string)
    (n : nat) : forall inCallback url files1 files2,
  how (doRequest net urlString destPath inCallback n url files1) =
  how (doRequest net urlString destPath inCallback n url files2).
Proof.
  induction n as [|n IH]; intros inCallback url files1 files2; cbn [doRequest];
    (destruct (urlPathname url); [|done]);
    (destruct (negb (supportedProtocol (urlProtocol url))); [done|]);
    (destruct (net url) as [err| |statusCode location body]; [done..|]);
    (destruct (_ && hasLocation location);
     [first [done
            |destruct (urlResolve (default EmptyString location) url); [apply IH|done]]|]);
    (destruct (_ || _); [done|]); by destruct body.
Qed.

(** X6. [downloadFile] touches no file but its destination: every other
    file of the directory is there afterwards with the content it had,
    however the request ends; and when the promise resolves the
    destination file exists. *)
Theorem downloadFile_only_destPath `{Platform} (net : string -> exchange)
    (urlString destPath : string) (files : disk) :
  (forall name, name <> destPath ->
     directory (downloadFile net urlString destPath files) !! name = files !! name) /\
  (how (downloadFile net urlString destPath files) = Resolved ->
   is_Some (directory (downloadFile net urlString destPath files) !! destPath)).
Proof.
  destruct (doRequest_frame net urlString destPath MAX_REDIRECTS false urlString files)
    as (Hframe & Hdest & _).
  by split.
Qed.

(** X7. A first response that is not a redirect with a [Location] header
    and whose status is outside 200..299 (so also a 3xx without
    [Location]) rejects with the HTTP status in the message, and nothing
    is written. *)
Theorem downloadFile_http_error `{Platform} (net : string -> exchange)
    (urlString destPath : string) (statusCode : Z) (location : option string)
    (body : transfer) (files : disk) :
  requestable urlString ->
  net urlString = Response statusCode location body ->
  (statusCode < 200 \/ 400 <= statusCode \/
   (300 <= statusCode /\ hasLocation location = false))%Z ->
  downloadFile net urlString destPath files =
    Ending (Rejected ("HTTP " +:+ pretty statusCode +:+ " when downloading " +:+ urlString))
           files false.
Proof.
  intros Hreq Hnet Hstatus. unfold downloadFile, MAX_REDIRECTS.
  rewrite (doRequest_requestable _ _ _ _ _ _ _ Hreq), Hnet.
  destruct (Z.leb_spec 300 statusCode), (Z.ltb_spec statusCode 400),
    (Z.ltb_spec statusCode 200), (hasLocation location) eqn:El;
    cbn [andb orb]; try done; lia.
Qed.

(** *** The walk finds the remote string slots *)

(** The entry [e] names a slot at or below the value [val] stored at the
    path [q]. *)
Definition fromSlot (e : entry) (q : path) (val : json) : Prop :=
  exists p, set e = q ++ p /\ getAt p val = Some (JStr (url e)) /\
            isRemoteUrl (url e) = true.

(** What [collectRemoteUrls] adds to its accumulator: one entry for every
    slot of a container below [t] that holds a remote URL. *)
Definition walkSpec (t : json) : Prop :=
  forall here acc e,
    e ∈ collectRemoteUrls_at here t acc <->
    e ∈ acc \/
    exists p, p <> [] /\ set e = here ++ p /\ getAt p t = Some (JStr (url e)) /\
              isRemoteUrl (url e) = true.

Lemma visit_spec here s val acc e :
  walkSpec val ->
  e ∈ visit collectRemoteUrls_at here s val acc <-> e ∈ acc \/ fromSlot e (here ++ [s]) val.
Proof.
  intros Hval. unfold fromSlot.
  destruct val as [|b|q|v|items|fields]; cbn [visit].
  1-3: split; [by left|]; intros [?|(p & _ & Hg & _)]; [done|];
       by destruct p as [|[]].
  - destruct (isRemoteUrl v) eqn:Ev.
    + rewrite elem_of_app, list_elem_of_singleton. apply or_iff_compat_l.
      split.
      * intros ->. exists []. cbn. by rewrite app_nil_r.
      * intros (p & Hs & Hg & _). apply getAt_str_nil in Hg as [-> [= Hv]].
        destruct e as [u st]; cbn in *. rewrite app_nil_r in Hs. by subst.
    + split; [by left|]. intros [?|(p & _ & Hg & Hr)]; [done|].
      apply getAt_str_nil in Hg as [-> [= Hv]]. congruence.
  - rewrite (Hval (here ++ [s]) acc e). apply or_iff_compat_l. split.
    + intros (p & _ & ? & ? & ?). by exists p.
    + intros (p & ? & Hg & ?). exists p. split; [|done]. by intros ->.
  - rewrite (Hval (here ++ [s]) acc e). apply or_iff_compat_l. split.
    + intros (p & _ & ? & ? & ?). by exists p.
    + intros (p & ? & Hg & ?). exists p. split; [|done]. by intros ->.
Qed.

Lemma forIndex_visit_spec here e items : forall i acc,
  Forall walkSpec items ->
  e ∈ Js.forIndex (fun i val results => visit collectRemoteUrls_at here (Idx i) val results)
        i items acc <->
  e ∈ acc \/ exists j val, items !! j = Some val /\ fromSlot e (here ++ [Idx (i + j)]) val.
Proof.
  induction items as [|x items IH]; intros i acc Hall; cbn [Js.forIndex].
  - split; [by left|]. by intros [?|(j & val & ? & _)].
  - inversion Hall as [|? ? Hx Hrest]; subst.
    rewrite (IH (S i) _ Hrest), (visit_spec here (Idx i) x acc e Hx).
    split.
    + intros [[?|Hs]|(j & val & Hj & Hs)].
      * by left.
      * right. exists 0, x. by rewrite Nat.add_0_r.
      * right. exists (S j), val. split; [done|].
        by replace (i + S j) with (S i + j) by lia.
    + intros [?|(j & val & Hj & Hs)]; [by left; left|].
      destruct j as [|j]; cbn in Hj.
      * injection Hj as <-. left; right. by rewrite Nat.add_0_r in Hs.
      * right. exists j, val. split; [done|].
        by replace (S i + j) with (i + S j) by lia.
Qed.

Lemma fold_visit_spec here e fields : forall acc,
  Forall (fun kv => walkSpec (snd kv)) fields ->
  e ∈ fold_left (fun results kv =>
                   match kv with
                   | (key, val) => visit collectRemoteUrls_at here (Key key) val results
                   end) fields acc <->
  e ∈ acc \/ exists k val, (k, val) ∈ fields /\ fromSlot e (here ++ [Key k]) val.
Proof.
  induction fields as [|[k x] fields IH]; intros acc Hall; cbn [fold_left].
  - split; [by left|]. intros [?|(j & val & Hin & _)]; [done|].
    by apply elem_of_nil in Hin.
  - inversion Hall as [|? ? Hx Hrest]; subst. cbn in Hx.
    rewrite (IH _ Hrest), (visit_spec here (Key k) x acc e Hx).
    split.
    + intros [[?|Hs]|(k' & val & Hin & Hs)].
      * by left.
      * right. exists k, x. split; [left|done].
      * right. exists k', val. split; [by right|done].
    + intros [?|(k' & val & Hin & Hs)]; [by left; left|].
      apply elem_of_cons in Hin as [[= -> ->]|Hin].
      * by left; right.
      * right. by exists k', val.
Qed.

Lemma collectRemoteUrls_at_spec t : wf t -> walkSpec t.
Proof.
  induction t as [|b|q|v|items IH|fields IH] using json_ind; intros Hwf here acc e;
    cbn [collectRemoteUrls_at].
  1-4: split; [by left|]; intros [?|(p & Hp & _ & Hg & _)]; [done|];
       by destruct p as [|[]].
  - apply wf_arr in Hwf.
    assert (Hall : Forall walkSpec items).
    { rewrite Forall_forall in IH, Hwf |- *. intros x Hx.
      apply IH; [done|]. by apply Hwf. }
    rewrite (forIndex_visit_spec here e items 0 acc Hall).
    apply or_iff_compat_l. unfold fromSlot. split.
    + intros (j & val & Hj & p & Hs & Hg & Hr). exists (Idx j :: p).
      split; [done|]. split; [by rewrite Hs, <- app_assoc|].
      split; [|done]. cbn. by rewrite Hj.
    + intros (p & Hp & Hs & Hg & Hr).
      destruct p as [|[j|k] p]; [done| |done]. cbn in Hg.
      destruct (items !! j) as [val|] eqn:Hj; [|done].
      exists j, val. split; [done|]. exists p.
      split; [by rewrite Hs, <- app_assoc|]. done.
  - apply wf_obj in Hwf as [Hnd Hwf].
    assert (Hall : Forall (fun kv => walkSpec (snd kv)) fields).
    { rewrite Forall_forall in IH, Hwf |- *. intros x Hx.
      apply IH; [done|]. by apply Hwf. }
    rewrite (fold_visit_spec here e fields acc Hall).
    apply or_iff_compat_l. unfold fromSlot. split.
    + intros (k & val & Hin & p & Hs & Hg & Hr). exists (Key k :: p).
      split; [done|]. split; [by rewrite Hs, <- app_assoc|].
      split; [|done]. cbn. by rewrite (elem_field k fields val Hnd Hin).
    + intros (p & Hp & Hs & Hg & Hr).
      destruct p as [|[j|k] p]; [done|done|]. cbn in Hg.
      destruct (field k fields) as [val|] eqn:Hk; [|done].
      exists k, val. split; [by apply field_elem|]. exists p.
      split; [by rewrite Hs, <- app_assoc|]. done.
Qed.

(** The collected entries are exactly the slots that hold a remote URL. *)
Lemma collectRemoteUrls_spec t e :
  wf t ->
  e ∈ collectRemoteUrls t <->
  set e <> [] /\ getAt (set e) t = Some (JStr (url e)) /\ isRemoteUrl (url e) = true.
Proof.
  intros Hwf. unfold collectRemoteUrls.
  rewrite (collectRemoteUrls_at_spec t Hwf [] [] e). split.
  - intros [Hin|(p & Hp & Hs & Hg & Hr)]; [by apply elem_of_nil in Hin|].
    cbn in Hs. by subst p.
  - intros (Hp & Hg & Hr). right. by exists (set e).
Qed.

(** *** Groups of [deduplicateByUrl] *)

(** The setter [s] is in the group of the URL [u]. *)
Definition inGroup (m : list (string * list path)) (u : string) (s : path) : Prop :=
  exists ss, (u, ss) ∈ m /\ s ∈ ss.

Lemma mapPush_inGroup u s m u' s' :
  inGroup (mapPush u s m) u' s' <-> inGroup m u' s' \/ (u' = u /\ s' = s).
Proof.
  unfold inGroup. induction m as [|[u0 ss0] m IH]; cbn [mapPush].
  - split.
    + intros (ss & Hin & Hs). apply list_elem_of_singleton in Hin as [= -> ->].
      apply list_elem_of_singleton in Hs. by right.
    + intros [(ss & Hin & _)|[-> ->]]; [by apply elem_of_nil in Hin|].
      exists [s]. split; apply list_elem_of_singleton; done.
  - destruct (String.eqb u0 u) eqn:E.
    + apply String.eqb_eq in E as ->. split.
      * intros (ss & Hin & Hs). apply elem_of_cons in Hin as [[= -> ->]|Hin].
        -- apply elem_of_app in Hs as [Hs|Hs].
           ++ left. exists ss0. split; [left|done].
           ++ apply list_elem_of_singleton in Hs. by right.
        -- left. exists ss. split; [by right|done].
      * intros [(ss & Hin & Hs)|[-> ->]].
        -- apply elem_of_cons in Hin as [[= -> ->]|Hin].
           ++ exists (ss0 ++ [s]). split; [left|]. apply elem_of_app. by left.
           ++ exists ss. split; [by right|done].
        -- exists (ss0 ++ [s]). split; [left|]. apply elem_of_app. right.
           by apply list_elem_of_singleton.
    + split.
      * intros (ss & Hin & Hs). apply elem_of_cons in Hin as [[= -> ->]|Hin].
        -- left. exists ss0. split; [left|done].
        -- destruct (proj1 IH) as [(ss1 & Hin1 & Hs1)|Heq]; [by exists ss| |by right].
           left. exists ss1. split; [by right|done].
      * intros [(ss & Hin & Hs)|Heq].
        -- apply elem_of_cons in Hin as [[= -> ->]|Hin].
           ++ exists ss0. split; [left|done].
           ++ destruct (proj2 IH) as (ss1 & Hin1 & Hs1); [left; by exists ss|].
              exists ss1. split; [by right|done].
        -- destruct (proj2 IH) as (ss1 & Hin1 & Hs1); [by right|].
           exists ss1. split; [by right|done].
Qed.

Lemma mapPush_keys u s m :
  map fst (mapPush u s m) = if bool_decide (u ∈ map fst m) then map fst m
                            else map fst m ++ [u].
Proof.
  induction m as [|[u0 ss0] m IH]; cbn [mapPush map fst]; [done|].
  destruct (String.eqb u0 u) eqn:E.
  - apply String.eqb_eq in E as ->. rewrite bool_decide_eq_true_2; [done|left].
  - apply String.eqb_neq in E. cbn [map fst]. rewrite IH.
    destruct (bool_decide (u ∈ map fst m)) eqn:Eb.
    + apply bool_decide_eq_true in Eb. rewrite bool_decide_eq_true_2; [done|by right].
    + apply bool_decide_eq_false in Eb. rewrite bool_decide_eq_false_2; [done|].
      intros Hin. apply elem_of_cons in Hin as [?|?]; congruence.
Qed.

Lemma mapPush_NoDup u s m : NoDup (map fst m) -> NoDup (map fst (mapPush u s m)).
Proof.
  intros Hnd. rewrite mapPush_keys. case_bool_decide as Hin; [done|].
  apply NoDup_app. split; [done|]. split; [|apply NoDup_singleton].
  intros x Hx Hx'. apply list_elem_of_singleton in Hx'. by subst.
Qed.

Lemma deduplicateByUrl_fold entries : forall m,
  NoDup (map fst m) ->
  NoDup (map fst (fold_left (fun m e => mapPush (url e) (set e) m) entries m)) /\
  forall u s,
    inGroup (fold_left (fun m e => mapPush (url e) (set e) m) entries m) u s <->
    inGroup m u s \/ Entry u s ∈ entries.
Proof.
  induction entries as [|[u0 s0] entries IH]; intros m Hnd; cbn [fold_left].
  - split; [done|]. intros u s. split; [by left|].
    intros [?|Hin]; [done|by apply elem_of_nil in Hin].
  - destruct (IH (mapPush u0 s0 m) (mapPush_NoDup u0 s0 m Hnd)) as [Hnd' Hiff].
    split; [done|]. intros u s. rewrite Hiff, mapPush_inGroup. cbn [url set].
    rewrite elem_of_cons. split.
    + intros [[?|[-> ->]]|?]; [by left|right; by left|right; by right].
    + intros [?|[[= -> ->]|?]]; [left; by left|left; by right|by right].
Qed.

(** The groups have distinct URLs, and the group of a URL holds the
    setter of every entry with that URL and no other. *)
Lemma deduplicateByUrl_spec entries :
  NoDup (map fst (deduplicateByUrl entries)) /\
  forall u ss, (u, ss) ∈ deduplicateByUrl entries ->
               forall s, s ∈ ss <-> Entry u s ∈ entries.
Proof.
  destruct (deduplicateByUrl_fold entries [] (NoDup_nil_2)) as [Hnd Hiff].
  split; [done|]. intros u ss Hin s.
  fold (deduplicateByUrl entries) in Hiff, Hnd. split.
  - intros Hs. destruct (proj1 (Hiff u s)) as [(ss' & Hin' & _)|?]; [by exists ss| |done].
    by apply elem_of_nil in Hin'.
  - intros He. destruct (proj2 (Hiff u s)) as (ss' & Hin' & Hs'); [by right|].
    assert (ss' = ss) as ->; [|done].
    clear -Hnd Hin Hin'. induction (deduplicateByUrl entries) as [|[u0 ss0] m IH].
    + by apply elem_of_nil in Hin.
    + cbn in Hnd. apply NoDup_cons in Hnd as [Hu0 Hnd].
      apply elem_of_cons in Hin as [Heq|Hin];
        apply elem_of_cons in Hin' as [Heq'|Hin']; simplify_eq.
      * done.
      * exfalso. apply Hu0. apply list_elem_of_fmap. by exists (u0, ss').
      * exfalso. apply Hu0. apply list_elem_of_fmap. by exists (u0, ss).
      * by apply IH.
Qed.

Lemma deduplicateByUrl_covers entries e :
  e ∈ entries -> exists ss, (url e, ss) ∈ deduplicateByUrl entries.
Proof.
  intros He. destruct (deduplicateByUrl_fold entries [] (NoDup_nil_2)) as [_ Hiff].
  destruct (proj2 (Hiff (url e) (set e))) as (ss & Hin & _); [|by exists ss].
  right. by destruct e.
Qed.

(** *** Calling the setters of a group *)

Lemma callSetters_getAt ss v : forall c,
  (forall s, s ∈ ss -> exists b, getAt s c = Some (JStr b)) ->
  forall p a,
    getAt p (callSetters ss v c) = Some (JStr a) <->
    (if decide (p ∈ ss) then a = v else getAt p c = Some (JStr a)).
Proof.
  unfold callSetters.
  induction ss as [|q ss IH]; intros c Hstr p a; cbn [fold_left].
  - rewrite decide_False; [done|]. apply not_elem_of_nil.
  - destruct (Hstr q) as [b Hq]; [left|].
    assert (Hstr' : forall s, s ∈ ss ->
              exists b', getAt s (assignAt q (JStr v) c) = Some (JStr b')).
    { intros s Hs. destruct (Hstr s) as [b' Hb']; [by right|].
      destruct (decide (s = q)) as [->|Hne].
      - exists v. apply (getAt_assignAt q c b v q v Hq). by rewrite decide_True.
      - exists b'. apply (getAt_assignAt q c b v s b' Hq). by rewrite decide_False. }
    rewrite (IH _ Hstr' p a).
    destruct (decide (p ∈ ss)) as [Hin|Hnin].
    + rewrite decide_True; [done|by right].
    + rewrite (getAt_assignAt q c b v p a Hq).
      destruct (decide (p = q)) as [->|Hne].
      * rewrite decide_True; [done|left].
      * rewrite decide_False; [done|]. intros Hin.
        apply elem_of_cons in Hin as [?|?]; done.
Qed.

Lemma callSetters_wf ss v : forall c, wf c -> wf (callSetters ss v c).
Proof.
  unfold callSetters. induction ss as [|q ss IH]; intros c Hwf; cbn [fold_left]; [done|].
  apply IH. by apply wf_assignAt.
Qed.

Lemma skeleton_callSetters ss v : forall c,
  (forall s, s ∈ ss -> exists b, getAt s c = Some (JStr b)) ->
  skeleton (callSetters ss v c) = skeleton c.
Proof.
  unfold callSetters.
  induction ss as [|q ss IH]; intros c Hstr; cbn [fold_left]; [done|].
  destruct (Hstr q) as [b Hq]; [left|].
  rewrite IH; [by apply (skeleton_assignAt q c b v)|].
  intros s Hs. destruct (Hstr s) as [b' Hb']; [by right|].
  destruct (decide (s = q)) as [->|Hne].
  - exists v. apply (getAt_assignAt q c b v q v Hq). by rewrite decide_True.
  - exists b'. apply (getAt_assignAt q c b v s b' Hq). by rewrite decide_False.
Qed.

(** *** The file names the downloader produces *)

(** Every character of the name is in [[a-zA-Z0-9._-]]. *)
Fixpoint allSafe (s : string) : bool :=
  match s with
  | EmptyString => true
  | String c rest => isSafeChar c && allSafe rest
  end.

Lemma allSafe_app a b : allSafe (a +:+ b) = allSafe a && allSafe b.
Proof.
  induction a as [|c a IH]; [done|].
  change (isSafeChar c && allSafe (a +:+ b) = isSafeChar c && allSafe a && allSafe b).
  by rewrite IH, andb_assoc.
Qed.

Lemma allSafe_replaceUnsafe s : allSafe (replaceUnsafe s) = true.
Proof.
  induction s as [|c s IH]; [done|]. cbn [replaceUnsafe allSafe].
  rewrite IH, andb_true_r. by destruct (isSafeChar c) eqn:E.
Qed.

Lemma allSafe_stripLeadingDots s : allSafe s = true -> allSafe (stripLeadingDots s) = true.
Proof.
  induction s as [|c s IH]; [done|]. cbn [stripLeadingDots].
  destruct (Ascii.eqb c "."); [|done].
  cbn [allSafe]. intros [_ Hs]%andb_true_iff. auto.
Qed.

Lemma allSafe_dropString n : forall s, allSafe s = true -> allSafe (dropString n s) = true.
Proof.
  induction n as [|n IH]; intros [|c s]; cbn [dropString]; try done.
  cbn [allSafe]. intros [_ Hs]%andb_true_iff. auto.
Qed.

Lemma allSafe_takeString n : forall s, allSafe s = true -> allSafe (takeString n s) = true.
Proof.
  induction n as [|n IH]; intros [|c s]; cbn [takeString]; try done.
  cbn [allSafe]. intros [Hc Hs]%andb_true_iff. rewrite Hc. cbn. auto.
Qed.

Lemma isSafeChar_digit36 z : isSafeChar (digit36 (z mod 36)) = true.
Proof.
  pose proof (Z.mod_pos_bound z 36 eq_refl) as Hd.
  assert (exists n, n < 36 /\ (z mod 36)%Z = Z.of_nat n) as (n & Hn & ->).
  { exists (Z.to_nat (z mod 36)). lia. }
  do 36 (destruct n as [|n]; [reflexivity|]). lia.
Qed.

Lemma allSafe_toString36_go fuel : forall z acc,
  allSafe acc = true -> allSafe (toString36_go fuel z acc) = true.
Proof.
  induction fuel as [|fuel IH]; intros z acc Hacc; cbn [toString36_go]; [done|].
  assert (Hacc' : allSafe (String (digit36 (z mod 36)) acc) = true).
  { cbn [allSafe]. by rewrite isSafeChar_digit36, Hacc. }
  destruct (z / 36 =? 0)%Z; [done|]. by apply IH.
Qed.

Lemma allSafe_simpleHash u : allSafe ("asset_" +:+ simpleHash u) = true.
Proof.
  rewrite allSafe_app. unfold simpleHash, toString36.
  by rewrite allSafe_toString36_go.
Qed.

Lemma allSafe_pretty_N_go x : forall s, allSafe s = true -> allSafe (pretty_N_go x s) = true.
Proof.
  induction (N.lt_wf_0 x) as [x _ IH]; intros s Hs.
  assert (x = 0 \/ 0 < x)%N as [->|Hx] by lia.
  - by rewrite pretty_N_go_0.
  - rewrite pretty_N_go_step by done. apply IH.
    { by apply N.div_lt. }
    cbn [allSafe]. rewrite Hs, andb_true_r.
    unfold pretty_N_char. by repeat case_match.
Qed.

Lemma allSafe_pretty (n : nat) : allSafe (pretty n) = true.
Proof.
  unfold pretty, pretty_nat, pretty, pretty_N.
  case_decide; [done|]. by apply allSafe_pretty_N_go.
Qed.

Lemma allSafe_localFilenameFromUrl `{Platform} u : allSafe (localFilenameFromUrl u) = true.
Proof.
  unfold localFilenameFromUrl.
  destruct (urlPathname u) as [pathname|]; [|apply allSafe_simpleHash].
  match goal with |- context [Js.truthy ?f] => destruct (Js.truthy f) end.
  - apply allSafe_stripLeadingDots, allSafe_replaceUnsafe.
  - apply allSafe_simpleHash.
Qed.

Lemma allSafe_candidateName filename k :
  allSafe filename = true ->
  allSafe (candidateName (basenameNoExt filename) (extname filename) k) = true.
Proof.
  intros Hf. unfold candidateName, basenameNoExt, extname.
  rewrite !allSafe_app, allSafe_pretty.
  destruct (extStart filename) as [i|].
  - by rewrite allSafe_takeString, allSafe_dropString.
  - by rewrite Hf.
Qed.

Lemma allSafe_uniqueFilename files filename reserved :
  allSafe filename = true -> allSafe (uniqueFilename files filename reserved) = true.
Proof.
  intros Hf. destruct (uniqueFilename_spec files filename reserved) as (_ & Hfree & Hbusy).
  destruct (taken files reserved filename).
  - destruct Hbusy as (k & _ & -> & _); [done|]. by apply allSafe_candidateName.
  - by rewrite Hfree.
Qed.

(** *** One turn of the loop *)

Section LoopFacts.
Context `{Platform} (net : string -> exchange) (removed : string -> string -> bool)
        (relativeAssetsDir : string).

(** The local path the setters of [u] are called with when the turn of [u]
    starts in state [s]; [None] when no setter is called: the download
    fails, or the process is dead or dies. *)
Definition resolution (s : loopState) (u : string) : option string :=
  match uncaught s with
  | Some _ => None
  | None =>
      let files0 := settle removed u s in
      let rawFilename := localFilenameFromUrl u in
      let filename := uniqueFilename files0 rawFilename (reservedFilenames s) in
      if existsSync files0 rawFilename then Some (localRefOf relativeAssetsDir rawFilename)
      else match how (downloadFile net u filename files0) with
           | Resolved => Some (localRefOf relativeAssetsDir filename)
           | _ => None
           end
  end.

(** The calls to [downloadFile] during the turn of [u]. *)
Definition fetchesOf (s : loopState) (u : string) : list string :=
  match uncaught s with
  | Some _ => []
  | None => if existsSync (settle removed u s) (localFilenameFromUrl u) then [] else [u]
  end.

Abbreviation step := (processUrl net removed relativeAssetsDir).
Abbreviation loop := (fold_left (processUrl net removed relativeAssetsDir)).

Definition settled (s : loopState) : nat :=
  downloaded (loopStats s) + skipped (loopStats s).

(** Once the process is dead nothing happens any more. *)
Lemma processUrl_dead s g : is_Some (uncaught s) -> step s g = s.
Proof. intros [m Hm]. unfold processUrl. by rewrite Hm. Qed.

Lemma loop_dead items : forall s, is_Some (uncaught s) -> loop items s = s.
Proof.
  induction items as [|g items IH]; intros s Hs; cbn [fold_left]; [done|].
  rewrite (processUrl_dead s g Hs). by apply IH.
Qed.

Lemma processUrl_alive s g : uncaught (step s g) = None -> uncaught s = None.
Proof.
  intros Hnone. destruct (uncaught s) as [m|] eqn:Hm; [|done].
  rewrite processUrl_dead in Hnone by (by rewrite Hm). congruence.
Qed.

Lemma loop_alive items : forall s, uncaught (loop items s) = None -> uncaught s = None.
Proof.
  induction items as [|g items IH]; intros s Hnone; cbn [fold_left] in *; [done|].
  by apply (processUrl_alive s g), IH.
Qed.

Lemma processUrl_config s u ss :
  config (step s (u, ss)) =
  match resolution s u with
  | Some r => callSetters ss r (config s)
  | None => config s
  end.
Proof.
  unfold processUrl, resolution. destruct (uncaught s); [done|].
  destruct (existsSync _ (localFilenameFromUrl u)); [done|].
  by destruct (downloadFile _ _ _ _) as [[|msg|msg] files' unl].
Qed.

Lemma processUrl_fetches s u ss :
  fetches (step s (u, ss)) = fetches s ++ fetchesOf s u.
Proof.
  unfold processUrl, fetchesOf. destruct (uncaught s); [by rewrite app_nil_r|].
  destruct (existsSync _ (localFilenameFromUrl u)); [by rewrite app_nil_r|].
  by destruct (downloadFile _ _ _ _) as [[|msg|msg] files' unl].
Qed.

Lemma processUrl_errors s u ss :
  exists extra,
    errors (loopStats (step s (u, ss))) = errors (loopStats s) ++ extra /\
    (extra = [] -> uncaught (step s (u, ss)) = None -> is_Some (resolution s u)).
Proof.
  unfold processUrl, resolution. destruct (uncaught s) eqn:Hs.
  { exists []. rewrite app_nil_r. split; [done|]. intros _. by rewrite Hs. }
  destruct (existsSync _ (localFilenameFromUrl u)).
  { exists []. by rewrite app_nil_r. }
  destruct (downloadFile _ _ _ _) as [[|msg|msg] files' unl].
  - exists []. by rewrite app_nil_r.
  - eexists. split; [reflexivity|done].
  - exists []. by rewrite app_nil_r.
Qed.

Lemma processUrl_settled s u ss :
  settled (step s (u, ss)) =
  settled s + (match resolution s u with Some _ => 1 | None => 0 end).
Proof.
  unfold processUrl, resolution, settled. destruct (uncaught s); [lia|].
  destruct (existsSync _ (localFilenameFromUrl u)); [cbn; lia|].
  destruct (downloadFile _ _ _ _) as [[|msg|msg] files' unl]; cbn; lia.
Qed.

Lemma loop_errors items : forall s,
  exists extra, errors (loopStats (loop items s)) = errors (loopStats s) ++ extra.
Proof.
  induction items as [|[u ss] items IH]; intros s; cbn [fold_left].
  - exists []. by rewrite app_nil_r.
  - destruct (IH (step s (u, ss))) as [extra2 ->].
    destruct (processUrl_errors s u ss) as (extra1 & -> & _).
    exists (extra1 ++ extra2). by rewrite app_assoc.
Qed.

Lemma loop_settled_mono items : forall s, settled s <= settled (loop items s).
Proof.
  induction items as [|[u ss] items IH]; intros s; cbn [fold_left]; [done|].
  etransitivity; [|apply IH]. rewrite processUrl_settled. lia.
Qed.

(** When no URL was downloaded or found in the cache, no setter was called. *)
Lemma loop_config_unchanged items : forall s,
  settled (loop items s) = settled s -> config (loop items s) = config s.
Proof.
  induction items as [|[u ss] items IH]; intros s Heq; cbn [fold_left] in *; [done|].
  pose proof (loop_settled_mono items (step s (u, ss))) as Hmono.
  pose proof (processUrl_settled s u ss) as Hstep.
  destruct (resolution s u) as [r|] eqn:Er; [lia|].
  rewrite IH by lia. by rewrite processUrl_config, Er.
Qed.

Lemma loop_fetches_other u items : forall s,
  u ∉ map fst items ->
  count_occ string_dec (fetches (loop items s)) u = count_occ string_dec (fetches s) u.
Proof.
  induction items as [|[u' ss] items IH]; intros s Hnin; cbn [fold_left]; [done|].
  cbn in Hnin. apply not_elem_of_cons in Hnin as [Hne Hnin].
  rewrite (IH _ Hnin), processUrl_fetches, count_occ_app.
  unfold fetchesOf. destruct (uncaught s); [cbn; lia|].
  destruct (existsSync _ _); cbn; [lia|].
  destruct (string_dec u' u); [congruence|lia].
Qed.

(** The groups processed before the turn of [u]. *)
Fixpoint before (u : string) (groups : list (string * list path))
  : list (string * list path) :=
  match groups with
  | [] => []
  | g :: rest => if String.eqb (fst g) u then [] else g :: before u rest
  end.

Lemma before_split u ss groups :
  NoDup (map fst groups) -> (u, ss) ∈ groups ->
  exists post, groups = before u groups ++ (u, ss) :: post /\
               (u ∉ map fst (before u groups)) /\ (u ∉ map fst post).
Proof.
  induction groups as [|[u0 ss0] groups IH]; intros Hnd Hin.
  - by apply elem_of_nil in Hin.
  - cbn in Hnd. apply NoDup_cons in Hnd as [Hu0 Hnd]. cbn [before fst].
    destruct (String.eqb u0 u) eqn:E.
    + apply String.eqb_eq in E as ->.
      apply elem_of_cons in Hin as [[= ->]|Hin].
      * exists groups. split; [done|]. split; [apply not_elem_of_nil|done].
      * exfalso. apply Hu0. apply list_elem_of_fmap. by exists (u, ss).
    + apply String.eqb_neq in E.
      apply elem_of_cons in Hin as [[= ? ?]|Hin]; [congruence|].
      destruct (IH Hnd Hin) as (post & Heq & Hb & Hp).
      exists post. split; [by rewrite <- app_comm_cons, <- Heq|].
      split; [|done]. cbn. apply not_elem_of_cons. split; [congruence|done].
Qed.

End LoopFacts.

(** *** The slots of the collected entries during a run *)

Section Slots.
Context `{Platform} (net : string -> exchange) (removed : string -> string -> bool)
        (relativeAssetsDir : string).
Context (t : json) (Hwf : wf t).

Abbreviation entries := (collectRemoteUrls t).

(** Every collected slot holds a string. *)
Definition slotsStr (c : json) : Prop :=
  forall e, e ∈ entries -> exists a, getAt (set e) c = Some (JStr a).

(** A group of [deduplicateByUrl entries]. *)
Definition groupOk (g : string * list path) : Prop :=
  forall p, p ∈ snd g <-> Entry (fst g) p ∈ entries.

(** Every slot collected for the URL [u] holds the string [v]. *)
Definition uniform (c : json) (u v : string) : Prop :=
  forall e, e ∈ entries -> url e = u -> getAt (set e) c = Some (JStr v).

(** Every slot of [c] that holds a remote URL was collected for one of the
    URLs in [pending]. *)
Definition remoteOnly (c : json) (pending : list string) : Prop :=
  forall p a, p <> [] -> getAt p c = Some (JStr a) -> isRemoteUrl a = true ->
              exists e, e ∈ entries /\ set e = p /\ url e ∈ pending.

Lemma slotsStr_init : slotsStr t.
Proof. intros e He. apply collectRemoteUrls_spec in He as (_ & Hg & _); eauto. Qed.

Lemma uniform_init u : uniform t u u.
Proof.
  intros e He <-. by apply collectRemoteUrls_spec in He as (_ & Hg & _).
Qed.

Lemma remoteOnly_init : remoteOnly t (map fst (deduplicateByUrl entries)).
Proof.
  intros p a Hp Hg Hr. exists (Entry a p).
  assert (He : Entry a p ∈ entries) by (by apply collectRemoteUrls_spec).
  split; [done|]. split; [done|].
  destruct (deduplicateByUrl_covers entries _ He) as [ss Hin].
  apply list_elem_of_fmap. by exists (a, ss).
Qed.

Lemma groups_ok g : g ∈ deduplicateByUrl entries -> groupOk g.
Proof.
  destruct g as [u ss]. intros Hin p.
  by apply (proj2 (deduplicateByUrl_spec entries) u ss Hin).
Qed.

(** An entry belongs to the group of its own URL only. *)
Lemma group_member u ss e :
  groupOk (u, ss) -> e ∈ entries -> set e ∈ ss <-> url e = u.
Proof.
  intros Hok He. rewrite (Hok (set e)). cbn [fst]. split.
  - intros He'. apply collectRemoteUrls_spec in He as (_ & Hg & _); [|done].
    apply collectRemoteUrls_spec in He' as (_ & Hg' & _); [|done].
    cbn in Hg'. congruence.
  - intros <-. by destruct e.
Qed.

Lemma group_slots c u ss :
  slotsStr c -> groupOk (u, ss) ->
  forall s, s ∈ ss -> exists b, getAt s c = Some (JStr b).
Proof. intros Hstr Hok s Hs. apply Hok in Hs. by apply (Hstr _ Hs). Qed.

Lemma step_slotsStr s g :
  groupOk g -> slotsStr (config s) ->
  slotsStr (config (processUrl net removed relativeAssetsDir s g)).
Proof.
  destruct g as [u ss]. intros Hok Hstr. rewrite processUrl_config.
  destruct (resolution net removed relativeAssetsDir s u) as [r|]; [|done].
  intros e He. destruct (Hstr e He) as [a Ha].
  destruct (decide (set e ∈ ss)) as [Hin|Hnin].
  - exists r. apply (callSetters_getAt ss r _ (group_slots _ u ss Hstr Hok)).
    by rewrite decide_True.
  - exists a. apply (callSetters_getAt ss r _ (group_slots _ u ss Hstr Hok)).
    by rewrite decide_False.
Qed.

Lemma step_wf s g : wf (config s) -> wf (config (processUrl net removed relativeAssetsDir s g)).
Proof.
  destruct g as [u ss]. intros Hc. rewrite processUrl_config.
  destruct (resolution net removed relativeAssetsDir s u) as [r|]; [|done].
  by apply callSetters_wf.
Qed.

Lemma step_uniform_other s u' ss u v :
  groupOk (u', ss) -> u' <> u -> slotsStr (config s) ->
  uniform (config s) u v ->
  uniform (config (processUrl net removed relativeAssetsDir s (u', ss))) u v.
Proof.
  intros Hok Hne Hstr Hu. rewrite processUrl_config.
  destruct (resolution net removed relativeAssetsDir s u') as [r|]; [|done].
  intros e He Hurl.
  apply (callSetters_getAt ss r _ (group_slots _ u' ss Hstr Hok)).
  rewrite decide_False; [by apply Hu|].
  rewrite (group_member u' ss e Hok He). congruence.
Qed.

Lemma step_uniform_same s u ss v :
  groupOk (u, ss) -> slotsStr (config s) ->
  uniform (config s) u v ->
  uniform (config (processUrl net removed relativeAssetsDir s (u, ss))) u
          (default v (resolution net removed relativeAssetsDir s u)).
Proof.
  intros Hok Hstr Hu. rewrite processUrl_config.
  destruct (resolution net removed relativeAssetsDir s u) as [r|]; [|done].
  intros e He Hurl. cbn [default from_option].
  apply (callSetters_getAt ss r _ (group_slots _ u ss Hstr Hok)).
  rewrite decide_True; [done|]. by apply (group_member u ss e Hok He).
Qed.

Lemma loop_uniform_other u v items : forall s,
  Forall groupOk items -> u ∉ map fst items ->
  slotsStr (config s) -> uniform (config s) u v ->
  slotsStr (config (fold_left (processUrl net removed relativeAssetsDir) items s)) /\
  uniform (config (fold_left (processUrl net removed relativeAssetsDir) items s)) u v.
Proof.
  induction items as [|[u' ss] items IH]; intros s Hok Hnin Hstr Hu; cbn [fold_left].
  - done.
  - inversion Hok as [|? ? Hg Hrest]; subst.
    cbn in Hnin. apply not_elem_of_cons in Hnin as [Hne Hnin].
    apply IH; [done|done|by apply step_slotsStr|].
    apply step_uniform_other; auto.
Qed.

(** After a turn that called the setters with a local path, no slot of the
    group holds a remote URL any more. *)
Lemma step_remoteOnly s u ss r pending :
  groupOk (u, ss) -> slotsStr (config s) ->
  resolution net removed relativeAssetsDir s u = Some r -> isRemoteUrl r = false ->
  remoteOnly (config s) (u :: pending) ->
  remoteOnly (config (processUrl net removed relativeAssetsDir s (u, ss))) pending.
Proof.
  intros Hok Hstr Hres Hr Hrem p a Hp Hg Hra.
  rewrite processUrl_config, Hres in Hg.
  apply (callSetters_getAt ss r _ (group_slots _ u ss Hstr Hok)) in Hg.
  case_decide as Hnin; [congruence|].
  destruct (Hrem p a Hp Hg Hra) as (e & He & Hs & Hu).
  exists e. split; [done|]. split; [done|].
  apply elem_of_cons in Hu as [Hu|Hu]; [|done].
  exfalso. apply Hnin. rewrite <- Hs. by apply (group_member u ss e Hok He).
Qed.

(** Local paths under the assets directory are not remote URLs.  This
    holds for the normalized directory that [path.relative] returns. *)
Definition localRefsAreLocal : Prop :=
  forall f, allSafe f = true -> isRemoteUrl (localRefOf relativeAssetsDir f) = false.

Lemma resolution_local s u r :
  localRefsAreLocal ->
  resolution net removed relativeAssetsDir s u = Some r -> isRemoteUrl r = false.
Proof.
  intros Hrel. unfold resolution. destruct (uncaught s); [done|].
  destruct (existsSync _ _).
  - intros [= <-]. apply Hrel, allSafe_localFilenameFromUrl.
  - destruct (how (downloadFile _ _ _ _)) as [|msg|msg]; [|done|done].
    intros [= <-]. apply Hrel, allSafe_uniqueFilename, allSafe_localFilenameFromUrl.
Qed.

Lemma loop_remoteOnly items : forall s,
  localRefsAreLocal ->
  Forall groupOk items -> slotsStr (config s) ->
  errors (loopStats (fold_left (processUrl net removed relativeAssetsDir) items s)) =
    errors (loopStats s) ->
  uncaught (fold_left (processUrl net removed relativeAssetsDir) items s) = None ->
  remoteOnly (config s) (map fst items) ->
  remoteOnly (config (fold_left (processUrl net removed relativeAssetsDir) items s)) [].
Proof.
  induction items as [|[u ss] items IH]; intros s Hrel Hok Hstr Herr Halive Hrem;
    cbn [fold_left] in *; [done|].
  inversion Hok as [|? ? Hg Hrest]; subst.
  destruct (processUrl_errors net removed relativeAssetsDir s u ss) as (extra1 & He1 & Hres).
  destruct (loop_errors net removed relativeAssetsDir items
              (processUrl net removed relativeAssetsDir s (u, ss))) as [extra2 He2].
  rewrite He2, He1, <- app_assoc in Herr.
  assert (Hnil : extra1 ++ extra2 = []).
  { apply (app_inv_head (errors (loopStats s))). by rewrite app_nil_r. }
  apply app_eq_nil in Hnil as [-> ->].
  destruct (Hres eq_refl (loop_alive net removed relativeAssetsDir items _ Halive)) as [r Hr].
  apply IH; [done|done|by apply step_slotsStr| |done|].
  - by rewrite He2, app_nil_r.
  - eapply step_remoteOnly; eauto. by eapply resolution_local.
Qed.

Lemma loop_wf items : forall s,
  wf (config s) -> wf (config (fold_left (processUrl net removed relativeAssetsDir) items s)).
Proof.
  induction items as [|g items IH]; intros s Hc; cbn [fold_left]; [done|].
  by apply IH, step_wf.
Qed.

End Slots.

(** *** Runs of the downloader *)

Section Runs.
Context `{Platform} (net : string -> exchange) (removed : string -> string -> bool)
        (relativeAssetsDir configName : string).

(** The loop state when the run starts. *)
Definition initial (t : json) (assets0 : disk) : loopState :=
  LoopState t assets0 ∅ (Stats 0 0 []) [] ∅ None.

(** The loop state when the turn of the URL [u] comes. *)
Definition turnOf (u : string) (assets0 : disk) (t : json) : loopState :=
  fold_left (processUrl net removed relativeAssetsDir)
    (before u (deduplicateByUrl (collectRemoteUrls t))) (initial t assets0).

(** The loop state when the loop ends. *)
Definition final (assets0 : disk) (t : json) : loopState :=
  fold_left (processUrl net removed relativeAssetsDir)
    (deduplicateByUrl (collectRemoteUrls t)) (initial t assets0).

Lemma settle_lookup url s name :
  settle removed url s !! name =
  if decide (name ∈ unlinks s /\ removed url name = true) then None else files s !! name.
Proof.
  unfold settle. case_decide as Hgone.
  - apply map_lookup_filter_None_2. right. intros content _ Hkeep. by apply Hkeep.
  - destruct (files s !! name) as [content|] eqn:Hname.
    + by apply map_lookup_filter_Some_2.
    + apply map_lookup_filter_None_2. by left.
Qed.

Lemma settle_none url s : unlinks s = ∅ -> settle removed url s = files s.
Proof.
  intros Hnone. apply map_eq. intros name. rewrite settle_lookup, Hnone.
  rewrite decide_False; [done|]. intros [Hin _]. by apply elem_of_empty in Hin.
Qed.

(** A removal that is requested for a reserved name does not show in the
    tests of [uniqueFilename]. *)
Lemma taken_settle url s name :
  (forall n, n ∈ unlinks s -> n ∈ reservedFilenames s) ->
  taken (settle removed url s) (reservedFilenames s) name =
  taken (files s) (reservedFilenames s) name.
Proof.
  intros Hsub. unfold taken, existsSync. rewrite settle_lookup.
  case_decide as Hgone; [|done]. destruct Hgone as [Hin _].
  by rewrite (bool_decide_eq_true_2 _ (Hsub _ Hin)), !orb_true_r.
Qed.

Lemma uniqueFilename_settle url s raw :
  (forall n, n ∈ unlinks s -> n ∈ reservedFilenames s) ->
  uniqueFilename (settle removed url s) raw (reservedFilenames s) =
  uniqueFilename (files s) raw (reservedFilenames s).
Proof.
  intros Hsub. unfold uniqueFilename. rewrite taken_settle by done.
  assert (Hdom : dom (settle removed url s) ∪ reservedFilenames s =
                 dom (files s) ∪ reservedFilenames s).
  { apply set_eq. intros name. rewrite !elem_of_union, !elem_of_dom, settle_lookup.
    case_decide as Hgone; [|done]. destruct Hgone as [Hin _].
    split; [intros [[? [=]]|?]; by right|intros _; right; by apply Hsub]. }
  rewrite Hdom. generalize (S (size (dom (files s) ∪ reservedFilenames s))). intros fuel.
  assert (Hloop : forall counter,
            uniqueFilename_loop (settle removed url s) (reservedFilenames s)
              (basenameNoExt raw) (extname raw) fuel counter =
            uniqueFilename_loop (files s) (reservedFilenames s)
              (basenameNoExt raw) (extname raw) fuel counter).
  { induction fuel as [|fuel IH]; intros counter; [done|].
    cbn [uniqueFilename_loop]. rewrite taken_settle by done. by rewrite IH. }
  by rewrite Hloop.
Qed.

(** What the loop keeps true of the directory: a removal is requested
    only for a name reserved in this run, the names reserved in this run
    were free when the run started, and the files with other names are as
    they were then. *)
Definition sound (assets0 : disk) (s : loopState) : Prop :=
  (forall name, name ∈ unlinks s -> name ∈ reservedFilenames s) /\
  (forall name, name ∈ reservedFilenames s -> assets0 !! name = None) /\
  (forall name, name ∉ reservedFilenames s -> files s !! name = assets0 !! name).

Lemma processUrl_sound assets0 s g :
  sound assets0 s -> sound assets0 (processUrl net removed relativeAssetsDir s g).
Proof.
  intros (Hunl & Hfree & Hsame). unfold processUrl.
  destruct (uncaught s); [done|]. destruct g as [u ss].
  set (files0 := settle removed u s).
  set (filename := uniqueFilename files0 (localFilenameFromUrl u) (reservedFilenames s)).
  assert (Hsettled : forall name, name ∉ reservedFilenames s ->
            files0 !! name = assets0 !! name).
  { intros name Hname. unfold files0. rewrite settle_lookup, decide_False; [by apply Hsame|].
    intros [Hin _]. by apply Hname, Hunl. }
  assert (Hnew : (filename ∉ reservedFilenames s) /\ files0 !! filename = None).
  { destruct (uniqueFilename_spec files0 (localFilenameFromUrl u) (reservedFilenames s))
      as (Hnot & _). fold filename in Hnot. unfold taken, existsSync in Hnot.
    apply orb_false_iff in Hnot as [Hdisk Hres].
    apply bool_decide_eq_false in Hdisk, Hres. split; [done|].
    destruct (files0 !! filename) eqn:E; [|done]. exfalso. apply Hdisk. by eexists. }
  destruct Hnew as [Hfresh Hnone].
  assert (Hfree' : forall name, name ∈ {[filename]} ∪ reservedFilenames s ->
            assets0 !! name = None).
  { intros name [->%elem_of_singleton|Hin]%elem_of_union; [|by apply Hfree].
    by rewrite <- (Hsettled filename Hfresh). }
  assert (Hunl' : forall name, name ∈ unlinks s -> name ∈ {[filename]} ∪ reservedFilenames s).
  { intros name Hin. apply elem_of_union. right. by apply Hunl. }
  destruct (existsSync files0 (localFilenameFromUrl u)).
  { cbn [unlinks reservedFilenames files]. split; [done|]. split; [done|].
    intros name Hname. apply Hsettled. intros Hin. apply Hname, elem_of_union. by right. }
  destruct (doRequest_frame net u filename MAX_REDIRECTS false u files0) as (Hframe & _).
  fold (downloadFile net u filename files0) in Hframe.
  assert (Hother : forall name, name ∉ {[filename]} ∪ reservedFilenames s ->
            directory (downloadFile net u filename files0) !! name = assets0 !! name).
  { intros name Hname. rewrite Hframe.
    - apply Hsettled. intros Hin. apply Hname, elem_of_union. by right.
    - intros ->. apply Hname, elem_of_union. left. by apply elem_of_singleton. }
  destruct (downloadFile net u filename files0) as [[|msg|msg] files' unl];
    cbn [unlinks reservedFilenames files directory] in *;
    (split; [|split; [done|done]]); try done.
  destruct unl; [|done]. intros name [->%elem_of_singleton|Hin]%elem_of_union.
  - apply elem_of_union. left. by apply elem_of_singleton.
  - by apply Hunl'.
Qed.

Lemma loop_sound assets0 items : forall s,
  sound assets0 s ->
  sound assets0 (fold_left (processUrl net removed relativeAssetsDir) items s).
Proof.
  induction items as [|g items IH]; intros s Hs; cbn [fold_left]; [done|].
  by apply IH, processUrl_sound.
Qed.

Lemma initial_sound t assets0 : sound assets0 (initial t assets0).
Proof.
  split; [|split]; cbn [initial unlinks reservedFilenames files]; try done;
    intros name Hin; by apply elem_of_empty in Hin.
Qed.

Lemma downloadAssets_none writeError assets0 t :
  collectRemoteUrls t = [] ->
  downloadAssets net removed relativeAssetsDir configName writeError assets0 t =
  Run (Some (Stats 0 0 [])) t [] assets0 [] ∅ None.
Proof. intros Hnil. unfold downloadAssets. by rewrite Hnil. Qed.

Lemma downloadAssets_some writeError assets0 t :
  collectRemoteUrls t <> [] ->
  let r := downloadAssets net removed relativeAssetsDir configName writeError assets0 t in
  let s := final assets0 t in
  fetched r = fetches s /\ unlinkRequests r = unlinks s /\ died r = uncaught s /\
  match uncaught s with
  | Some _ =>
      returned r = None /\ configWrites r = [] /\ configFile r = t /\ assets r = files s
  | None =>
      configWrites r = [config s] /\
      match writeError with
      | None =>
          returned r = Some (loopStats s) /\ configFile r = config s /\
          assets r = writeBack relativeAssetsDir configName (config s) (files s)
      | Some message =>
          returned r =
            Some (Stats (downloaded (loopStats s)) (skipped (loopStats s))
                        (errors (loopStats s) ++
                         ["Failed to write updated config: " +:+ message])) /\
          configFile r = t /\ assets r = files s
      end
  end.
Proof.
  intros Hne. unfold downloadAssets, final, initial.
  destruct (collectRemoteUrls t) as [|e0 es] eqn:HE; [done|].
  destruct (uncaught _) eqn:Hdead; [done|]. by destruct writeError.
Qed.

(** The turn of a URL whose derived name no earlier URL of the run has
    claimed: the cache check sees the directory of before the run, and a
    download goes to the file of that name. *)
Lemma turn_unclaimed assets0 s u :
  sound assets0 s -> uncaught s = None ->
  localFilenameFromUrl u ∉ reservedFilenames s ->
  fetchesOf removed s u = (if existsSync assets0 (localFilenameFromUrl u) then [] else [u]) /\
  resolution net removed relativeAssetsDir s u =
    (if existsSync assets0 (localFilenameFromUrl u)
     then Some (localRefOf relativeAssetsDir (localFilenameFromUrl u))
     else match how (downloadFile net u (localFilenameFromUrl u) assets0) with
          | Resolved => Some (localRefOf relativeAssetsDir (localFilenameFromUrl u))
          | _ => None
          end).
Proof.
  intros (Hunl & Hfree & Hsame) Halive Hraw.
  set (raw := localFilenameFromUrl u) in *.
  assert (Hlookup : settle removed u s !! raw = assets0 !! raw).
  { rewrite settle_lookup, decide_False; [by apply Hsame|].
    intros [Hin _]. by apply Hraw, Hunl. }
  assert (Hexists : existsSync (settle removed u s) raw = existsSync assets0 raw).
  { unfold existsSync. by rewrite Hlookup. }
  unfold fetchesOf, resolution. fold raw. rewrite Halive, Hexists.
  split; [done|]. destruct (existsSync assets0 raw) eqn:Hcached; [done|].
  assert (Hname : uniqueFilename (settle removed u s) raw (reservedFilenames s) = raw).
  { apply (uniqueFilename_spec (settle removed u s) raw (reservedFilenames s)).
    unfold taken. rewrite Hexists. cbn [orb]. by apply bool_decide_eq_false. }
  rewrite Hname. unfold downloadFile.
  by rewrite (doRequest_how net u raw MAX_REDIRECTS false u (settle removed u s) assets0).
Qed.

(** C1, as amended.  For every configuration tree with at least one
    reference to the remote URL [u], a run that comes to its end performs
    exactly one network fetch for [u], unless a file with the name derived
    from [u] was in the output directory before the run, in which case it
    performs none and that file is used.  When the file is there or the
    download succeeds, every setter collected for [u] is called with the
    same local path; when the download fails, none is called.  Either way
    all the slots that referred to [u] hold identical values in the tree
    that is written back: the local path, or [u] itself.  This is stated
    for a URL whose derived name no URL processed earlier in the run has
    claimed. *)
Theorem downloadAssets_one_url (writeError : option string) (assets0 : disk)
    (t : json) (u : string) :
  wf t ->
  (exists e, e ∈ collectRemoteUrls t /\ url e = u) ->
  let r := downloadAssets net removed relativeAssetsDir configName writeError assets0 t in
  let rawFilename := localFilenameFromUrl u in
  let localRef := localRefOf relativeAssetsDir rawFilename in
  rawFilename ∉ reservedFilenames (turnOf u assets0 t) ->
  died r = None ->
  count_occ string_dec (fetched r) u =
    (if existsSync assets0 rawFilename then 0 else 1) /\
  exists c, configWrites r = [c] /\
    forall e, e ∈ collectRemoteUrls t -> url e = u ->
      getAt (set e) c =
      Some (JStr (if existsSync assets0 rawFilename then localRef
                  else match how (downloadFile net u rawFilename assets0) with
                       | Resolved => localRef
                       | _ => u
                       end)).
Proof.
  intros Hwf (e0 & He0 & Hu0) r rawFilename localRef Hraw Hdied.
  set (s := turnOf u assets0 t) in *.
  assert (Hne : collectRemoteUrls t <> []).
  { intros Hnil. rewrite Hnil in He0. by apply elem_of_nil in He0. }
  destruct (downloadAssets_some writeError assets0 t Hne) as (Hf & _ & Hd & Hrun).
  fold r in Hf, Hd, Hrun. rewrite Hdied in Hd. rewrite <- Hd in Hrun.
  destruct Hrun as [Hw _].
  destruct (deduplicateByUrl_spec (collectRemoteUrls t)) as [Hnd Hgroups].
  destruct (deduplicateByUrl_covers _ _ He0) as [ss Hin]. rewrite Hu0 in Hin.
  destruct (before_split u ss _ Hnd Hin) as (post & Hsplit & Hb & Hp).
  assert (Hok : Forall (groupOk t) (deduplicateByUrl (collectRemoteUrls t))).
  { apply Forall_forall. intros g Hg. by apply groups_ok. }
  assert (Hfinal : final assets0 t =
            fold_left (processUrl net removed relativeAssetsDir) post
              (processUrl net removed relativeAssetsDir s (u, ss))).
  { unfold final. rewrite Hsplit at 1. by rewrite fold_left_app. }
  rewrite Hsplit in Hok. apply Forall_app in Hok as [Hokb Hokp].
  apply Forall_cons in Hokp as [Hoku Hokpost].
  assert (Halive : uncaught s = None).
  { apply (processUrl_alive net removed relativeAssetsDir s (u, ss)).
    apply (loop_alive net removed relativeAssetsDir post). by rewrite <- Hfinal. }
  assert (Hsound : sound assets0 s) by apply loop_sound, initial_sound.
  destruct (turn_unclaimed assets0 s u Hsound Halive Hraw) as [Hfetch Hres].
  fold rawFilename in Hfetch, Hres. fold localRef in Hres.
  split.
  - rewrite Hf, Hfinal, (loop_fetches_other net removed relativeAssetsDir u post _ Hp).
    rewrite processUrl_fetches, count_occ_app, Hfetch.
    unfold s, turnOf.
    rewrite (loop_fetches_other net removed relativeAssetsDir u _ _ Hb).
    cbn [initial fetches count_occ].
    destruct (existsSync _ _); cbn; [done|].
    by destruct (string_dec u u).
  - exists (config (final assets0 t)). split; [done|].
    destruct (loop_uniform_other net removed relativeAssetsDir t Hwf u u
                (before u (deduplicateByUrl (collectRemoteUrls t)))
                (initial t assets0) Hokb Hb (slotsStr_init t Hwf) (uniform_init t Hwf u))
      as [Hstr1 Hu1].
    fold (turnOf u assets0 t) in Hstr1, Hu1. fold s in Hstr1, Hu1.
    pose proof (step_uniform_same net removed relativeAssetsDir t Hwf s u ss u Hoku Hstr1 Hu1)
      as Hu2.
    pose proof (step_slotsStr net removed relativeAssetsDir t s (u, ss) Hoku Hstr1) as Hstr2.
    destruct (loop_uniform_other net removed relativeAssetsDir t Hwf u _ post _
                Hokpost Hp Hstr2 Hu2) as [_ Hu3].
    rewrite Hfinal. intros e He Hurl. rewrite (Hu3 e He Hurl), Hres.
    destruct (existsSync assets0 rawFilename); [done|].
    by destruct (how (downloadFile net u rawFilename assets0)).
Qed.

(** Short of an uncaught exception, [downloadAssets] calls [writeFileSync]
    on the configuration file if and only if the walk collected at least
    one reference.  With no reference it returns at once: nothing is
    written, nothing is fetched and the file and the output directory are
    as they were.  With references the tree is written back once, also
    when every download failed, and then the written tree is the original
    one: the failed URLs keep their remote values.  A run that an
    exception ends returns nothing and writes nothing. *)
Lemma downloadAssets_writes_back (writeError : option string) (assets0 : disk) (t : json) :
  let r := downloadAssets net removed relativeAssetsDir configName writeError assets0 t in
  (collectRemoteUrls t = [] ->
   r = Run (Some (Stats 0 0 [])) t [] assets0 [] ∅ None) /\
  (collectRemoteUrls t <> [] -> died r = None ->
   exists c st, configWrites r = [c] /\ returned r = Some st /\
     (writeError = None -> configFile r = c) /\
     (downloaded st = 0 -> skipped st = 0 -> c = t)) /\
  (is_Some (died r) ->
   collectRemoteUrls t <> [] /\ returned r = None /\ configWrites r = [] /\ configFile r = t).
Proof.
  intros r. split; [apply downloadAssets_none|].
  destruct (decide (collectRemoteUrls t = [])) as [Hnil|Hne].
  { split; [done|]. intros [m Hm]. unfold r in Hm.
    by rewrite (downloadAssets_none writeError assets0 t Hnil) in Hm. }
  destruct (downloadAssets_some writeError assets0 t Hne) as (_ & _ & Hdied & Hrun).
  fold r in Hdied, Hrun. rewrite Hdied.
  destruct (uncaught (final assets0 t)) as [m|] eqn:Hu.
  - split; [done|]. intros _. by destruct Hrun as (? & ? & ? & _).
  - split; [|by intros [? [=]]]. intros _ _. destruct Hrun as [Hw Hrun].
    assert (Hsame : downloaded (loopStats (final assets0 t)) = 0 ->
                    skipped (loopStats (final assets0 t)) = 0 ->
                    config (final assets0 t) = t).
    { intros Hd0 Hs0. unfold final.
      rewrite (loop_config_unchanged net removed relativeAssetsDir); [done|].
      fold (final assets0 t). unfold settled. rewrite Hd0, Hs0. done. }
    exists (config (final assets0 t)).
    destruct writeError as [message|]; destruct Hrun as (Hret & Hfile & _);
      eexists; (split; [done|]); (split; [exact Hret|]); (split; [done|]); exact Hsame.
Qed.

End Runs.

(** C2. When a first run has succeeded (it returned, and reported no
    error), a second run against the configuration file and the output
    directory the first run left performs no network fetch and leaves the
    configuration file, with its rewritten local paths, and the output
    directory unchanged; it does not even write the file. *)
Theorem downloadAssets_idempotent `{Platform} (net1 net2 : string -> exchange)
    (removed1 removed2 : string -> string -> bool)
    (relativeAssetsDir configName : string) (writeError1 writeError2 : option string)
    (assets0 : disk) (t : json) :
  wf t ->
  localRefsAreLocal relativeAssetsDir ->
  let r1 := downloadAssets net1 removed1 relativeAssetsDir configName writeError1 assets0 t in
  errors <$> returned r1 = Some [] ->
  let r2 := downloadAssets net2 removed2 relativeAssetsDir configName writeError2
              (assets r1) (configFile r1) in
  fetched r2 = [] /\ configWrites r2 = [] /\
  configFile r2 = configFile r1 /\ assets r2 = assets r1.
Proof.
  intros Hwf Hrel r1 Herr r2.
  assert (Hnil : collectRemoteUrls (configFile r1) = []).
  { destruct (collectRemoteUrls t) as [|e0 es] eqn:HE.
    { unfold r1. by rewrite (downloadAssets_none net1 _ _ _ _ _ _ HE). }
    assert (Hne : collectRemoteUrls t <> []) by (by rewrite HE).
    destruct (downloadAssets_some net1 removed1 relativeAssetsDir configName
                writeError1 assets0 t Hne) as (_ & _ & _ & Hrun). fold r1 in Hrun.
    destruct (uncaught (final net1 removed1 relativeAssetsDir assets0 t)) eqn:Halive.
    { destruct Hrun as [Hret _]. by rewrite Hret in Herr. }
    destruct Hrun as [_ Hrun]. destruct writeError1 as [message|].
    { destruct Hrun as [Hret _]. rewrite Hret in Herr. cbn in Herr.
      injection Herr as Herr. by apply app_eq_nil in Herr as [_ ?]. }
    destruct Hrun as (Hret & Hfile & _). rewrite Hret in Herr. cbn in Herr.
    injection Herr as Herr. rewrite Hfile.
    assert (Hok : Forall (groupOk t) (deduplicateByUrl (collectRemoteUrls t))).
    { apply Forall_forall. intros g Hg. by apply groups_ok. }
    pose proof (loop_remoteOnly net1 removed1 relativeAssetsDir t Hwf _ (initial t assets0)
                  Hrel Hok (slotsStr_init t Hwf) Herr Halive (remoteOnly_init t Hwf)) as Hrem.
    pose proof (loop_wf net1 removed1 relativeAssetsDir
                  (deduplicateByUrl (collectRemoteUrls t)) (initial t assets0) Hwf) as Hwf'.
    fold (final net1 removed1 relativeAssetsDir assets0 t) in Hrem, Hwf'.
    destruct (collectRemoteUrls (config (final net1 removed1 relativeAssetsDir assets0 t)))
      as [|e es'] eqn:HE'; [done|].
    assert (He : e ∈ collectRemoteUrls (config (final net1 removed1 relativeAssetsDir assets0 t)))
      by (rewrite HE'; left).
    apply collectRemoteUrls_spec in He as (Hp & Hg & Hr); [|done].
    destruct (Hrem _ _ Hp Hg Hr) as (e' & _ & _ & Hin). by apply elem_of_nil in Hin. }
  unfold r2. by rewrite (downloadAssets_none net2 _ _ _ _ _ _ Hnil).
Qed.

(** *** Further properties of the file names *)

Lemma stripLeadingDots_no_dot s : Js.startsWith "." (stripLeadingDots s) = false.
Proof.
  induction s as [|c s IH]; [done|]. cbn [stripLeadingDots].
  destruct (Ascii.eqb c ".") eqn:E; [exact IH|].
  unfold Js.startsWith. cbn [String.prefix].
  destruct (ascii_dec "." c) as [<-|]; [|done]. by rewrite Ascii.eqb_refl in E.
Qed.

(** X1. Whatever the URL, [localFilenameFromUrl] returns a usable file
    name: it is not empty, every character is in [[a-zA-Z0-9._-]] (so it
    holds no path separator), and it does not start with a dot. *)
Theorem localFilenameFromUrl_usable `{Platform} (urlString : string) :
  Js.truthy (localFilenameFromUrl urlString) = true /\
  allSafe (localFilenameFromUrl urlString) = true /\
  Js.includesChar "/" (localFilenameFromUrl urlString) = false /\
  Js.startsWith "." (localFilenameFromUrl urlString) = false.
Proof.
  assert (Hsep : forall s, allSafe s = true -> Js.includesChar "/" s = false).
  { induction s as [|c s IH]; [done|]. cbn [allSafe Js.includesChar].
    intros [Hc Hs]%andb_true_iff. rewrite (IH Hs), orb_false_r.
    destruct (Ascii.eqb "/" c) eqn:E; [|done].
    apply Ascii.eqb_eq in E as <-. done. }
  pose proof (allSafe_localFilenameFromUrl urlString) as Hsafe.
  split; [|split; [done|split; [by apply Hsep|]]].
  - unfold localFilenameFromUrl.
    destruct (urlPathname urlString) as [pathname|]; [|done].
    cbv zeta. destruct (Js.truthy (stripLeadingDots _)) eqn:E; done.
  - unfold localFilenameFromUrl.
    destruct (urlPathname urlString) as [pathname|]; [|done].
    cbv zeta. destruct (Js.truthy (stripLeadingDots _)) eqn:E;
      [apply stripLeadingDots_no_dot|done].
Qed.

(** [parseInt(s, 36)] on a string of the digits [0-9a-z]. *)
Definition digitValue (c : ascii) : Z :=
  let n := Z.of_nat (nat_of_ascii c) in
  if (n <? 58)%Z then (n - 48)%Z else (n - 87)%Z.

Fixpoint parseInt36_go (s : string) (acc : Z) : Z :=
  match s with
  | EmptyString => acc
  | String c rest => parseInt36_go rest (acc * 36 + digitValue c)%Z
  end.

Definition parseInt36 (s : string) : Z := parseInt36_go s 0.

Lemma digitValue_digit36 z : digitValue (digit36 (z mod 36)) = (z mod 36)%Z.
Proof.
  pose proof (Z.mod_pos_bound z 36 eq_refl) as Hd.
  assert (exists n, n < 36 /\ (z mod 36)%Z = Z.of_nat n) as (n & Hn & ->).
  { exists (Z.to_nat (z mod 36)). lia. }
  do 36 (destruct n as [|n]; [reflexivity|]). lia.
Qed.

Lemma parseInt36_toString36_go fuel : forall z acc,
  (0 <= z < 2 ^ Z.of_nat fuel)%Z ->
  parseInt36_go (toString36_go fuel z acc) 0 = parseInt36_go acc z.
Proof.
  induction fuel as [|fuel IH]; intros z acc Hz.
  - cbn [toString36_go]. replace z with 0%Z by (cbn in Hz; lia).
    done.
  - cbn [toString36_go].
    assert (Hstep : parseInt36_go (String (digit36 (z mod 36)) acc) (z / 36) =
                    parseInt36_go acc z).
    { cbn [parseInt36_go]. rewrite digitValue_digit36. f_equal.
      pose proof (Z.div_mod z 36). lia. }
    destruct (z / 36 =? 0)%Z eqn:E.
    + apply Z.eqb_eq in E. rewrite <- Hstep, E. done.
    + rewrite IH; [exact Hstep|].
      rewrite Nat2Z.inj_succ, Z.pow_succ_r in Hz by lia.
      split; [apply Z.div_pos; lia|].
      apply Z.div_lt_upper_bound; lia.
Qed.

Lemma toInt32_range z : (- 2 ^ 31 <= toInt32 z < 2 ^ 31)%Z.
Proof.
  unfold toInt32. pose proof (Z.mod_pos_bound (z + 2 ^ 31) (2 ^ 32) eq_refl). lia.
Qed.

Lemma simpleHash_go_range str : forall hash,
  (- 2 ^ 31 <= hash < 2 ^ 31)%Z ->
  (- 2 ^ 31 <= simpleHash_go str hash < 2 ^ 31)%Z.
Proof.
  induction str as [|ch str IH]; intros hash Hh; cbn [simpleHash_go]; [done|].
  apply IH, toInt32_range.
Qed.

Lemma truthy_toString36_go fuel : forall z acc,
  Js.truthy acc = true -> Js.truthy (toString36_go fuel z acc) = true.
Proof.
  induction fuel as [|fuel IH]; intros z acc Hacc; cbn [toString36_go]; [done|].
  destruct (_ =? 0)%Z; [done|]. by apply IH.
Qed.

(** X2. [simpleHash] prints the absolute value of a 32-bit hash in base
    36 in full: reading its result back as a base-36 number gives that
    absolute value, which is at most 2^31, and the result is never the
    empty string. *)
Theorem simpleHash_round_trip (str : string) :
  parseInt36 (simpleHash str) = Z.abs (simpleHash_go str 0) /\
  (0 <= parseInt36 (simpleHash str) <= 2 ^ 31)%Z /\
  Js.truthy (simpleHash str) = true.
Proof.
  pose proof (simpleHash_go_range str 0 ltac:(lia)) as Hr.
  set (h := simpleHash_go str 0) in *.
  assert (Hrt : parseInt36 (simpleHash str) = Z.abs h).
  { unfold parseInt36, simpleHash, toString36. fold h.
    rewrite parseInt36_toString36_go; [done|].
    split; [lia|].
    destruct (Z.eq_dec (Z.abs h) 0%Z) as [->|Hne]; [done|].
    rewrite Nat2Z.inj_succ, Z2Nat.id by apply Z.log2_nonneg.
    apply Z.log2_spec. lia. }
  split; [exact Hrt|]. split; [rewrite Hrt; lia|].
  unfold simpleHash, toString36. cbn [toString36_go].
  destruct (_ =? 0)%Z; [done|]. by apply truthy_toString36_go.
Qed.

(** X3. [uniqueFilename] returns: its loop ends within one candidate more
    than there are names in use.  The name it returns is neither in the
    directory nor reserved; it is the wanted name when that one is free,
    and otherwise the candidate [base_k.ext] with the least [k >= 2] that
    is free. *)
Theorem uniqueFilename_fresh (files : disk) (filename : string) (reserved : gset string) :
  is_Some (uniqueFilename_loop files reserved (basenameNoExt filename) (extname filename)
             (S (size (dom files ∪ reserved))) 2) /\
  files !! (uniqueFilename files filename reserved) = None /\
  (uniqueFilename files filename reserved ∉ reserved) /\
  (files !! filename = None -> (filename ∉ reserved) ->
   uniqueFilename files filename reserved = filename) /\
  ((is_Some (files !! filename) \/ filename ∈ reserved) ->
   exists k, 2 <= k /\
     uniqueFilename files filename reserved =
       candidateName (basenameNoExt filename) (extname filename) k /\
     forall j, 2 <= j < k ->
       candidateName (basenameNoExt filename) (extname filename) j ∈ dom files ∪ reserved).
Proof.
  destruct (uniqueFilename_spec files filename reserved) as (Hfree & Hsame & Hnext).
  assert (Hnot : uniqueFilename files filename reserved ∉ dom files ∪ reserved).
  { intros Hin. apply taken_elem in Hin. congruence. }
  split; [apply uniqueFilename_loop_returns|].
  split; [apply not_elem_of_dom; set_solver|]. split; [set_solver|]. split.
  - intros Hf Hr. apply Hsame.
    destruct (taken files reserved filename) eqn:E; [|done].
    apply taken_elem, elem_of_union in E as [E|E]; [|done].
    apply elem_of_dom in E. rewrite Hf in E. by destruct E.
  - intros Hbusy. destruct Hnext as (k & Hk & Heq & Hbelow).
    { apply taken_elem, elem_of_union. destruct Hbusy as [Hf|Hr]; [left|by right].
      by apply elem_of_dom. }
    exists k. split; [done|]. split; [done|].
    intros j Hj. by apply taken_elem, Hbelow.
Qed.

(** *** The extension of a file name *)

Fixpoint noDot (s : string) : bool :=
  match s with
  | EmptyString => true
  | String c rest => negb (Ascii.eqb c ".") && noDot rest
  end.

Lemma take_drop_string n : forall s, takeString n s +:+ dropString n s = s.
Proof.
  induction n as [|n IH]; intros [|c s]; try done.
  change (String c (takeString n s +:+ dropString n s) = String c s). by rewrite IH.
Qed.

Lemma lastDot_noDot s : forall i found, noDot s = true -> lastDot s i found = found.
Proof.
  induction s as [|c s IH]; intros i found Hs; cbn [lastDot]; [done|].
  cbn [noDot] in Hs. apply andb_true_iff in Hs as [Hc Hs].
  rewrite (IH _ _ Hs). by destruct (Ascii.eqb c ".").
Qed.

(** The last dot splits the string: no dot comes after it. *)
Lemma lastDot_split s : forall i found j,
  lastDot s i found = Some j ->
  (found = Some j /\ noDot s = true) \/
  (i <= j /\ exists rest, dropString (j - i) s = String "." rest /\ noDot rest = true).
Proof.
  induction s as [|c s IH]; intros i found j Hl; cbn [lastDot] in Hl; [by left|].
  destruct (IH _ _ _ Hl) as [[Hf Hs]|(Hij & rest & Hd & Hr)].
  - destruct (Ascii.eqb c ".") eqn:Ec.
    + injection Hf as <-. right. split; [lia|]. exists s.
      rewrite Nat.sub_diag. cbn [dropString]. apply Ascii.eqb_eq in Ec as ->. done.
    + left. split; [done|]. cbn [noDot]. by rewrite Ec, Hs.
  - right. split; [lia|]. exists rest. split; [|done].
    replace (j - i) with (S (j - S i)) by lia. done.
Qed.

Lemma lastDot_append a : forall i found rest,
  noDot rest = true ->
  lastDot (a +:+ String "." rest) i found = Some (i + String.length a).
Proof.
  induction a as [|c a IH]; intros i found rest Hr.
  - change (lastDot rest (S i) (Some i) = Some (i + 0)).
    rewrite (lastDot_noDot rest _ _ Hr). f_equal. lia.
  - change (lastDot (a +:+ String "." rest) (S i) (if Ascii.eqb c "." then Some i else found) =
            Some (i + S (String.length a))).
    rewrite IH by done. f_equal. lia.
Qed.

Lemma noDot_append a b : noDot (a +:+ b) = noDot a && noDot b.
Proof.
  induction a as [|c a IH]; [done|].
  change (negb (Ascii.eqb c ".") && noDot (a +:+ b) = negb (Ascii.eqb c ".") && noDot a && noDot b).
  by rewrite IH, andb_assoc.
Qed.

Lemma noDot_pretty_N_go x : forall s, noDot s = true -> noDot (pretty_N_go x s) = true.
Proof.
  induction (N.lt_wf_0 x) as [x _ IH]; intros s Hs.
  assert (x = 0 \/ 0 < x)%N as [->|Hx] by lia.
  - by rewrite pretty_N_go_0.
  - rewrite pretty_N_go_step by done. apply IH.
    { by apply N.div_lt. }
    cbn [noDot]. rewrite Hs, andb_true_r.
    unfold pretty_N_char. by repeat case_match.
Qed.

Lemma noDot_pretty (n : nat) : noDot (pretty n) = true.
Proof.
  unfold pretty, pretty_nat, pretty, pretty_N.
  case_decide; [done|]. by apply noDot_pretty_N_go.
Qed.

Lemma dropString_append a : forall b, dropString (String.length a) (a +:+ b) = b.
Proof. induction a as [|c a IH]; intros b; [done|]. exact (IH b). Qed.

Lemma takeString_length n : forall s,
  n <= String.length s -> String.length (takeString n s) = n.
Proof.
  induction n as [|n IH]; intros [|c s] Hn; try done; [cbn in Hn; lia|].
  change (S (String.length (takeString n s)) = S n). rewrite IH; [done|].
  change (S n <= S (String.length s)) in Hn. lia.
Qed.

Lemma dropString_some n : forall s c rest,
  dropString n s = String c rest -> n < String.length s.
Proof.
  induction n as [|n IH]; intros [|d s] c rest Hd; try done.
  - cbn. lia.
  - cbn [dropString] in Hd. apply IH in Hd. cbn. lia.
Qed.

Lemma lastDot_none s : forall i found,
  lastDot s i found = None -> noDot s = true /\ found = None.
Proof.
  induction s as [|c s IH]; intros i found Hl; cbn [lastDot] in Hl; [done|].
  destruct (IH _ _ Hl) as [Hs Hf]. cbn [noDot].
  destruct (Ascii.eqb c "."); [done|]. by rewrite Hs.
Qed.

Lemma app_string_assoc a b c : (a +:+ b) +:+ c = a +:+ b +:+ c.
Proof.
  induction a as [|x a IH]; [done|].
  change (String x ((a +:+ b) +:+ c) = String x (a +:+ b +:+ c)). by rewrite IH.
Qed.

Lemma app_string_nil a : a +:+ EmptyString = a.
Proof.
  induction a as [|x a IH]; [done|].
  change (String x (a +:+ EmptyString) = String x a). by rewrite IH.
Qed.

(** The extension of a candidate is the extension it was built with. *)
Lemma extname_candidateName filename k :
  Js.startsWith "." filename = false ->
  extname (candidateName (basenameNoExt filename) (extname filename) k) = extname filename.
Proof.
  intros Hdot. unfold candidateName.
  assert (Hsuffix : noDot ("_" +:+ pretty k) = true)
    by (by rewrite noDot_append, noDot_pretty).
  rewrite <- (app_string_assoc "_" (pretty k)), <- app_string_assoc.
  unfold basenameNoExt, extname at 2 3, extStart.
  destruct (lastDot filename 0 None) as [[|i]|] eqn:El.
  - exfalso. apply lastDot_split in El as [[? _]|(_ & rest & Hd & _)]; [done|].
    cbn [dropString Nat.sub] in Hd. rewrite Hd in Hdot.
    unfold Js.startsWith in Hdot. cbn [String.prefix] in Hdot.
    destruct (ascii_dec "." "."); [by destruct rest|done].
  - assert (Hne : String.eqb filename ".." = false).
    { destruct (String.eqb filename "..") eqn:E; [|done].
      apply String.eqb_eq in E. by rewrite E in Hdot. }
    rewrite Hne.
    apply lastDot_split in El as [[? _]|(_ & rest & Hd & Hr)]; [done|].
    rewrite Nat.sub_0_r in Hd. rewrite Hd.
    set (pre := takeString (S i) filename +:+ "_" +:+ pretty k).
    assert (Hlen : 2 <= String.length pre).
    { unfold pre. rewrite append_length.
      rewrite takeString_length by (apply dropString_some in Hd; lia).
      change (String.length ("_" +:+ pretty k)) with (S (String.length (pretty k))). lia. }
    unfold extname, extStart. rewrite (lastDot_append pre 0 None rest Hr).
    destruct (String.length pre) as [|n] eqn:En; [lia|]. cbn [Nat.add].
    assert (Hnot : String.eqb (pre +:+ String "." rest) ".." = false).
    { apply String.eqb_neq. intros Heq. apply (f_equal String.length) in Heq.
      rewrite append_length, En in Heq. cbn in Heq. lia. }
    rewrite Hnot, <- En. apply dropString_append.
  - apply lastDot_none in El as [Hf _]. rewrite app_string_nil.
    unfold extname, extStart.
    rewrite lastDot_noDot; [done|]. by rewrite noDot_append, Hf.
Qed.

(** X26. For a file name that does not start with a dot (as every name
    [localFilenameFromUrl] returns), the base name and the extension that
    [uniqueFilename] splits it into put together give the name back, and
    the name [uniqueFilename] returns has the extension of the name that
    was asked for: the counter goes before the extension. *)
Theorem uniqueFilename_keeps_extension (files : disk) (filename : string)
    (reserved : gset string) :
  Js.startsWith "." filename = false ->
  basenameNoExt filename +:+ extname filename = filename /\
  extname (uniqueFilename files filename reserved) = extname filename.
Proof.
  intros Hdot. split.
  - unfold basenameNoExt, extname. destruct (extStart filename) as [i|].
    + apply take_drop_string.
    + apply app_string_nil.
  - destruct (uniqueFilename_spec files filename reserved) as (_ & Hsame & Hnext).
    destruct (taken files reserved filename) eqn:Et; [|by rewrite Hsame].
    destruct (Hnext eq_refl) as (k & _ & -> & _).
    by apply extname_candidateName.
Qed.

(** *** Further properties of the walk and of the grouping *)

(** *** Every slot is collected once *)

(** What a walk below the path [from] adds to its accumulator: entries
    with pairwise different slots, all of them below [from]. *)
Definition addsBelow (from : path) (acc result : list entry) : Prop :=
  exists l, result = acc ++ l /\ NoDup (map set l) /\
            Forall (fun e => exists p, set e = from ++ p) l.

Definition walksOnce (t : json) : Prop :=
  forall here acc, addsBelow here acc (collectRemoteUrls_at here t acc).

Lemma visit_once here s val acc :
  walksOnce val ->
  addsBelow (here ++ [s]) acc (visit collectRemoteUrls_at here s val acc).
Proof.
  intros Hval. unfold addsBelow.
  destruct val as [|b|q|v|items|fields]; cbn [visit];
    try (exists []; rewrite app_nil_r; split; [done|]; split; constructor).
  - destruct (isRemoteUrl v).
    + exists [Entry v (here ++ [s])]. split; [done|]. split; [apply NoDup_singleton|].
      apply Forall_singleton. exists []. by rewrite app_nil_r.
    + exists []. rewrite app_nil_r. split; [done|]. split; constructor.
  - apply Hval.
  - apply Hval.
Qed.

(** Two walks, one after the other, below different slots of [here]. *)
Lemma addsBelow_next (here : path) (P Q : step -> Prop) acc mid result :
  (forall s, P s -> Q s -> False) ->
  (exists l, mid = acc ++ l /\ NoDup (map set l) /\
     Forall (fun e => exists s p, P s /\ set e = (here ++ [s]) ++ p) l) ->
  (exists l, result = mid ++ l /\ NoDup (map set l) /\
     Forall (fun e => exists s p, Q s /\ set e = (here ++ [s]) ++ p) l) ->
  exists l, result = acc ++ l /\ NoDup (map set l) /\
    Forall (fun e => exists s p, (P s \/ Q s) /\ set e = (here ++ [s]) ++ p) l.
Proof.
  intros Hdisj (l1 & -> & Hnd1 & Hall1) (l2 & -> & Hnd2 & Hall2).
  exists (l1 ++ l2). split; [by rewrite app_assoc|]. split.
  - rewrite map_app. apply NoDup_app. split; [done|]. split; [|done].
    intros x Hx1 Hx2.
    apply list_elem_of_fmap in Hx1 as (e1 & -> & He1).
    apply list_elem_of_fmap in Hx2 as (e2 & Heq & He2).
    rewrite Forall_forall in Hall1, Hall2.
    destruct (Hall1 _ He1) as (s1 & p1 & Hs1 & Hp1).
    destruct (Hall2 _ He2) as (s2 & p2 & Hs2 & Hp2).
    rewrite Hp1, Hp2, <- !app_assoc in Heq. apply app_inv_head in Heq.
    injection Heq as -> _. by apply (Hdisj s2).
  - apply Forall_app. split.
    + eapply Forall_impl; [exact Hall1|]. intros e (s & p & Hs & Hp). exists s, p. auto.
    + eapply Forall_impl; [exact Hall2|]. intros e (s & p & Hs & Hp). exists s, p. auto.
Qed.

Lemma forIndex_once here items : forall i acc,
  Forall walksOnce items ->
  exists l,
    Js.forIndex (fun i val results => visit collectRemoteUrls_at here (Idx i) val results)
      i items acc = acc ++ l /\
    NoDup (map set l) /\
    Forall (fun e => exists s p, (exists j, s = Idx j /\ i <= j) /\
                                 set e = (here ++ [s]) ++ p) l.
Proof.
  induction items as [|val items IH]; intros i acc Hall; cbn [Js.forIndex].
  - exists []. rewrite app_nil_r. split; [done|]. split; constructor.
  - apply Forall_cons in Hall as [Hval Hall].
    destruct (IH (S i) (visit collectRemoteUrls_at here (Idx i) val acc) Hall) as
      (l2 & Hl2 & Hnd2 & Hall2).
    destruct (visit_once here (Idx i) val acc Hval) as (l1 & Hl1 & Hnd1 & Hall1).
    edestruct (addsBelow_next here (fun s => s = Idx i) (fun s => exists j, s = Idx j /\ S i <= j)
                acc (visit collectRemoteUrls_at here (Idx i) val acc))
      as (l & Hl & Hnd & Hbelow).
    + intros s -> (j & [= <-] & Hj). lia.
    + exists l1. split; [done|]. split; [done|].
      eapply Forall_impl; [exact Hall1|]. intros e (p & Hp). by exists (Idx i), p.
    + exists l2. split; [exact Hl2|]. by split.
    + exists l. split; [done|]. split; [done|].
      eapply Forall_impl; [exact Hbelow|]. intros e (s & p & [->|(j & -> & Hj)] & Hp).
      * exists (Idx i), p. split; [by exists i|done].
      * exists (Idx j), p. split; [exists j; split; [done|lia]|done].
Qed.

Lemma fold_once here fields : forall acc,
  Forall (fun kv => walksOnce (snd kv)) fields -> NoDup (map fst fields) ->
  exists l,
    fold_left (fun results kv =>
                 match kv with
                 | (key, val) => visit collectRemoteUrls_at here (Key key) val results
                 end) fields acc = acc ++ l /\
    NoDup (map set l) /\
    Forall (fun e => exists s p, (exists k, s = Key k /\ k ∈ map fst fields) /\
                                 set e = (here ++ [s]) ++ p) l.
Proof.
  induction fields as [|[k val] fields IH]; intros acc Hall Hkeys; cbn [fold_left].
  - exists []. rewrite app_nil_r. split; [done|]. split; constructor.
  - apply Forall_cons in Hall as [Hval Hall]. cbn [snd] in Hval.
    cbn [map fst] in Hkeys. apply NoDup_cons in Hkeys as [Hk Hkeys].
    destruct (IH (visit collectRemoteUrls_at here (Key k) val acc) Hall Hkeys) as
      (l2 & Hl2 & Hnd2 & Hall2).
    destruct (visit_once here (Key k) val acc Hval) as (l1 & Hl1 & Hnd1 & Hall1).
    edestruct (addsBelow_next here (fun s => s = Key k)
                (fun s => exists k', s = Key k' /\ k' ∈ map fst fields)
                acc (visit collectRemoteUrls_at here (Key k) val acc))
      as (l & Hl & Hnd & Hbelow).
    + by intros s -> (k' & [= <-] & Hk').
    + exists l1. split; [done|]. split; [done|].
      eapply Forall_impl; [exact Hall1|]. intros e (p & Hp). by exists (Key k), p.
    + exists l2. split; [exact Hl2|]. by split.
    + exists l. split; [done|]. split; [done|].
      eapply Forall_impl; [exact Hbelow|]. intros e (s & p & [->|(k' & -> & Hk')] & Hp).
      * exists (Key k), p. split; [exists k; split; [done|left]|done].
      * exists (Key k'), p. split; [exists k'; split; [done|by right]|done].
Qed.

Lemma collectRemoteUrls_at_once t : wf t -> walksOnce t.
Proof.
  induction t as [|b|q|v|items IH|fields IH] using json_ind; intros Hwf here acc;
    cbn [collectRemoteUrls_at].
  1-4: exists []; rewrite app_nil_r; split; [done|]; split; constructor.
  - apply wf_arr in Hwf.
    assert (Hall : Forall walksOnce items).
    { rewrite Forall_forall in IH, Hwf |- *. intros x Hx. apply IH; [done|]. by apply Hwf. }
    destruct (forIndex_once here items 0 acc Hall) as (l & Hl & Hnd & Hbelow).
    exists l. split; [done|]. split; [done|].
    eapply Forall_impl; [exact Hbelow|]. intros e (s & p & _ & Hp).
    exists (s :: p). by rewrite Hp, <- app_assoc.
  - apply wf_obj in Hwf as [Hkeys Hwf].
    assert (Hall : Forall (fun kv => walksOnce (snd kv)) fields).
    { rewrite Forall_forall in IH, Hwf |- *. intros x Hx. apply IH; [done|]. by apply Hwf. }
    destruct (fold_once here fields acc Hall Hkeys) as (l & Hl & Hnd & Hbelow).
    exists l. split; [done|]. split; [done|].
    eapply Forall_impl; [exact Hbelow|]. intros e (s & p & _ & Hp).
    exists (s :: p). by rewrite Hp, <- app_assoc.
Qed.

(** X4. For a parsed configuration (no object with a repeated key),
    [collectRemoteUrls] collects every reference once: no two entries name
    the same slot, and the reference with URL [u] and slot [p] is
    collected exactly when [p] is a slot of a container (not the root
    itself) that holds the string [u] and [u] starts with [http://] or
    [https://]. *)
Theorem collectRemoteUrls_exact (t : json) :
  wf t ->
  NoDup (map set (collectRemoteUrls t)) /\
  forall u p,
    Entry u p ∈ collectRemoteUrls t <->
    p <> [] /\ getAt p t = Some (JStr u) /\ isRemoteUrl u = true.
Proof.
  intros Hwf. split.
  - destruct (collectRemoteUrls_at_once t Hwf [] []) as (l & Hl & Hnd & _).
    unfold collectRemoteUrls. by rewrite Hl.
  - intros u p. exact (collectRemoteUrls_spec t (Entry u p) Hwf).
Qed.

(** [map.get(url)] *)
Fixpoint mapGet (u : string) (m : list (string * list path)) : option (list path) :=
  match m with
  | [] => None
  | (u', ss) :: rest => if String.eqb u' u then Some ss else mapGet u rest
  end.

Lemma mapGet_mapPush u s m u' :
  mapGet u' (mapPush u s m) =
  if String.eqb u u' then Some (default [] (mapGet u m) ++ [s]) else mapGet u' m.
Proof.
  induction m as [|[u0 ss0] m IH]; cbn [mapPush mapGet].
  - by destruct (String.eqb u u').
  - destruct (String.eqb u0 u) eqn:E0; cbn [mapGet].
    + apply String.eqb_eq in E0 as ->. by destruct (String.eqb u u').
    + destruct (String.eqb u0 u') eqn:E1.
      * apply String.eqb_eq in E1 as ->.
        rewrite String.eqb_sym in E0. by rewrite E0.
      * exact IH.
Qed.

Lemma mapGet_elem u ss m :
  NoDup (map fst m) -> (u, ss) ∈ m -> mapGet u m = Some ss.
Proof.
  induction m as [|[u0 ss0] m IH]; intros Hnd Hin; [by apply elem_of_nil in Hin|].
  cbn in Hnd. apply NoDup_cons in Hnd as [Hu0 Hnd]. cbn [mapGet].
  apply elem_of_cons in Hin as [[= <- <-]|Hin].
  - by rewrite String.eqb_refl.
  - destruct (String.eqb u0 u) eqn:E; [|by apply IH].
    apply String.eqb_eq in E as ->. exfalso. apply Hu0.
    apply list_elem_of_fmap. by exists (u, ss).
Qed.

Lemma deduplicateByUrl_mapGet u entries : forall m,
  default [] (mapGet u (fold_left (fun m e => mapPush (url e) (set e) m) entries m)) =
  default [] (mapGet u m) ++ map set (filter (fun e => url e = u) entries).
Proof.
  induction entries as [|[u0 s0] entries IH]; intros m; cbn [fold_left].
  - by rewrite app_nil_r.
  - rewrite IH, mapGet_mapPush, filter_cons. cbn [url set].
    destruct (String.eqb u0 u) eqn:E.
    + apply String.eqb_eq in E as ->. rewrite decide_True by done.
      cbn. by rewrite <- app_assoc.
    + apply String.eqb_neq in E. by rewrite decide_False.
Qed.

(** X5. [deduplicateByUrl] loses and invents nothing: the groups have
    pairwise different URLs, the group of a URL lists the setters of
    exactly the entries with that URL, in the order of the entries and as
    often as they occur, and every entry's URL has a group. *)
Theorem deduplicateByUrl_groups (entries : list entry) :
  NoDup (map fst (deduplicateByUrl entries)) /\
  (forall u ss, (u, ss) ∈ deduplicateByUrl entries ->
     ss = map set (filter (fun e => url e = u) entries)) /\
  (forall e, e ∈ entries -> url e ∈ map fst (deduplicateByUrl entries)).
Proof.
  destruct (deduplicateByUrl_spec entries) as [Hnd _].
  split; [done|]. split.
  - intros u ss Hin.
    pose proof (deduplicateByUrl_mapGet u entries []) as Hget.
    fold (deduplicateByUrl entries) in Hget.
    by rewrite (mapGet_elem u ss _ Hnd Hin) in Hget.
  - intros e He. destruct (deduplicateByUrl_covers entries e He) as [ss Hin].
    apply list_elem_of_fmap. by exists (url e, ss).
Qed.

(** *** What a run does to the directory and to the tree *)

Lemma uniqueFilename_not_on_disk (files : disk) (filename : string) (reserved : gset string) :
  files !! (uniqueFilename files filename reserved) = None.
Proof.
  destruct (uniqueFilename_spec files filename reserved) as (Hfree & _).
  apply not_elem_of_dom. intros Hin.
  assert (taken files reserved (uniqueFilename files filename reserved) = true)
    by (apply taken_elem; set_solver).
  congruence.
Qed.

Lemma deduplicateByUrl_key_entry entries u :
  u ∈ map fst (deduplicateByUrl entries) -> exists e, e ∈ entries /\ url e = u.
Proof.
  intros Hkey. destruct (deduplicateByUrl_spec entries) as [Hnd _].
  apply list_elem_of_fmap in Hkey as ([u' ss] & -> & Hin). cbn [fst].
  pose proof (deduplicateByUrl_mapGet u' entries []) as Hget.
  fold (deduplicateByUrl entries) in Hget.
  rewrite (mapGet_elem u' ss _ Hnd Hin) in Hget. cbn [default from_option mapGet app] in Hget.
  assert (Hne : ss <> []).
  { clear -Hin. unfold deduplicateByUrl in Hin.
    assert (Hall : Forall (fun g => g.2 <> []) ([] : list (string * list path)))
      by constructor.
    revert Hall Hin. generalize ([] : list (string * list path)).
    induction entries as [|e es IH]; intros m Hall Hin; cbn [fold_left] in Hin.
    - by apply (proj1 (Forall_forall _ _) Hall _ Hin).
    - apply (IH (mapPush (url e) (set e) m)); [|done].
      clear -Hall. induction Hall as [|[u0 ss0] m Hg Hall IHm]; cbn [mapPush].
      + by repeat constructor.
      + destruct (String.eqb u0 (url e)); constructor; try done.
        cbn. by destruct ss0. }
  destruct (filter (fun e => url e = u') entries) as [|e es] eqn:Ef;
    [cbn in Hget; congruence|].
  assert (He : e ∈ filter (fun e => url e = u') entries) by (rewrite Ef; left).
  apply list_elem_of_filter in He as [Hurl He]. by exists e.
Qed.

Section RunFacts.
Context `{Platform} (net : string -> exchange) (removed : string -> string -> bool)
        (relativeAssetsDir configName : string).

(** X8. A run never removes or overwrites a file that is already in the
    output directory, the configuration file apart: whatever the network
    answers and whenever the requested removals are carried out, every
    such file is there afterwards with the content it had.  The
    configuration file is a file of the output directory when
    [path.relative] returned the empty string, and it is then the one file
    of before the run that the run rewrites. *)
Theorem downloadAssets_keeps_existing_files (writeError : option string) (assets0 : disk)
    (t : json) (name content : string) :
  assets0 !! name = Some content ->
  (Js.truthy relativeAssetsDir = false -> name <> configName) ->
  assets (downloadAssets net removed relativeAssetsDir configName writeError assets0 t) !! name =
    Some content.
Proof.
  intros Hname Hconfig.
  destruct (decide (collectRemoteUrls t = [])) as [Hnil|Hne].
  { by rewrite (downloadAssets_none net removed relativeAssetsDir configName _ _ _ Hnil). }
  destruct (loop_sound net removed relativeAssetsDir assets0
              (deduplicateByUrl (collectRemoteUrls t)) (initial t assets0)
              (initial_sound t assets0)) as (_ & Hfree & Hsame).
  fold (final net removed relativeAssetsDir assets0 t) in Hfree, Hsame.
  assert (Hkeep : files (final net removed relativeAssetsDir assets0 t) !! name = Some content).
  { rewrite Hsame; [done|]. intros Hin. apply Hfree in Hin. congruence. }
  destruct (downloadAssets_some net removed relativeAssetsDir configName writeError assets0 t Hne)
    as (_ & _ & _ & Hrun).
  destruct (uncaught _); [by destruct Hrun as (_ & _ & _ & ->)|].
  destruct Hrun as [_ Hrun]. destruct writeError as [message|];
    destruct Hrun as (_ & _ & ->); [done|].
  unfold writeBack. destruct (Js.truthy relativeAssetsDir) eqn:Hdir; [done|].
  rewrite lookup_insert_ne; [done|]. intros <-. by apply Hconfig.
Qed.

Definition counted (s : loopState) : nat :=
  downloaded (loopStats s) + skipped (loopStats s) + length (errors (loopStats s)).

Lemma processUrl_counts s g :
  let s' := processUrl net removed relativeAssetsDir s g in
  uncaught s' = None ->
  counted s' = S (counted s) /\
  (length (fetches s) = downloaded (loopStats s) + length (errors (loopStats s)) ->
   length (fetches s') = downloaded (loopStats s') + length (errors (loopStats s'))).
Proof.
  destruct g as [u ss]. unfold processUrl, counted.
  destruct (uncaught s) eqn:Hs; [cbv zeta; congruence|].
  destruct (existsSync _ (localFilenameFromUrl u)); [cbn; lia|].
  destruct (downloadFile _ _ _ _) as [[|msg|msg] files' unl];
    cbn [loopStats downloaded skipped errors fetches uncaught];
    rewrite ?length_app; cbn [length]; try done; lia.
Qed.

Lemma loop_counts items : forall s,
  let s' := fold_left (processUrl net removed relativeAssetsDir) items s in
  uncaught s' = None ->
  counted s' = counted s + length items /\
  (length (fetches s) = downloaded (loopStats s) + length (errors (loopStats s)) ->
   length (fetches s') = downloaded (loopStats s') + length (errors (loopStats s'))).
Proof.
  induction items as [|g items IH]; intros s; cbn [fold_left length]; cbv zeta;
    intros Halive; [split; [lia|done]|].
  destruct (IH (processUrl net removed relativeAssetsDir s g) Halive) as [Hsum Hfetch].
  destruct (processUrl_counts s g
              (loop_alive net removed relativeAssetsDir items _ Halive)) as [Hsum1 Hfetch1].
  split; [lia|auto].
Qed.

Lemma loop_fetches_sublist items : forall s,
  exists l, fetches (fold_left (processUrl net removed relativeAssetsDir) items s) =
            fetches s ++ l /\
            l `sublist_of` map fst items.
Proof.
  induction items as [|[u ss] items IH]; intros s; cbn [fold_left].
  - exists []. by rewrite app_nil_r.
  - destruct (IH (processUrl net removed relativeAssetsDir s (u, ss))) as (l & -> & Hl).
    rewrite processUrl_fetches, <- app_assoc. eexists. split; [done|].
    cbn [map fst]. unfold fetchesOf. destruct (uncaught s); cbn [app].
    { by apply sublist_cons. }
    destruct (existsSync _ _); cbn [app].
    + by apply sublist_cons.
    + by apply sublist_skip.
Qed.

Lemma downloadAssets_fetched (writeError : option string) (assets0 : disk) (t : json) :
  fetched (downloadAssets net removed relativeAssetsDir configName writeError assets0 t)
    `sublist_of` map fst (deduplicateByUrl (collectRemoteUrls t)).
Proof.
  destruct (decide (collectRemoteUrls t = [])) as [Hnil|Hne].
  { rewrite (downloadAssets_none net removed relativeAssetsDir configName _ _ _ Hnil).
    apply sublist_nil_l. }
  destruct (downloadAssets_some net removed relativeAssetsDir configName writeError assets0 t Hne)
    as (-> & _).
  destruct (loop_fetches_sublist (deduplicateByUrl (collectRemoteUrls t))
              (initial t assets0)) as (l & Hl & Hsub).
  unfold final. by rewrite Hl.
Qed.

(** X9. The statistics of a run add up.  Every unique URL is counted
    once, as downloaded, as skipped or by one error message; the calls to
    [downloadFile] are the downloads plus the failures.  (A failure to
    write the configuration back adds one more message, so the sum is
    stated for a run whose write succeeds.)  A run that dies returns no
    statistics; it has called [downloadFile] for no more URLs than there
    are. *)
Theorem downloadAssets_accounting (writeError : option string) (assets0 : disk) (t : json) :
  let r := downloadAssets net removed relativeAssetsDir configName writeError assets0 t in
  let unique := length (deduplicateByUrl (collectRemoteUrls t)) in
  match returned r with
  | Some st =>
      length (fetched r) + skipped st = unique /\
      downloaded st <= length (fetched r) /\
      (writeError = None ->
       downloaded st + skipped st + length (errors st) = unique /\
       length (fetched r) = downloaded st + length (errors st))
  | None => length (fetched r) <= unique
  end.
Proof.
  cbv zeta.
  destruct (decide (collectRemoteUrls t = [])) as [Hnil|Hne].
  { rewrite (downloadAssets_none net removed relativeAssetsDir configName _ _ _ Hnil), Hnil.
    cbn. split; [done|]. split; done. }
  pose proof (downloadAssets_fetched writeError assets0 t) as Hsub.
  apply sublist_length in Hsub. rewrite length_map in Hsub.
  destruct (downloadAssets_some net removed relativeAssetsDir configName writeError assets0 t Hne)
    as (Hf & _ & _ & Hrun).
  destruct (uncaught (final net removed relativeAssetsDir assets0 t)) eqn:Halive.
  { destruct Hrun as (-> & _). exact Hsub. }
  destruct (loop_counts (deduplicateByUrl (collectRemoteUrls t)) (initial t assets0) Halive)
    as [Hsum Hfetch].
  fold (final net removed relativeAssetsDir assets0 t) in Hsum, Hfetch.
  unfold counted in Hsum. cbn [initial loopStats downloaded skipped errors fetches length] in *.
  specialize (Hfetch eq_refl). rewrite Hf.
  destruct Hrun as [_ Hrun]. destruct writeError as [message|]; destruct Hrun as (-> & _);
    cbn [downloaded skipped errors]; (split; [lia|split; [lia|]]); [done|].
  intros _. lia.
Qed.

(** X10. [downloadFile] is called only for URLs of the configuration: the
    URLs handed to it are unique URLs of the collected references, in the
    order of their first occurrence, each at most once; so every one of
    them is a remote URL stored in the tree.  (The requests that follow a
    redirect go to the URLs the servers name; they are made inside
    [downloadFile].) *)
Theorem downloadAssets_fetches_collected_urls (writeError : option string) (assets0 : disk)
    (t : json) :
  let r := downloadAssets net removed relativeAssetsDir configName writeError assets0 t in
  fetched r `sublist_of` map fst (deduplicateByUrl (collectRemoteUrls t)) /\
  NoDup (fetched r) /\
  (forall u, u ∈ fetched r -> exists e, e ∈ collectRemoteUrls t /\ url e = u).
Proof.
  cbv zeta. pose proof (downloadAssets_fetched writeError assets0 t) as Hsub.
  destruct (deduplicateByUrl_spec (collectRemoteUrls t)) as [Hnd Hgroups].
  split; [done|]. split; [by eapply sublist_NoDup|].
  intros u Hu. apply deduplicateByUrl_key_entry.
  by apply (elem_of_sublist _ _ u Hu Hsub).
Qed.

(** The tree a run starts from is changed only at the collected slots. *)
Lemma step_other_slots t s g p a :
  groupOk t g -> slotsStr t (config s) -> p ∉ map set (collectRemoteUrls t) ->
  skeleton (config (processUrl net removed relativeAssetsDir s g)) = skeleton (config s) /\
  (getAt p (config (processUrl net removed relativeAssetsDir s g)) = Some (JStr a) <->
   getAt p (config s) = Some (JStr a)).
Proof.
  destruct g as [u ss]. intros Hok Hstr Hnin. rewrite processUrl_config.
  destruct (resolution net removed relativeAssetsDir s u) as [r|]; [|done].
  pose proof (group_slots t _ u ss Hstr Hok) as Hslots. split.
  - by apply skeleton_callSetters.
  - rewrite (callSetters_getAt ss r _ Hslots p a).
    rewrite decide_False; [done|]. intros Hin. apply Hok in Hin. apply Hnin.
    apply list_elem_of_fmap. by eexists (Entry _ p).
Qed.

Lemma loop_other_slots t p a items : forall s,
  Forall (groupOk t) items -> slotsStr t (config s) -> p ∉ map set (collectRemoteUrls t) ->
  skeleton (config (fold_left (processUrl net removed relativeAssetsDir) items s)) =
    skeleton (config s) /\
  (getAt p (config (fold_left (processUrl net removed relativeAssetsDir) items s)) =
     Some (JStr a) <->
   getAt p (config s) = Some (JStr a)).
Proof.
  induction items as [|g items IH]; intros s Hok Hstr Hnin; cbn [fold_left]; [done|].
  apply Forall_cons in Hok as [Hg Hok].
  destruct (step_other_slots t s g p a Hg Hstr Hnin) as [Hsk Hget].
  destruct (IH (processUrl net removed relativeAssetsDir s g) Hok
              (step_slotsStr net removed relativeAssetsDir t s g Hg Hstr) Hnin) as [Hsk' Hget'].
  split; [congruence|]. by rewrite Hget'.
Qed.

Lemma loop_skeleton t items : forall s,
  Forall (groupOk t) items -> slotsStr t (config s) ->
  skeleton (config (fold_left (processUrl net removed relativeAssetsDir) items s)) =
    skeleton (config s).
Proof.
  induction items as [|[u ss] items IH]; intros s Hok Hstr; cbn [fold_left]; [done|].
  apply Forall_cons in Hok as [Hg Hok].
  rewrite (IH _ Hok (step_slotsStr net removed relativeAssetsDir t s _ Hg Hstr)).
  rewrite processUrl_config.
  destruct (resolution net removed relativeAssetsDir s u) as [r|]; [|done].
  apply skeleton_callSetters. by apply (group_slots t _ u ss Hstr Hg).
Qed.

(** What is written back is the tree the loop ends with. *)
Lemma downloadAssets_written (writeError : option string) (assets0 : disk) (t c : json) :
  c ∈ configWrites (downloadAssets net removed relativeAssetsDir configName
                      writeError assets0 t) ->
  c = config (final net removed relativeAssetsDir assets0 t) /\
  uncaught (final net removed relativeAssetsDir assets0 t) = None.
Proof.
  intros Hc.
  destruct (decide (collectRemoteUrls t = [])) as [Hnil|Hne].
  { rewrite (downloadAssets_none net removed relativeAssetsDir configName _ _ _ Hnil) in Hc.
    by apply elem_of_nil in Hc. }
  destruct (downloadAssets_some net removed relativeAssetsDir configName writeError assets0 t Hne)
    as (_ & _ & _ & Hrun).
  destruct (uncaught _).
  - destruct Hrun as (_ & Hw & _). rewrite Hw in Hc. by apply elem_of_nil in Hc.
  - destruct Hrun as [Hw _]. rewrite Hw in Hc. by apply list_elem_of_singleton in Hc as ->.
Qed.

(** X11. A run rewrites the collected references and nothing else.  The
    tree it writes back has the structure of the tree it read: the same
    containers, keys in the same order, array lengths, numbers, booleans
    and nulls, with strings where there were strings.  And a slot that was
    not collected holds the string it held, if any. *)
Theorem downloadAssets_rewrites_only_references (writeError : option string)
    (assets0 : disk) (t : json) :
  wf t ->
  forall c, c ∈ configWrites (downloadAssets net removed relativeAssetsDir configName
                                writeError assets0 t) ->
    skeleton c = skeleton t /\
    forall p a, p ∉ map set (collectRemoteUrls t) ->
      getAt p c = Some (JStr a) <-> getAt p t = Some (JStr a).
Proof.
  intros Hwf c Hc. apply downloadAssets_written in Hc as [-> _].
  assert (Hok : Forall (groupOk t) (deduplicateByUrl (collectRemoteUrls t))).
  { apply Forall_forall. intros g Hg. by apply groups_ok. }
  split.
  - apply (loop_skeleton t _ (initial t assets0) Hok (slotsStr_init t Hwf)).
  - intros p a Hnin.
    apply (loop_other_slots t p a _ (initial t assets0) Hok (slotsStr_init t Hwf) Hnin).
Qed.

(** A file stays where it is unless its removal has been requested. *)
Lemma processUrl_files_keep s g name content :
  files s !! name = Some content ->
  name ∉ unlinks (processUrl net removed relativeAssetsDir s g) ->
  files (processUrl net removed relativeAssetsDir s g) !! name = Some content.
Proof.
  destruct g as [u ss]. intros Hname. unfold processUrl.
  destruct (uncaught s); [done|].
  set (files0 := settle removed u s).
  set (filename := uniqueFilename files0 (localFilenameFromUrl u) (reservedFilenames s)).
  assert (Hsettled : name ∉ unlinks s -> files0 !! name = Some content).
  { intros Hnin. unfold files0. rewrite settle_lookup, decide_False; [done|]. by intros [? _]. }
  destruct (existsSync files0 (localFilenameFromUrl u)); [exact Hsettled|].
  destruct (doRequest_frame net u filename MAX_REDIRECTS false u files0) as (Hframe & _).
  fold (downloadFile net u filename files0) in Hframe.
  assert (Hkeep : name ∉ unlinks s ->
            directory (downloadFile net u filename files0) !! name = Some content).
  { intros Hnin. rewrite Hframe; [by apply Hsettled|]. intros ->.
    specialize (Hsettled Hnin). unfold filename in Hsettled.
    by rewrite uniqueFilename_not_on_disk in Hsettled. }
  destruct (downloadFile net u filename files0) as [[|msg|msg] files' unl];
    cbn [files unlinks directory] in *; try done.
  destruct unl; [|done]. intros Hnin. apply Hkeep. intros Hin. apply Hnin.
  apply elem_of_union. by right.
Qed.

Lemma processUrl_unlinks s g name :
  name ∈ unlinks s -> name ∈ unlinks (processUrl net removed relativeAssetsDir s g).
Proof.
  destruct g as [u ss]. intros Hin. unfold processUrl. destruct (uncaught s); [done|].
  destruct (existsSync _ (localFilenameFromUrl u)); [done|].
  destruct (downloadFile _ _ _ _) as [[|msg|msg] files' unl]; cbn [unlinks]; try done.
  destruct unl; [|done]. apply elem_of_union. by right.
Qed.

Lemma loop_unlinks items name : forall s,
  name ∈ unlinks s ->
  name ∈ unlinks (fold_left (processUrl net removed relativeAssetsDir) items s).
Proof.
  induction items as [|g items IH]; intros s Hin; cbn [fold_left]; [done|].
  by apply IH, processUrl_unlinks.
Qed.

Lemma loop_files_keep items name content : forall s,
  files s !! name = Some content ->
  name ∉ unlinks (fold_left (processUrl net removed relativeAssetsDir) items s) ->
  files (fold_left (processUrl net removed relativeAssetsDir) items s) !! name = Some content.
Proof.
  induction items as [|g items IH]; intros s Hname Hnin; cbn [fold_left] in *; [done|].
  apply IH; [|done]. apply processUrl_files_keep; [done|].
  intros Hin. by apply Hnin, loop_unlinks.
Qed.

(** The file behind the local path of a turn. *)
Lemma resolution_file s u ss r0 :
  resolution net removed relativeAssetsDir s u = Some r0 ->
  exists f, r0 = localRefOf relativeAssetsDir f /\ allSafe f = true /\
            is_Some (files (processUrl net removed relativeAssetsDir s (u, ss)) !! f).
Proof.
  unfold resolution, processUrl. destruct (uncaught s); [done|].
  set (files0 := settle removed u s).
  destruct (existsSync files0 (localFilenameFromUrl u)) eqn:E.
  - intros [= <-]. exists (localFilenameFromUrl u).
    split; [done|]. split; [apply allSafe_localFilenameFromUrl|].
    by apply bool_decide_eq_true in E.
  - set (filename := uniqueFilename files0 (localFilenameFromUrl u) (reservedFilenames s)).
    destruct (doRequest_frame net u filename MAX_REDIRECTS false u files0) as (_ & Hdest & _).
    fold (downloadFile net u filename files0) in Hdest.
    destruct (downloadFile net u filename files0) as [[|msg|msg] files' unl]; [|done|done].
    intros [= <-]. exists filename. split; [done|].
    split; [apply allSafe_uniqueFilename, allSafe_localFilenameFromUrl|].
    by apply Hdest.
Qed.

Lemma final_slot t assets0 e :
  wf t -> e ∈ collectRemoteUrls t ->
  let s := turnOf net removed relativeAssetsDir (url e) assets0 t in
  getAt (set e) (config (final net removed relativeAssetsDir assets0 t)) =
    Some (JStr (default (url e) (resolution net removed relativeAssetsDir s (url e)))) /\
  forall r0, resolution net removed relativeAssetsDir s (url e) = Some r0 ->
    exists f, r0 = localRefOf relativeAssetsDir f /\ allSafe f = true /\
              (f ∉ unlinks (final net removed relativeAssetsDir assets0 t) ->
               is_Some (files (final net removed relativeAssetsDir assets0 t) !! f)).
Proof.
  intros Hwf He s. set (u := url e) in *.
  destruct (deduplicateByUrl_spec (collectRemoteUrls t)) as [Hnd Hgroups].
  destruct (deduplicateByUrl_covers _ _ He) as [ss Hin]. fold u in Hin.
  destruct (before_split u ss _ Hnd Hin) as (post & Hsplit & Hb & Hp).
  assert (Hok : Forall (groupOk t) (deduplicateByUrl (collectRemoteUrls t))).
  { apply Forall_forall. intros g Hg. by apply groups_ok. }
  assert (Hfinal : final net removed relativeAssetsDir assets0 t =
            fold_left (processUrl net removed relativeAssetsDir) post
              (processUrl net removed relativeAssetsDir s (u, ss))).
  { unfold final. rewrite Hsplit at 1. by rewrite fold_left_app. }
  rewrite Hsplit in Hok. apply Forall_app in Hok as [Hokb Hokp].
  apply Forall_cons in Hokp as [Hoku Hokpost].
  split.
  - destruct (loop_uniform_other net removed relativeAssetsDir t Hwf u u
                (before u (deduplicateByUrl (collectRemoteUrls t)))
                (initial t assets0) Hokb Hb (slotsStr_init t Hwf) (uniform_init t Hwf u))
      as [Hstr1 Hu1].
    fold (turnOf net removed relativeAssetsDir u assets0 t) in Hstr1, Hu1. fold s in Hstr1, Hu1.
    pose proof (step_uniform_same net removed relativeAssetsDir t Hwf s u ss u Hoku Hstr1 Hu1)
      as Hu2.
    pose proof (step_slotsStr net removed relativeAssetsDir t s (u, ss) Hoku Hstr1) as Hstr2.
    destruct (loop_uniform_other net removed relativeAssetsDir t Hwf u _ post _
                Hokpost Hp Hstr2 Hu2) as [_ Hu3].
    rewrite Hfinal. by apply Hu3.
  - intros r0 Hres. destruct (resolution_file s u ss r0 Hres) as (f & -> & Hsafe & [content Hf]).
    exists f. split; [done|]. split; [done|]. rewrite Hfinal. intros Hnin.
    exists content. by apply loop_files_keep.
Qed.

(** X12. A run leaves no dangling reference, the partial files of
    downloads that failed while writing apart.  In the tree it writes
    back, a collected slot holds either its URL, unchanged, or the local
    path of a file whose name holds no path separator and which is in the
    output directory when the run ends, unless the run has asked for the
    removal of that file: the partial file of a failed download can be
    taken for a cached one by a later URL of the same derived name when
    the removal has not been carried out by then. *)
Theorem downloadAssets_local_refs_exist (writeError : option string) (assets0 : disk)
    (t : json) (e : entry) :
  wf t -> e ∈ collectRemoteUrls t ->
  let r := downloadAssets net removed relativeAssetsDir configName writeError assets0 t in
  forall c, c ∈ configWrites r ->
    getAt (set e) c = Some (JStr (url e)) \/
    exists f, getAt (set e) c = Some (JStr (localRefOf relativeAssetsDir f)) /\
              allSafe f = true /\
              (f ∉ unlinkRequests r -> is_Some (assets r !! f)).
Proof.
  intros Hwf He r c Hc.
  assert (Hne : collectRemoteUrls t <> []).
  { intros Hnil. rewrite Hnil in He. by apply elem_of_nil in He. }
  apply downloadAssets_written in Hc as [-> Halive].
  destruct (downloadAssets_some net removed relativeAssetsDir configName writeError assets0 t Hne)
    as (_ & Hu & _ & Hrun). fold r in Hu, Hrun. rewrite Halive in Hrun.
  destruct Hrun as [_ Hrun].
  assert (Ha : forall f, is_Some (files (final net removed relativeAssetsDir assets0 t) !! f) ->
                         is_Some (assets r !! f)).
  { intros f Hf. destruct writeError as [message|]; destruct Hrun as (_ & _ & ->); [done|].
    unfold writeBack. destruct (Js.truthy relativeAssetsDir); [done|].
    apply lookup_insert_is_Some. destruct (decide (configName = f)); auto. }
  destruct (final_slot t assets0 e Hwf He) as [Hslot Hfile]. cbv zeta in *.
  destruct (resolution _ _ _ _ _) as [r0|]; [|by left].
  destruct (Hfile r0 eq_refl) as (f & -> & Hsafe & Hf).
  right. exists f. split; [done|]. split; [done|]. rewrite Hu. intros Hnin. by apply Ha, Hf.
Qed.

End RunFacts.

(** *** A run without name collisions *)

Section DistinctNames.
Context `{Platform} (net : string -> exchange) (removed : string -> string -> bool)
        (relativeAssetsDir configName : string).
Context (body : string -> string) (assets0 : disk).

(** The directory after the files of the URLs in [processed] were saved
    under their derived names. *)
Definition saved (processed : list string) : disk :=
  fold_left (fun files u => <[localFilenameFromUrl u := body u]> files) processed assets0.

(** The loop state after the URLs in [processed] were each downloaded to
    the file with the derived name. *)
Definition allSaved (processed : list string) (s : loopState) : Prop :=
  files s = saved processed /\
  reservedFilenames s = list_to_set (map localFilenameFromUrl processed) /\
  loopStats s = Stats (length processed) 0 [] /\
  fetches s = processed /\
  unlinks s = ∅ /\ uncaught s = None.

Lemma saved_other processed name :
  name ∉ map localFilenameFromUrl processed -> saved processed !! name = assets0 !! name.
Proof.
  unfold saved. revert assets0.
  induction processed as [|u processed IH]; intros files0 Hnin; cbn [fold_left]; [done|].
  cbn in Hnin. apply not_elem_of_cons in Hnin as [Hne Hnin].
  rewrite (IH _ Hnin). by apply lookup_insert_ne.
Qed.

Lemma saved_file processed u :
  NoDup (map localFilenameFromUrl processed) -> u ∈ processed ->
  saved processed !! (localFilenameFromUrl u) = Some (body u).
Proof.
  unfold saved. revert assets0.
  induction processed as [|u0 processed IH]; intros files0 Hnd Hin; cbn [fold_left].
  - by apply elem_of_nil in Hin.
  - cbn in Hnd. apply NoDup_cons in Hnd as [Hu0 Hnd].
    apply elem_of_cons in Hin as [->|Hin]; [|by apply IH].
    clear IH. revert Hu0. generalize (localFilenameFromUrl u0) (body u0). intros name data Hu0.
    assert (Hgen : forall files1 : disk, files1 !! name = Some data ->
              fold_left (fun files u => <[localFilenameFromUrl u := body u]> files)
                processed files1 !! name = Some data).
    { clear -Hu0. induction processed as [|u1 processed IH]; intros files1 Hf; [done|].
      cbn in Hu0. apply not_elem_of_cons in Hu0 as [Hne Hu0]. cbn [fold_left].
      apply IH; [done|]. by rewrite lookup_insert_ne. }
    apply Hgen. by rewrite lookup_insert_eq.
Qed.

Lemma processUrl_saved processed s u ss :
  allSaved processed s ->
  localFilenameFromUrl u ∉ map localFilenameFromUrl processed ->
  assets0 !! (localFilenameFromUrl u) = None ->
  delivers net u (body u) ->
  allSaved (processed ++ [u]) (processUrl net removed relativeAssetsDir s (u, ss)) /\
  resolution net removed relativeAssetsDir s u =
    Some (localRefOf relativeAssetsDir (localFilenameFromUrl u)).
Proof.
  intros (Hfiles & Hreserved & Hstats & Hfetches & Hunlinks & Halive) Hfresh Hnone Hserve.
  set (raw := localFilenameFromUrl u) in *.
  pose proof (settle_none removed u s Hunlinks) as Hsettle.
  assert (Hdisk : files s !! raw = None).
  { rewrite Hfiles, saved_other by done. exact Hnone. }
  assert (Hexists : existsSync (files s) raw = false).
  { unfold existsSync. apply bool_decide_eq_false. rewrite Hdisk. by intros [? ?]. }
  assert (Htaken : taken (files s) (reservedFilenames s) raw = false).
  { unfold taken. rewrite Hexists. cbn [orb]. apply bool_decide_eq_false.
    rewrite Hreserved. by rewrite elem_of_list_to_set. }
  assert (Hname : uniqueFilename (files s) raw (reservedFilenames s) = raw).
  { by apply (uniqueFilename_spec (files s) raw (reservedFilenames s)). }
  assert (Hdl : downloadFile net u raw (files s) =
                Ending Resolved (<[raw := body u]> (files s)) false).
  { apply (doRequest_follow net u raw false MAX_REDIRECTS u [] (body u) (files s));
      [cbn; lia|done|done]. }
  split.
  - unfold processUrl, allSaved. fold raw. rewrite Halive, Hsettle, Hexists, Hname, Hdl.
    cbn [files reservedFilenames loopStats fetches unlinks uncaught].
    split; [|split; [|split; [|split]]].
    + rewrite Hfiles. unfold saved. by rewrite fold_left_app.
    + rewrite Hreserved, map_app, list_to_set_app_L. cbn [map list_to_set].
      fold raw. rewrite (comm_L (∪)). f_equal. by rewrite (right_id_L ∅ (∪)).
    + rewrite Hstats. cbn. rewrite length_app. cbn. f_equal. lia.
    + by rewrite Hfetches.
    + done.
  - unfold resolution. fold raw. by rewrite Halive, Hsettle, Hexists, Hname, Hdl.
Qed.

Lemma loop_saved items : forall processed s,
  allSaved processed s ->
  NoDup (map localFilenameFromUrl (processed ++ map fst items)) ->
  Forall (fun g => assets0 !! (localFilenameFromUrl (fst g)) = None /\
                   delivers net (fst g) (body (fst g))) items ->
  allSaved (processed ++ map fst items)
           (fold_left (processUrl net removed relativeAssetsDir) items s).
Proof.
  induction items as [|[u ss] items IH]; intros processed s Hs Hnd Hall; cbn [fold_left map fst].
  - by rewrite app_nil_r.
  - apply Forall_cons in Hall as [[Hnone Hserve] Hall]. cbn [map fst] in *.
    assert (Hcons : processed ++ u :: map fst items = (processed ++ [u]) ++ map fst items)
      by (by rewrite <- app_assoc).
    rewrite Hcons in Hnd |- *.
    apply IH; [|done|done].
    apply processUrl_saved; [done| |done|done].
    rewrite !map_app in Hnd. apply NoDup_app in Hnd as [Hnd _].
    apply NoDup_app in Hnd as (_ & Hdisj & _). intros Hin.
    apply (Hdisj _ Hin). cbn. left.
Qed.

(** X18. When nothing collides, a run does what it is for.  If no derived
    file name is in the output directory, different URLs have different
    derived names and every URL answers 2xx with its body, then every
    unique URL is fetched, in order, none is skipped, the body of each URL
    is stored under the name derived from that URL, and every reference is
    rewritten to the local path of that file.  (The configuration file is
    taken to be in the output directory when that is where it lies.) *)
Theorem downloadAssets_distinct_names (writeError : option string) (t : json) :
  wf t ->
  (Js.truthy relativeAssetsDir = false -> is_Some (assets0 !! configName)) ->
  (forall e, e ∈ collectRemoteUrls t ->
     assets0 !! (localFilenameFromUrl (url e)) = None /\
     delivers net (url e) (body (url e))) ->
  (forall e1 e2, e1 ∈ collectRemoteUrls t -> e2 ∈ collectRemoteUrls t ->
     localFilenameFromUrl (url e1) = localFilenameFromUrl (url e2) -> url e1 = url e2) ->
  let r := downloadAssets net removed relativeAssetsDir configName writeError assets0 t in
  fetched r = map fst (deduplicateByUrl (collectRemoteUrls t)) /\
  downloaded <$> returned r = Some (length (deduplicateByUrl (collectRemoteUrls t))) /\
  skipped <$> returned r = Some 0 /\
  forall e, e ∈ collectRemoteUrls t ->
    assets r !! (localFilenameFromUrl (url e)) = Some (body (url e)) /\
    Forall (fun c => getAt (set e) c =
                     Some (JStr (localRefOf relativeAssetsDir (localFilenameFromUrl (url e)))))
           (configWrites r).
Proof.
  intros Hwf Hpresent Hserve Hinj r.
  set (groups := deduplicateByUrl (collectRemoteUrls t)).
  destruct (deduplicateByUrl_spec (collectRemoteUrls t)) as [Hnd _]. fold groups in Hnd.
  assert (Hkeys : forall u, u ∈ map fst groups -> exists e, e ∈ collectRemoteUrls t /\ url e = u)
    by apply deduplicateByUrl_key_entry.
  assert (Hnames : NoDup (map localFilenameFromUrl (map fst groups))).
  { apply (NoDup_fmap_2_strong localFilenameFromUrl); [|done].
    intros u1 u2 Hu1 Hu2 Heq.
    destruct (Hkeys u1 Hu1) as (e1 & He1 & <-). destruct (Hkeys u2 Hu2) as (e2 & He2 & <-).
    by apply Hinj. }
  assert (Hall : forall items, items ⊆ groups ->
            Forall (fun g => assets0 !! (localFilenameFromUrl (fst g)) = None /\
                             delivers net (fst g) (body (fst g))) items).
  { intros items Hsub. apply Forall_forall. intros [u ss] Hg. cbn [fst].
    destruct (Hkeys u) as (e & He & <-); [|by apply Hserve].
    apply list_elem_of_fmap. exists (u, ss). split; [done|by apply Hsub]. }
  assert (Hinit : allSaved [] (initial t assets0)) by (by repeat split).
  destruct (decide (collectRemoteUrls t = [])) as [Hnil|Hne].
  { unfold r, groups.
    rewrite (downloadAssets_none net removed relativeAssetsDir configName
               writeError assets0 t Hnil).
    rewrite Hnil. cbn. split; [done|]. split; [done|]. split; [done|].
    intros e He. by apply elem_of_nil in He. }
  destruct (downloadAssets_some net removed relativeAssetsDir configName writeError assets0 t Hne)
    as (Hf & _ & _ & Hrun). fold r in Hf, Hrun.
  pose proof (loop_saved groups [] (initial t assets0) Hinit Hnames (Hall groups (reflexivity _)))
    as (Hfiles & _ & Hstats & Hfetches & _ & Halive).
  change (fold_left (processUrl net removed relativeAssetsDir) groups (initial t assets0))
    with (final net removed relativeAssetsDir assets0 t) in Hfiles, Hstats, Hfetches, Halive.
  cbn [app] in *. rewrite Halive in Hrun. destruct Hrun as [Hw Hrun].
  assert (Hret : downloaded <$> returned r = Some (length groups) /\
                 skipped <$> returned r = Some 0).
  { destruct writeError as [message|]; destruct Hrun as (-> & _); rewrite Hstats;
      cbn [fmap option_fmap option_map downloaded skipped]; by rewrite length_map. }
  destruct Hret as (Hd & Hs).
  rewrite Hf, Hfetches. split; [done|]. split; [done|]. split; [done|].
  intros e He. destruct (deduplicateByUrl_covers _ _ He) as [ss Hin]. fold groups in Hin.
  destruct (Hserve e He) as [Hnone _].
  split.
  - assert (Hfile : saved (map fst groups) !! localFilenameFromUrl (url e) = Some (body (url e))).
    { apply saved_file; [done|]. apply list_elem_of_fmap. by exists (url e, ss). }
    destruct writeError as [message|]; destruct Hrun as (_ & _ & ->); rewrite Hfiles; [done|].
    unfold writeBack. destruct (Js.truthy relativeAssetsDir) eqn:Hdir; [done|].
    rewrite lookup_insert_ne; [done|]. intros Heq.
    destruct (Hpresent eq_refl) as [content Hcontent]. congruence.
  - rewrite Hw. apply Forall_singleton.
    destruct (final_slot net removed relativeAssetsDir t assets0 e Hwf He) as [Hslot _].
    cbv zeta in Hslot. rewrite Hslot. do 2 f_equal.
    destruct (before_split (url e) ss groups Hnd Hin) as (post & Hsplit & Hb & Hp).
    assert (Hturn : allSaved (map fst (before (url e) groups))
                      (turnOf net removed relativeAssetsDir (url e) assets0 t)).
    { apply (loop_saved (before (url e) groups) [] (initial t assets0) Hinit).
      - cbn [app]. rewrite Hsplit in Hnames. rewrite !map_app in Hnames.
        by apply NoDup_app in Hnames as [Hnames _].
      - apply Hall. intros g Hg. rewrite Hsplit. apply elem_of_app. by left. }
    destruct (processUrl_saved _ _ (url e) ss Hturn) as [_ Hres].
    + rewrite Hsplit in Hnames. rewrite !map_app in Hnames.
      apply NoDup_app in Hnames as (_ & Hdisj & _). intros Hinb.
      apply (Hdisj _ Hinb). cbn. left.
    + by apply Hserve.
    + by apply Hserve.
    + by rewrite Hres.
Qed.

End DistinctNames.

(** *** Local paths are not remote URLs *)

(** In [p], a slash is the last character or is followed by a character
    that no file name holds. *)
Fixpoint slashThenUnsafe (p : string) : bool :=
  match p with
  | EmptyString => true
  | String a rest =>
      (if Ascii.eqb a "/"
       then match rest with
            | EmptyString => true
            | String b _ => negb (isSafeChar b)
            end
       else true) && slashThenUnsafe rest
  end.

Lemma prefix_safe p f :
  allSafe f = true -> String.prefix p f = true ->
  match p with
  | EmptyString => True
  | String b _ => isSafeChar b = true
  end.
Proof.
  destruct p as [|b p]; [done|]. destruct f as [|c f]; [done|].
  cbn [allSafe String.prefix]. intros [Hc _]%andb_true_iff.
  by destruct (ascii_dec b c) as [->|].
Qed.

Lemma prefix_nil_r p : String.prefix p EmptyString = true -> p = EmptyString.
Proof. by destruct p. Qed.

Lemma prefix_before_name p : forall d f,
  slashThenUnsafe p = true -> allSafe f = true ->
  String.prefix p (d +:+ "/" +:+ f) = true -> String.prefix p (d +:+ "/") = true.
Proof.
  induction p as [|a p IH]; intros d f Hp Hf Hpre; [by destruct d|].
  cbn [slashThenUnsafe] in Hp. apply andb_true_iff in Hp as [Ha Hp].
  destruct d as [|c d].
  - change (String.prefix (String a p) (String "/" f) = true) in Hpre.
    change (String.prefix (String a p) (String "/" EmptyString) = true).
    cbn [String.prefix] in Hpre |- *.
    destruct (ascii_dec a "/") as [->|]; [|done].
    change (Ascii.eqb "/" "/") with true in Ha. cbv iota in Ha.
    pose proof (prefix_safe p f Hf Hpre) as Hb.
    destruct p as [|b p]; [done|]. by rewrite Hb in Ha.
  - change (String.prefix (String a p) (String c (d +:+ "/" +:+ f)) = true) in Hpre.
    change (String.prefix (String a p) (String c (d +:+ "/")) = true).
    cbn [String.prefix] in Hpre |- *.
    destruct (ascii_dec a c); [|done]. by apply (IH d f).
Qed.

Lemma replaceBackslashes_app a b :
  replaceBackslashes (a +:+ b) = replaceBackslashes a +:+ replaceBackslashes b.
Proof.
  induction a as [|c a IH]; [done|].
  change (String (if Nat.eqb (nat_of_ascii c) 92 then "/"%char else c)
            (replaceBackslashes (a +:+ b)) =
          String (if Nat.eqb (nat_of_ascii c) 92 then "/"%char else c)
            (replaceBackslashes a +:+ replaceBackslashes b)).
  by rewrite IH.
Qed.

Lemma replaceBackslashes_safe f : allSafe f = true -> replaceBackslashes f = f.
Proof.
  induction f as [|c f IH]; [done|]. cbn [allSafe replaceBackslashes].
  intros [Hc Hf]%andb_true_iff. rewrite (IH Hf).
  destruct (Nat.eqb (nat_of_ascii c) 92) eqn:E; [|done].
  apply Nat.eqb_eq in E. apply (f_equal ascii_of_nat) in E.
  rewrite ascii_nat_embedding in E. subst c. done.
Qed.

Lemma prefix_allSafe p : forall f,
  allSafe f = true -> String.prefix p f = true -> allSafe p = true.
Proof.
  induction p as [|b p IH]; intros [|c f] Hf Hp; try done.
  cbn [allSafe String.prefix] in *. apply andb_true_iff in Hf as [Hc Hf].
  destruct (ascii_dec b c) as [->|]; [|done]. by rewrite Hc, (IH f Hf Hp).
Qed.

Lemma isRemoteUrl_name f : allSafe f = true -> isRemoteUrl f = false.
Proof.
  intros Hf. unfold isRemoteUrl, Js.startsWith. apply orb_false_iff. split.
  - destruct (String.prefix "http://" f) eqn:E; [|done].
    by apply (prefix_allSafe _ f Hf) in E.
  - destruct (String.prefix "https://" f) eqn:E; [|done].
    by apply (prefix_allSafe _ f Hf) in E.
Qed.

(** X27. The local paths a run writes are never taken for remote URLs.
    For every file name made of [[a-zA-Z0-9._-]], the reference built from
    the relative assets directory and the name does not start with
    [http://] or [https://], provided the directory followed by a slash
    does not (backslashes counted as slashes); with an empty relative
    directory nothing needs to be assumed. *)
Theorem localRefs_are_local (relativeAssetsDir : string) :
  (Js.truthy relativeAssetsDir = true ->
   isRemoteUrl (replaceBackslashes (relativeAssetsDir +:+ "/")) = false) ->
  localRefsAreLocal relativeAssetsDir.
Proof.
  intros Hdir f Hf. unfold localRefOf.
  destruct (Js.truthy relativeAssetsDir) eqn:Et.
  - specialize (Hdir eq_refl).
    rewrite !replaceBackslashes_app, (replaceBackslashes_safe f Hf).
    rewrite replaceBackslashes_app in Hdir.
    change (replaceBackslashes "/") with "/" in *.
    unfold isRemoteUrl, Js.startsWith in *.
    apply orb_false_iff in Hdir as [Hhttp Hhttps].
    apply orb_false_iff. split.
    + destruct (String.prefix "http://"
                  (replaceBackslashes relativeAssetsDir +:+ "/" +:+ f)) eqn:E; [|done].
      apply prefix_before_name in E; [congruence|reflexivity|exact Hf].
    + destruct (String.prefix "https://"
                  (replaceBackslashes relativeAssetsDir +:+ "/" +:+ f)) eqn:E; [|done].
      apply prefix_before_name in E; [congruence|reflexivity|exact Hf].
  - rewrite (replaceBackslashes_safe f Hf). by apply isRemoteUrl_name.
Qed.

(** *** A platform for the examples

    It agrees with Node.js on absolute [http], [https] and [ftp] URLs
    without escapes, dot segments or query-only references (the path
    starts at the first slash after the authority and stops at [?] or
    [#]), on Location headers that are such URLs, and on trees whose
    numbers are integers and whose strings hold no control character. *)
Module Example.

Fixpoint untilQuery (s : string) : string :=
  match s with
  | EmptyString => EmptyString
  | String c rest =>
      if Ascii.eqb c "?" || Ascii.eqb c "#" then EmptyString else String c (untilQuery rest)
  end.

Fixpoint fromSlash (s : string) : string :=
  match s with
  | EmptyString => "/"
  | String c rest => if Ascii.eqb c "/" then s else fromSlash rest
  end.

Definition pathnameOf (s : string) : option string :=
  if Js.startsWith "https://" s then Some (fromSlash (untilQuery (dropString 8 s)))
  else if Js.startsWith "http://" s then Some (fromSlash (untilQuery (dropString 7 s)))
  else if Js.startsWith "ftp://" s then Some (fromSlash (untilQuery (dropString 6 s)))
  else None.

Definition protocolOf (s : string) : string :=
  if Js.startsWith "https://" s then "https:"
  else if Js.startsWith "http://" s then "http:"
  else if Js.startsWith "ftp://" s then "ftp:"
  else EmptyString.

(** A string between double quotes, with a backslash before each
    backslash and each double quote of it. *)
Fixpoint escaped (s : string) : string :=
  match s with
  | EmptyString => EmptyString
  | String c rest =>
      if Nat.eqb (nat_of_ascii c) 34 || Nat.eqb (nat_of_ascii c) 92
      then String (ascii_of_nat 92) (String c (escaped rest))
      else String c (escaped rest)
  end.

Definition quotedText (s : string) : string := Js.dquote +:+ escaped s +:+ Js.dquote.

Fixpoint spaces (n : nat) : string :=
  match n with
  | O => EmptyString
  | S n' => String " " (spaces n')
  end.

Fixpoint joinLines (lines : list string) : string :=
  match lines with
  | [] => EmptyString
  | [line] => line
  | line :: rest => line +:+ "," +:+ newline +:+ joinLines rest
  end.

Fixpoint stringifyAt (indent : nat) (value : json) : string :=
  match value with
  | JNull => "null"
  | JBool b => if b then "true" else "false"
  | JNum q => pretty (Qnum q)
  | JStr s => quotedText s
  | JArr [] => "[]"
  | JArr items =>
      "[" +:+ newline +:+
      joinLines (map (fun item => spaces (2 + indent) +:+ stringifyAt (2 + indent) item) items)
      +:+ newline +:+ spaces indent +:+ "]"
  | JObj [] => "{}"
  | JObj fields =>
      "{" +:+ newline +:+
      joinLines (map (fun kv =>
                        match kv with
                        | (key, member) =>
                            spaces (2 + indent) +:+ quotedText key +:+ ": " +:+
                            stringifyAt (2 + indent) member
                        end) fields)
      +:+ newline +:+ spaces indent +:+ "}"
  end.

#[export] Instance node : Platform := {|
  urlPathname := pathnameOf;
  urlProtocol := protocolOf;
  urlResolve := fun location _ => Some location;
  decodeURIComponent := Some;
  stringify := stringifyAt 0;
|}.

(** The removals that were requested are carried out at once, or not
    before the run is over. *)
Definition atOnce (url name : string) : bool := true.
Definition notYet (url name : string) : bool := false.

Definition configJson : string := "site-config.json".

Example localFilename_image :
  localFilenameFromUrl "https://a.example/photos/image.jpg?w=10" = "image.jpg".
Proof. reflexivity. Qed.

Example localFilename_root :
  localFilenameFromUrl "https://a.example/" = "asset_" +:+ simpleHash "https://a.example/".
Proof. reflexivity. Qed.

Example simpleHash_abc : simpleHash "abc" = "22ci".
Proof. reflexivity. Qed.

Example uniqueFilename_free : uniqueFilename ∅ "image.jpg" ∅ = "image.jpg".
Proof. reflexivity. Qed.

Example uniqueFilename_reserved : uniqueFilename ∅ "image.jpg" {["image.jpg"]} = "image_2.jpg".
Proof. vm_compute. reflexivity. Qed.

Example stringify_object :
  stringify (JObj [("name", JStr "Camino"); ("tags", JArr [JStr "a"; JNum 2]); ("seo", JObj [])]) =
  "{" +:+ newline +:+
  "  " +:+ Js.dquote +:+ "name" +:+ Js.dquote +:+ ": " +:+
           Js.dquote +:+ "Camino" +:+ Js.dquote +:+ "," +:+ newline +:+
  "  " +:+ Js.dquote +:+ "tags" +:+ Js.dquote +:+ ": [" +:+ newline +:+
  "    " +:+ Js.dquote +:+ "a" +:+ Js.dquote +:+ "," +:+ newline +:+
  "    2" +:+ newline +:+
  "  ]," +:+ newline +:+
  "  " +:+ Js.dquote +:+ "seo" +:+ Js.dquote +:+ ": {}" +:+ newline +:+
  "}".
Proof. vm_compute. reflexivity. Qed.

(** A server described by a table; other hosts do not resolve. *)
Definition serve (table : list (string * exchange)) (u : string) : exchange :=
  default (RequestError "getaddrinfo ENOTFOUND")
          (snd <$> List.find (fun row => String.eqb (fst row) u) table).

(** Every URL answers 200 and its body is written in full. *)
Definition net200 (u : string) : exchange := Response 200 None (Finish ("body of " +:+ u)).

Definition logoUrl : string := "https://cdn.example/img/logo.png".

(** Three references to one URL, in different fields. *)
Definition tree3 : json :=
  JObj [("navigation", JObj [("logo", JStr logoUrl)]);
        ("sections", JArr [JObj [("type", JStr "hero");
                                 ("props", JObj [("backgroundImage", JStr logoUrl)])]]);
        ("footer", JObj [("logo", JStr logoUrl); ("copyright", JStr "2024")])].

Ltac solve_wf :=
  cbn;
  repeat match goal with
         | |- _ /\ _ => split
         | |- True => exact I
         | |- NoDup _ => apply (bool_decide_unpack _); vm_compute; exact I
         end.

Lemma tree3_wf : wf tree3.
Proof. solve_wf. Defined.

Lemma tree3_entries :
  collectRemoteUrls tree3 =
  [Entry logoUrl [Key "navigation"; Key "logo"];
   Entry logoUrl [Key "sections"; Idx 0; Key "props"; Key "backgroundImage"];
   Entry logoUrl [Key "footer"; Key "logo"]].
Proof. reflexivity. Defined.

Lemma assets_refs_local : localRefsAreLocal "assets".
Proof. intros f _. reflexivity. Defined.

Lemma logo_first (assets0 : disk) (net : string -> exchange) :
  turnOf net atOnce "assets" logoUrl assets0 tree3 = initial tree3 assets0.
Proof. reflexivity. Defined.

Lemma downloadAssets_one_url_witness :
  let r := downloadAssets net200 atOnce "assets" configJson None ∅ tree3 in
  count_occ string_dec (fetched r) logoUrl = 1 /\
  exists c, configWrites r = [c] /\
    forall e, e ∈ collectRemoteUrls tree3 -> url e = logoUrl ->
      getAt (set e) c = Some (JStr "assets/logo.png").
Proof.
  assert (Hex : exists e, e ∈ collectRemoteUrls tree3 /\ url e = logoUrl).
  { exists (Entry logoUrl [Key "navigation"; Key "logo"]).
    split; [rewrite tree3_entries; left|reflexivity]. }
  pose proof (downloadAssets_one_url net200 atOnce "assets" configJson None ∅ tree3 logoUrl
                tree3_wf Hex) as Hrun.
  cbv zeta in Hrun. rewrite logo_first in Hrun.
  specialize (Hrun (not_elem_of_empty (C:=gset string) _) eq_refl).
  match goal with |- ?G => exact (Hrun <: G) end.
Defined.

(** C1 as stated fails.  With three references to one URL whose file is
    already in the output directory, the run performs no network fetch for
    that URL, not exactly one; and with a server that cannot be reached
    the one fetch fails and no setter is called: the three slots keep the
    URL. *)
Lemma exactly_one_fetch_counterexample :
  let r := downloadAssets net200 atOnce "assets" configJson None
             {["logo.png" := "bytes of an earlier run"]} tree3 in
  let r' := downloadAssets (serve []) atOnce "assets" configJson None ∅ tree3 in
  length (collectRemoteUrls tree3) = 3 /\
  Forall (fun e => url e = logoUrl) (collectRemoteUrls tree3) /\
  fetched r = [] /\
  count_occ string_dec (fetched r) logoUrl <> 1 /\
  fetched r' = [logoUrl] /\
  configWrites r' = [tree3] /\
  Forall (fun e => getAt (set e) tree3 = Some (JStr logoUrl)) (collectRemoteUrls tree3).
Proof.
  cbv zeta. split; [reflexivity|]. split; [rewrite tree3_entries; by repeat constructor|].
  assert (Hf : fetched (downloadAssets net200 atOnce "assets" configJson None
                          {["logo.png" := "bytes of an earlier run"]} tree3) = [])
    by (vm_compute; reflexivity).
  split; [exact Hf|]. rewrite Hf. split; [cbn; lia|].
  split; [vm_compute; reflexivity|]. split; [vm_compute; reflexivity|].
  rewrite tree3_entries. by repeat constructor.
Qed.

(** When the download fails no setter is called: the slots keep the URL. *)
Example failed_download_keeps_url :
  let r := downloadAssets (serve []) atOnce "assets" configJson None ∅ tree3 in
  fetched r = [logoUrl] /\ configFile r = tree3 /\
  returned r =
    Some (Stats 0 0
            ["Failed to download https://cdn.example/img/logo.png: getaddrinfo ENOTFOUND"]).
Proof. vm_compute. done. Qed.

Lemma downloadAssets_idempotent_witness :
  let r1 := downloadAssets net200 atOnce "assets" configJson None ∅ tree3 in
  let r2 := downloadAssets (serve []) notYet "assets" configJson None
              (assets r1) (configFile r1) in
  errors <$> returned r1 = Some [] /\
  fetched r2 = [] /\ configWrites r2 = [] /\
  configFile r2 = configFile r1 /\ assets r2 = assets r1.
Proof.
  assert (Herr : errors <$> returned (downloadAssets net200 atOnce "assets" configJson
                                        None ∅ tree3) = Some [])
    by (vm_compute; reflexivity).
  split; [exact Herr|].
  exact (downloadAssets_idempotent net200 (serve []) atOnce notYet "assets" configJson
           None None ∅ tree3 tree3_wf assets_refs_local Herr).
Defined.

(** A server that sends the logo elsewhere, to a place that is not on the
    web. *)
Definition netFtp : string -> exchange :=
  serve [(logoUrl, Response 302 (Some "ftp://files.example/img/logo.png") (Finish EmptyString))].

(** C10 (the code departs from the claim).  The tree holds three
    references, so the configuration is to be written back whatever
    becomes of the downloads.  But the server answers with a redirect to
    an [ftp:] URL: [doRequest], called again from the response callback,
    hands it to [http.get], which throws; no [try] is around that call and
    the promise is not rejected either.  The process dies with the
    exception: the run returns nothing and the configuration is not
    written back. *)
Theorem redirect_outside_http_ends_the_run :
  let r := downloadAssets netFtp atOnce "assets" configJson None ∅ tree3 in
  length (collectRemoteUrls tree3) = 3 /\
  fetched r = [logoUrl] /\
  died r = Some (unsupportedProtocol "ftp:") /\
  returned r = None /\
  configWrites r = [] /\
  configFile r = tree3.
Proof. vm_compute. repeat split. Qed.

(** The same redirect answered to the first request of [downloadFile] is
    an exception in the response callback, not a rejection. *)
Example downloadFile_redirect_to_ftp :
  downloadFile netFtp logoUrl "logo.png" ∅ =
    Ending (Thrown (unsupportedProtocol "ftp:")) ∅ false /\
  downloadFile netFtp "ftp://files.example/img/logo.png" "logo.png" ∅ =
    Ending (Rejected (unsupportedProtocol "ftp:")) ∅ false.
Proof. vm_compute. done. Qed.

(** Two different URLs whose derived file name is [image.jpg]. *)
Definition urlA : string := "https://a.example/image.jpg".
Definition urlB : string := "https://b.example/photos/image.jpg".

Definition treeAB : json :=
  JObj [("hero", JObj [("image", JStr urlA)]);
        ("gallery", JArr [JStr urlB])].

(** C3 (the code departs from the claim).  With an empty output directory
    and both servers answering 200, the first URL is downloaded to
    [image.jpg]; for the second URL [uniqueFilename] does choose
    [image_2.jpg], but the cache check looks at the derived name
    [image.jpg], which now exists: the second URL is never fetched, no
    [image_2.jpg] is written, and both references are rewritten to the
    first URL's file. *)
Theorem collision_second_url_not_downloaded :
  let r := downloadAssets net200 atOnce "assets" configJson None ∅ treeAB in
  localFilenameFromUrl urlA = "image.jpg" /\
  localFilenameFromUrl urlB = "image.jpg" /\
  uniqueFilename (assets r) "image.jpg" {["image.jpg"]} = "image_2.jpg" /\
  fetched r = [urlA] /\
  assets r = {["image.jpg" := "body of " +:+ urlA]} /\
  assets r !! "image_2.jpg" = None /\
  configFile r = JObj [("hero", JObj [("image", JStr "assets/image.jpg")]);
                       ("gallery", JArr [JStr "assets/image.jpg"])] /\
  returned r = Some (Stats 1 1 []).
Proof. vm_compute. repeat split. Qed.

(** The first of the two downloads fails while the file is written.  When
    the removal of the partial file has not been carried out by the time
    the second URL is looked at, that file counts as its cached download:
    the second reference is rewritten to a file that is about to go. *)
Definition netWriteError : string -> exchange :=
  serve [(urlA, Response 200 None (WriteError "first bytes" "ENOSPC: no space left on device"));
         (urlB, Response 200 None (Finish ("body of " +:+ urlB)))].

Example partial_file_taken_for_cached :
  let r := downloadAssets netWriteError notYet "assets" configJson None ∅ treeAB in
  fetched r = [urlA] /\
  unlinkRequests r = {["image.jpg"]} /\
  configFile r = JObj [("hero", JObj [("image", JStr urlA)]);
                       ("gallery", JArr [JStr "assets/image.jpg"])] /\
  returned r = Some (Stats 0 1 ["Failed to download " +:+ urlA +:+
                                ": ENOSPC: no space left on device"]).
Proof. vm_compute. repeat split. Qed.

(** When the removal has been carried out by then, the second URL is
    downloaded, to the suffixed name. *)
Example partial_file_removed_in_time :
  let r := downloadAssets netWriteError atOnce "assets" configJson None ∅ treeAB in
  fetched r = [urlA; urlB] /\
  assets r = {["image_2.jpg" := "body of " +:+ urlB]} /\
  configFile r = JObj [("hero", JObj [("image", JStr urlA)]);
                       ("gallery", JArr [JStr "assets/image_2.jpg"])].
Proof. vm_compute. repeat split. Qed.

(** Three redirects, then the body. *)
Definition net3 : string -> exchange :=
  serve [("https://r.example/0", Response 302 (Some "https://r.example/1") (Finish EmptyString));
         ("https://r.example/1", Response 301 (Some "https://r.example/2") (Finish EmptyString));
         ("https://r.example/2", Response 307 (Some "https://r.example/3") (Finish EmptyString));
         ("https://r.example/3", Response 200 None (Finish "payload"))].

(** Six redirects, then the body. *)
Definition net6 : string -> exchange :=
  serve [("https://l.example/0", Response 302 (Some "https://l.example/1") (Finish EmptyString));
         ("https://l.example/1", Response 302 (Some "https://l.example/2") (Finish EmptyString));
         ("https://l.example/2", Response 302 (Some "https://l.example/3") (Finish EmptyString));
         ("https://l.example/3", Response 302 (Some "https://l.example/4") (Finish EmptyString));
         ("https://l.example/4", Response 302 (Some "https://l.example/5") (Finish EmptyString));
         ("https://l.example/5", Response 302 (Some "https://l.example/6") (Finish EmptyString));
         ("https://l.example/6", Response 200 None (Finish "payload"))].

Ltac solve_requestable := split; [eexists; reflexivity|reflexivity].

Ltac solve_redirects :=
  cbn [redirects];
  repeat match goal with
         | |- _ /\ _ => split
         | |- True => exact I
         | |- requestable _ => solve_requestable
         | |- exists _ _ _, _ => do 3 eexists; split; [reflexivity|]; split; [lia|]; split; reflexivity
         end.

Lemma downloadFile_redirect_limit_witness :
  downloadFile net3 "https://r.example/0" "file.bin" ∅ =
    Ending Resolved {["file.bin" := "payload"]} false /\
  downloadFile net6 "https://l.example/0" "file.bin" ∅ =
    Ending (Rejected "Too many redirects (>5) for URL: https://l.example/0") ∅ false.
Proof.
  split.
  - assert (Hred : redirects net3 "https://r.example/0"
                     ["https://r.example/1"; "https://r.example/2"; "https://r.example/3"])
      by solve_redirects.
    destruct (downloadFile_redirect_limit net3 "https://r.example/0" "file.bin" _ ∅ Hred)
      as [Hok _].
    apply Hok; [cbn; lia|]. split; [solve_requestable|].
    exists 200%Z, None. split; [reflexivity|lia].
  - assert (Hred : redirects net6 "https://l.example/0"
                     ["https://l.example/1"; "https://l.example/2"; "https://l.example/3";
                      "https://l.example/4"; "https://l.example/5"; "https://l.example/6"])
      by solve_redirects.
    destruct (downloadFile_redirect_limit net6 "https://l.example/0" "file.bin" _ ∅ Hred)
      as [_ Hfail].
    apply Hfail. cbn; lia.
Defined.

(** A server that sends the head of the body and then goes silent. *)
Definition netStall : string -> exchange :=
  serve [("https://slow.example/big.jpg", Response 200 None (Stall "first bytes"))].

Lemma downloadFile_timeout_keeps_partial_file_witness :
  downloadFile netStall "https://slow.example/big.jpg" "big.jpg" ∅ =
    Ending (Rejected "Timeout downloading https://slow.example/big.jpg")
           {["big.jpg" := "first bytes"]} false /\
  ({["big.jpg" := "first bytes"]} : disk) !! "big.jpg" = Some "first bytes".
Proof.
  apply (downloadFile_timeout_keeps_partial_file netStall "https://slow.example/big.jpg"
           "big.jpg" 200 None "first bytes" ∅).
  - solve_requestable.
  - reflexivity.
  - lia.
Defined.

(** On the next run the truncated file counts as the cached download. *)
Example truncated_file_is_reused :
  let tree := JObj [("hero", JObj [("image", JStr "https://slow.example/big.jpg")])] in
  let r1 := downloadAssets netStall atOnce "assets" configJson None ∅ tree in
  let r2 := downloadAssets netStall atOnce "assets" configJson None
              (assets r1) (configFile r1) in
  assets r1 = {["big.jpg" := "first bytes"]} /\
  unlinkRequests r1 = ∅ /\
  fetched r2 = [] /\
  configFile r2 = JObj [("hero", JObj [("image", JStr "assets/big.jpg")])] /\
  returned r2 = Some (Stats 0 1 []).
Proof. vm_compute. repeat split. Qed.

(** The collected references of [tree3] are its three logo slots; the
    copyright line is a string but no remote URL. *)
Lemma collectRemoteUrls_exact_witness :
  NoDup (map set (collectRemoteUrls tree3)) /\
  Entry logoUrl [Key "footer"; Key "logo"] ∈ collectRemoteUrls tree3 /\
  Entry "2024" [Key "footer"; Key "copyright"] ∉ collectRemoteUrls tree3.
Proof.
  destruct (collectRemoteUrls_exact tree3 tree3_wf) as [Hnd Hiff].
  split; [exact Hnd|]. split.
  - apply Hiff. split; [done|]. split; reflexivity.
  - intros Hin. apply Hiff in Hin as (_ & _ & Hremote). discriminate Hremote.
Defined.

(** A missing file, and a redirect that names no target. *)
Definition net404 : string -> exchange :=
  serve [("https://cdn.example/gone.png", Response 404 None (Finish "Not Found"));
         ("https://cdn.example/moved.png", Response 302 None (Finish EmptyString))].

Lemma downloadFile_http_error_witness :
  downloadFile net404 "https://cdn.example/gone.png" "gone.png" ∅ =
    Ending (Rejected "HTTP 404 when downloading https://cdn.example/gone.png") ∅ false /\
  downloadFile net404 "https://cdn.example/moved.png" "moved.png" ∅ =
    Ending (Rejected "HTTP 302 when downloading https://cdn.example/moved.png") ∅ false.
Proof.
  split.
  - apply (downloadFile_http_error net404 "https://cdn.example/gone.png" "gone.png"
             404 None (Finish "Not Found") ∅).
    + solve_requestable.
    + reflexivity.
    + lia.
  - apply (downloadFile_http_error net404 "https://cdn.example/moved.png" "moved.png"
             302 None (Finish EmptyString) ∅).
    + solve_requestable.
    + reflexivity.
    + right. right. split; [lia|reflexivity].
Defined.

(** A file of an earlier run survives a run that downloads the logo, also
    when the configuration file lies in the output directory: that file,
    and no other, is rewritten. *)
Lemma downloadAssets_keeps_existing_files_witness :
  let assets0 : disk := {["menu.pdf" := "the menu"; configJson := "{}"]} in
  let r := downloadAssets net200 atOnce EmptyString configJson None assets0 tree3 in
  assets r !! "menu.pdf" = Some "the menu" /\
  assets r !! configJson = Some (stringify (configFile r) +:+ newline) /\
  assets r !! configJson <> assets0 !! configJson.
Proof.
  cbv zeta. split; [|split].
  - apply (downloadAssets_keeps_existing_files net200 atOnce EmptyString configJson None
             {["menu.pdf" := "the menu"; configJson := "{}"]} tree3 "menu.pdf" "the menu").
    + reflexivity.
    + discriminate.
  - vm_compute. reflexivity.
  - vm_compute. discriminate.
Defined.

Lemma downloadAssets_rewrites_only_references_witness :
  let r := downloadAssets net200 atOnce "assets" configJson None ∅ tree3 in
  Forall (fun c => skeleton c = skeleton tree3 /\
                   getAt [Key "footer"; Key "copyright"] c = Some (JStr "2024"))
         (configWrites r).
Proof.
  intros r. apply Forall_forall. intros c Hc.
  destruct (downloadAssets_rewrites_only_references net200 atOnce "assets" configJson None ∅
              tree3 tree3_wf c Hc) as [Hsk Hget].
  split; [exact Hsk|]. apply Hget; [|reflexivity].
  rewrite tree3_entries. apply (bool_decide_unpack _). vm_compute. exact I.
Defined.

Lemma downloadAssets_local_refs_exist_witness :
  let r := downloadAssets net200 atOnce "assets" configJson None ∅ tree3 in
  Forall (fun c =>
            getAt [Key "footer"; Key "logo"] c = Some (JStr logoUrl) \/
            exists f, getAt [Key "footer"; Key "logo"] c = Some (JStr (localRefOf "assets" f)) /\
                      allSafe f = true /\
                      (f ∉ unlinkRequests r -> is_Some (assets r !! f)))
         (configWrites r).
Proof.
  assert (He : Entry logoUrl [Key "footer"; Key "logo"] ∈ collectRemoteUrls tree3).
  { rewrite tree3_entries. right. right. left. }
  apply Forall_forall.
  exact (downloadAssets_local_refs_exist net200 atOnce "assets" configJson None ∅ tree3
           (Entry logoUrl [Key "footer"; Key "logo"]) tree3_wf He).
Defined.

(** Two URLs with different derived names. *)
Definition treeTwo : json :=
  JObj [("hero", JObj [("image", JStr urlA)]);
        ("footer", JObj [("logo", JStr logoUrl)])].

Lemma downloadAssets_distinct_names_witness :
  let r := downloadAssets net200 atOnce "assets" configJson None ∅ treeTwo in
  downloaded <$> returned r = Some 2 /\ skipped <$> returned r = Some 0 /\
  assets r !! "logo.png" = Some ("body of " +:+ logoUrl) /\
  Forall (fun c => getAt [Key "footer"; Key "logo"] c = Some (JStr "assets/logo.png"))
         (configWrites r).
Proof.
  assert (Hentries : collectRemoteUrls treeTwo =
            [Entry urlA [Key "hero"; Key "image"]; Entry logoUrl [Key "footer"; Key "logo"]])
    by reflexivity.
  assert (Hwf : wf treeTwo) by solve_wf.
  assert (Hserve : forall e, e ∈ collectRemoteUrls treeTwo ->
            (∅ : disk) !! (localFilenameFromUrl (url e)) = None /\
            delivers net200 (url e) ("body of " +:+ url e)).
  { intros e He. split; [apply lookup_empty|]. rewrite Hentries in He.
    apply elem_of_cons in He as [->|He];
      [|apply elem_of_cons in He as [->|He]; [|by apply elem_of_nil in He]];
      (split; [solve_requestable|]; exists 200%Z, None; split; [reflexivity|lia]). }
  assert (Hinj : forall e1 e2, e1 ∈ collectRemoteUrls treeTwo -> e2 ∈ collectRemoteUrls treeTwo ->
            localFilenameFromUrl (url e1) = localFilenameFromUrl (url e2) -> url e1 = url e2).
  { intros e1 e2 H1 H2. rewrite Hentries in H1, H2.
    apply elem_of_cons in H1 as [->|H1];
      [|apply elem_of_cons in H1 as [->|H1]; [|by apply elem_of_nil in H1]];
      (apply elem_of_cons in H2 as [->|H2];
       [|apply elem_of_cons in H2 as [->|H2]; [|by apply elem_of_nil in H2]]);
      intros Hname; try reflexivity; vm_compute in Hname; discriminate Hname. }
  destruct (downloadAssets_distinct_names net200 atOnce "assets" configJson
              (fun u => "body of " +:+ u) ∅ None treeTwo Hwf ltac:(discriminate) Hserve Hinj)
    as (_ & Hd & Hs & Hall).
  split; [exact Hd|]. split; [exact Hs|].
  destruct (Hall (Entry logoUrl [Key "footer"; Key "logo"])) as [Hfile Hslot].
  { rewrite Hentries. right. left. }
  split; [exact Hfile|exact Hslot].
Defined.

Lemma uniqueFilename_keeps_extension_witness :
  basenameNoExt "menu.2024.pdf" +:+ extname "menu.2024.pdf" = "menu.2024.pdf" /\
  extname (uniqueFilename ∅ "menu.2024.pdf" {["menu.2024.pdf"]}) = ".pdf".
Proof.
  exact (uniqueFilename_keeps_extension ∅ "menu.2024.pdf" {["menu.2024.pdf"]} eq_refl).
Defined.

Lemma localRefs_are_local_witness :
  isRemoteUrl (localRefOf "assets" "logo.png") = false /\
  isRemoteUrl (localRefOf EmptyString "logo.png") = false.
Proof.
  split.
  - exact (localRefs_are_local "assets" (fun _ => eq_refl) "logo.png" eq_refl).
  - apply (localRefs_are_local EmptyString); [discriminate|reflexivity].
Defined.

End Example.

End Download.

(** ** The schema library

    The part of Zod the pipeline uses, with the parsing rules of the
    library: a failed type check aborts a schema, a failed length, bound or
    refinement check only records an issue; objects and arrays parse every
    member and collect the issues in order; a union returns its first valid
    option, else its first option that only has recorded issues, else one
    [invalid_union] issue; a refinement is skipped when its schema aborts. *)

Module Zod.
Import Json.

Inductive issueCode : Type :=
  | invalid_type | invalid_literal | invalid_enum_value | invalid_union
  | too_small | too_big | invalid_string | custom.

(** The message of an issue: the text given in the schema, or the text the
    library generates for the code. *)
Inductive message : Type :=
  | Text (s : string)
  | DefaultMessage (code : issueCode).

Record issue : Type := Issue {
  code : issueCode;
  ipath : path;
  imessage : message;
}.

Inductive stringCheck : Type :=
  | Trim
  | Min (n : nat) (msg : string)
  | Email (msg : string).

Inductive numberCheck : Type :=
  | NMin (q : Q)
  | NMax (q : Q).

#[local] Unset Elimination Schemes.
Inductive schema : Type :=
  | ZString (checks : list stringCheck)
  | ZNumber (checks : list numberCheck)
  | ZBoolean
  | ZAny
  | ZLiteral (q : Q)
  | ZEnum (values : list string)
  | ZArray (element : schema) (minLength maxLength : option (nat * string))
  | ZObject (shape : list (string * schema))
  | ZRecord (keySchema valueSchema : schema)
  | ZUnion (options : list schema)
  | ZOptional (inner : schema)
  | ZRefine (inner : schema) (check : json -> bool) (msg : string) (at_ : path).
#[local] Set Elimination Schemes.

(** A parse: whether it aborted, the output value ([None] is [undefined])
    and the issues it added, in order. *)
Record result : Type := Result {
  aborted : bool;
  value : option json;
  issues : list issue;
}.

Definition invalid (c : issueCode) (here : path) : result :=
  Result true None [Issue c here (DefaultMessage c)].

Definition isValid (r : result) : bool :=
  negb (aborted r) && bool_decide (length (issues r) = 0).

Definition isDirty (r : result) : bool :=
  negb (aborted r) && negb (bool_decide (length (issues r) = 0)).

(** The regular expression behind [z.string().email()]. *)
Class Library : Type := { isEmail : string -> bool }.

Fixpoint runStringChecks `{Library} (checks : list stringCheck) (here : path)
    (data : string) (acc : list issue) : string * list issue :=
  match checks with
  | [] => (data, acc)
  | Trim :: rest => runStringChecks rest here (Js.trim data) acc
  | Min n msg :: rest =>
      runStringChecks rest here data
        (if Nat.ltb (String.length data) n then acc ++ [Issue too_small here (Text msg)]
         else acc)
  | Email msg :: rest =>
      runStringChecks rest here data
        (if isEmail data then acc else acc ++ [Issue invalid_string here (Text msg)])
  end.

Definition runNumberCheck (here : path) (q : Q) (c : numberCheck) : list issue :=
  match c with
  | NMin m => if Qle_bool m q then [] else [Issue too_small here (DefaultMessage too_small)]
  | NMax m => if Qle_bool q m then [] else [Issue too_big here (DefaultMessage too_big)]
  end.

Definition lengthIssues (here : path) (n : nat) (minLength maxLength : option (nat * string))
  : list issue :=
  match minLength with
  | Some (m, msg) => if Nat.ltb n m then [Issue too_small here (Text msg)] else []
  | None => []
  end ++
  match maxLength with
  | Some (m, msg) => if Nat.ltb m n then [Issue too_big here (Text msg)] else []
  | None => []
  end.

Definition outputField (kr : string * result) : option (string * json) :=
  match value (snd kr) with
  | Some v => Some (fst kr, v)
  | None => None
  end.

Fixpoint parse `{Library} (s : schema) (here : path) (input : option json) : result :=
  match s with
  | ZString checks =>
      match input with
      | Some (JStr v) =>
          match runStringChecks checks here v [] with
          | (data, iss) => Result false (Some (JStr data)) iss
          end
      | _ => invalid invalid_type here
      end
  | ZNumber checks =>
      match input with
      | Some (JNum q) => Result false input (concat (map (runNumberCheck here q) checks))
      | _ => invalid invalid_type here
      end
  | ZBoolean =>
      match input with
      | Some (JBool _) => Result false input []
      | _ => invalid invalid_type here
      end
  | ZAny => Result false input []
  | ZLiteral q =>
      match input with
      | Some (JNum q') => if Qeq_bool q' q then Result false input []
                          else invalid invalid_literal here
      | _ => invalid invalid_literal here
      end
  | ZEnum values =>
      match input with
      | Some (JStr v) => if bool_decide (v ∈ values) then Result false input []
                         else invalid invalid_enum_value here
      | _ => invalid invalid_type here
      end
  | ZArray element minLength maxLength =>
      match input with
      | Some (JArr items) =>
          let rs := imap (fun i x => parse element (here ++ [Idx i]) (Some x)) items in
          Result (existsb aborted rs)
                 (Some (JArr (map (fun r => default JNull (value r)) rs)))
                 (lengthIssues here (length items) minLength maxLength ++
                  concat (map issues rs))
      | _ => invalid invalid_type here
      end
  | ZObject shape =>
      match input with
      | Some (JObj fields) =>
          let rs := map (fun kv => match kv with
                                   | (k, sch) => (k, parse sch (here ++ [Key k]) (field k fields))
                                   end) shape in
          Result (existsb (fun kr => aborted (snd kr)) rs)
                 (Some (JObj (omap outputField rs)))
                 (concat (map (fun kr => issues (snd kr)) rs))
      | _ => invalid invalid_type here
      end
  | ZRecord keySchema valueSchema =>
      match input with
      | Some (JObj fields) =>
          let rs := map (fun kv => match kv with
                                   | (k, v) =>
                                       (parse keySchema (here ++ [Key k]) (Some (JStr k)),
                                        parse valueSchema (here ++ [Key k]) (Some v))
                                   end) fields in
          Result (existsb (fun kr => aborted (fst kr) || aborted (snd kr)) rs)
                 (Some (JObj (omap (fun kr =>
                                      match value (fst kr), value (snd kr) with
                                      | Some (JStr k), Some v => Some (k, v)
                                      | _, _ => None
                                      end) rs)))
                 (concat (map (fun kr => issues (fst kr) ++ issues (snd kr)) rs))
      | _ => invalid invalid_type here
      end
  | ZUnion options =>
      let rs := map (fun o => parse o here input) options in
      match List.find isValid rs with
      | Some r => r
      | None =>
          match List.find isDirty rs with
          | Some r => r
          | None => invalid invalid_union here
          end
      end
  | ZOptional inner =>
      match input with
      | None => Result false None []
      | Some _ => parse inner here input
      end
  | ZRefine inner check msg at_ =>
      let r := parse inner here input in
      if aborted r then r
      else if check (default JNull (value r)) then r
      else Result false (value r) (issues r ++ [Issue custom (here ++ at_) (Text msg)])
  end.

(** [schema.safeParse(data)]: [success] with the output, or the issues. *)
Inductive parsed : Type :=
  | Success (data : json)
  | Failure (issues : list issue).

Definition safeParse `{Library} (s : schema) (data : json) : parsed :=
  let r := parse s [] (Some data) in
  if isValid r then Success (default JNull (value r)) else Failure (issues r).

(** [issue.path.join('.')] *)
Definition pathElement (s : step) : string :=
  match s with
  | Key k => k
  | Idx i => pretty i
  end.

Fixpoint joinDot (parts : list string) : string :=
  match parts with
  | [] => EmptyString
  | [x] => x
  | x :: rest => x +:+ "." +:+ joinDot rest
  end.

Definition joinPath (p : path) : string := joinDot (map pathElement p).

(** A JavaScript value used as a condition. *)
Definition truthy (v : option json) : bool :=
  match v with
  | None | Some JNull => false
  | Some (JBool b) => b
  | Some (JNum q) => negb (Qeq_bool q 0)
  | Some (JStr s) => Js.truthy s
  | Some (JArr _) | Some (JObj _) => true
  end.

(** [data.k] on a parsed object. *)
Definition member (k : string) (data : json) : option json :=
  match data with
  | JObj fields => field k fields
  | _ => None
  end.

End Zod.

(** ** pipeline/schemas.js *)

Module Schemas.
Import Json Zod.
Import Download (Platform, urlPathname).

Section Registry.
Context `{Platform} `{Library}.

Definition optional : schema -> schema := ZOptional.
Definition array (element : schema) : schema := ZArray element None None.
Definition arrayMin (element : schema) (n : nat) (msg : string) : schema :=
  ZArray element (Some (n, msg)) None.
Definition number : schema := ZNumber [].
Definition numberBetween (lo hi : Z) : schema := ZNumber [NMin (inject_Z lo); NMax (inject_Z hi)].
Definition boolean : schema := ZBoolean.
Definition quoted (s : string) : string := Js.dquote +:+ s +:+ Js.dquote.

(** *** Base string validators *)

Definition nonEmptyString : schema := ZString [Trim; Min 1 "Must not be empty"].

(** [s.includes(' ')] and [s.includes('/')] are [Js.includesChar]. *)
Definition urlStringCheck (data : json) : bool :=
  match data with
  | JStr val =>
      if Js.startsWith "/" val || Js.startsWith "./" val || Js.startsWith "../" val then true
      else if Js.startsWith "assets/" val || Js.startsWith "public/" val then true
      else if Js.startsWith "data:" val then true
      else if Js.includesChar "/" val && negb (Js.includesChar " " val) &&
              negb (Js.startsWith "http" val) then true
      else bool_decide (is_Some (urlPathname val))
  | _ => false
  end.

Definition urlString : schema :=
  ZRefine (ZString [Trim; Min 1 "URL must not be empty"]) urlStringCheck
          "Must be a valid URL or relative path" [].

Definition optionalUrlString : schema := optional urlString.

(** *** Reusable schemas *)

Definition hasKeys (data : json) : bool :=
  match data with
  | JObj fields => Nat.ltb 0 (length fields)
  | _ => false
  end.

Definition LocalizedTextSchema : schema :=
  ZUnion [ZString [Trim; Min 1 "Text must not be empty"];
          ZRefine (ZRecord (ZString [Min 1 "Language key must not be empty"])
                           (ZString [Trim; Min 1 "Localized text must not be empty"]))
                  hasKeys "Must have at least one language" []].

Definition anchorOrHref (data : json) : bool :=
  truthy (member "anchor" data) || truthy (member "href" data).

Definition CtaButtonSchema : schema :=
  ZRefine
    (ZObject [("label", LocalizedTextSchema);
              ("anchor", optional (ZString [Trim; Min 1 "Anchor must not be empty"]));
              ("href", optional urlString);
              ("variant", optional (ZEnum ["primary"; "outline"; "gold"; "secondary"]));
              ("icon", optional (ZString [Trim; Min 1 "Icon must not be empty"]));
              ("iconPosition", optional (ZEnum ["left"; "right"]))])
    anchorOrHref
    ("Either " +:+ quoted "anchor" +:+ " or " +:+ quoted "href" +:+ " must be provided") [].

Definition SocialLinkSchema : schema :=
  ZObject [("platform", nonEmptyString);
           ("url", urlString);
           ("label", optional (ZString [Trim; Min 1 "Label must not be empty"]))].

(** *** Section props schemas *)

Definition heroStatsItem : schema :=
  ZObject [("value", nonEmptyString);
           ("label", LocalizedTextSchema);
           ("icon", optional nonEmptyString)].

(** The fields of the hero schema before [stats]. *)
Definition heroFields (overlayColor : schema) : list (string * schema) :=
  [("backgroundImage", optionalUrlString);
   ("backgroundBlur", optional (ZEnum ["none"; "sm"; "md"; "lg"]));
   ("overlayColor", optional overlayColor);
   ("overlayOpacity", optional (numberBetween 0 100));
   ("title", LocalizedTextSchema);
   ("subtitle", optional LocalizedTextSchema);
   ("badge", optional LocalizedTextSchema);
   ("quote", optional (ZObject [("text", LocalizedTextSchema);
                                ("author", optional nonEmptyString)]));
   ("cta", optional (array CtaButtonSchema));
   ("overlayGradient", optional boolean);
   ("scrollIndicator", optional boolean);
   ("scrollTarget", optional nonEmptyString);
   ("profileImage", optionalUrlString);
   ("ratingBadge", optional (ZObject [("score", nonEmptyString);
                                      ("label", LocalizedTextSchema)]));
   ("layout", optional (ZEnum ["centered"; "split"]))].

Definition HeroPropsSchema : schema :=
  ZObject (heroFields (ZString []) ++
           [("stats", optional (array heroStatsItem))]).

Definition ServiceItemSchema : schema :=
  ZObject [("icon", optional nonEmptyString);
           ("title", LocalizedTextSchema);
           ("description", LocalizedTextSchema);
           ("features", optional (array LocalizedTextSchema))].

Definition ServiceGroupSchema : schema :=
  ZObject [("title", LocalizedTextSchema);
           ("image", optionalUrlString);
           ("services", array ServiceItemSchema)].

Definition servicesOrGroups (data : json) : bool :=
  truthy (member "services" data) || truthy (member "groups" data).

Definition ServicesPropsSchema : schema :=
  ZRefine
    (ZObject [("label", optional LocalizedTextSchema);
              ("title", LocalizedTextSchema);
              ("subtitle", optional LocalizedTextSchema);
              ("services", optional (array ServiceItemSchema));
              ("groups", optional (array ServiceGroupSchema));
              ("tags", optional (array (ZObject [("label", LocalizedTextSchema)])));
              ("cardSize", optional (ZEnum ["compact"; "normal"; "large"]));
              ("columns", optional (ZUnion [ZLiteral 2; ZLiteral 3; ZLiteral 4]));
              ("highlight", optional (ZObject
                 [("title", LocalizedTextSchema);
                  ("description", optional LocalizedTextSchema);
                  ("image", optionalUrlString);
                  ("tags", optional (array LocalizedTextSchema));
                  ("stats", optional (array (ZObject [("value", nonEmptyString);
                                                      ("label", LocalizedTextSchema)])));
                  ("cta", optional (ZObject
                     [("label", LocalizedTextSchema);
                      ("anchor", optional nonEmptyString);
                      ("href", optionalUrlString);
                      ("icon", optional nonEmptyString);
                      ("iconPosition", optional (ZEnum ["left"; "right"]))]))]))])
    servicesOrGroups
    ("Either " +:+ quoted "services" +:+ " or " +:+ quoted "groups" +:+ " must be provided") [].

Definition GalleryItemSchema : schema :=
  ZObject [("src", urlString);
           ("alt", optional LocalizedTextSchema);
           ("title", optional LocalizedTextSchema);
           ("location", optional LocalizedTextSchema);
           ("category", optional LocalizedTextSchema)].

Definition GalleryPropsSchema : schema :=
  ZObject [("label", optional LocalizedTextSchema);
           ("title", LocalizedTextSchema);
           ("subtitle", optional LocalizedTextSchema);
           ("items", arrayMin GalleryItemSchema 1 "Gallery must have at least one item");
           ("columns", optional number);
           ("aspectRatio", optional (ZEnum ["4:3"; "1:1"; "3:4"; "16:9"]));
           ("maxInitialItems", optional number);
           ("loadMoreLabel", optional LocalizedTextSchema);
           ("layout", optional (ZEnum ["grid"; "strip"]));
           ("thumbnailSize", optional (ZEnum ["sm"; "md"; "lg"]))].

Definition AboutPropsSchema : schema :=
  ZObject [("label", optional LocalizedTextSchema);
           ("title", LocalizedTextSchema);
           ("content", arrayMin LocalizedTextSchema 1
                         "About section must have at least one content paragraph");
           ("image", optionalUrlString);
           ("imagePosition", optional (ZEnum ["left"; "right"]));
           ("floatingCard", optional (ZObject [("icon", optional nonEmptyString);
                                               ("label", LocalizedTextSchema);
                                               ("text", LocalizedTextSchema)]));
           ("stats", optional (array (ZObject [("icon", optional nonEmptyString);
                                               ("label", LocalizedTextSchema);
                                               ("value", nonEmptyString)])));
           ("quote", optional (ZObject [("text", LocalizedTextSchema);
                                        ("author", optional nonEmptyString)]));
           ("highlights", optional (array (ZObject [("text", LocalizedTextSchema)])));
           ("values", optional (array (ZObject [("icon", optional nonEmptyString);
                                                ("title", LocalizedTextSchema);
                                                ("description", LocalizedTextSchema)])))].

Definition ContactPropsSchema : schema :=
  ZObject [("label", optional LocalizedTextSchema);
           ("title", LocalizedTextSchema);
           ("subtitle", optional LocalizedTextSchema);
           ("phone", optional (ZUnion
              [nonEmptyString;
               array (ZObject [("label", optional LocalizedTextSchema);
                               ("number", nonEmptyString)])]));
           ("email", optional (ZString [Trim; Min 1 "Email must not be empty";
                                        Email "Must be a valid email address"]));
           ("address", optional (ZObject [("street", nonEmptyString);
                                          ("city", nonEmptyString);
                                          ("postalCode", nonEmptyString);
                                          ("country", optional nonEmptyString);
                                          ("mapsUrl", optionalUrlString)]));
           ("coordinates", optional (ZObject [("lat", number); ("lng", number)]));
           ("hours", optional (ZObject
              [("label", LocalizedTextSchema);
               ("schedule", array (ZObject [("days", LocalizedTextSchema);
                                            ("hours", LocalizedTextSchema)]))]));
           ("ctaCard", optional (ZObject [("title", LocalizedTextSchema);
                                          ("subtitle", optional LocalizedTextSchema);
                                          ("buttons", optional (array CtaButtonSchema))]));
           ("socialLinks", optional (array SocialLinkSchema));
           ("mapEmbed", optionalUrlString);
           ("languages", optional (array nonEmptyString));
           ("paymentMethods", optional (array nonEmptyString));
           ("note", optional LocalizedTextSchema);
           ("instagramEmbed", optional (ZObject [("username", nonEmptyString);
                                                 ("displayText", optional LocalizedTextSchema)]))].

Definition HoursPropsSchema : schema :=
  ZObject [("label", optional LocalizedTextSchema);
           ("title", LocalizedTextSchema);
           ("subtitle", optional LocalizedTextSchema);
           ("schedule", arrayMin (ZObject [("day", LocalizedTextSchema);
                                           ("morning", optional nonEmptyString);
                                           ("afternoon", optional nonEmptyString);
                                           ("continuous", optional nonEmptyString);
                                           ("closed", optional boolean)])
                          1 "Schedule must have at least one day entry");
           ("ctaButton", optional (ZObject [("label", LocalizedTextSchema);
                                            ("phone", optional nonEmptyString);
                                            ("href", optionalUrlString);
                                            ("icon", optional nonEmptyString);
                                            ("iconPosition", optional (ZEnum ["left"; "right"]))]));
           ("paymentMethods", optional (array nonEmptyString));
           ("showTodayBadge", optional boolean);
           ("showOpenClosedBadge", optional boolean);
           ("timezone", optional nonEmptyString);
           ("note", optional LocalizedTextSchema);
           ("uiStrings", optional (ZObject [("today", optional LocalizedTextSchema);
                                            ("closed", optional LocalizedTextSchema);
                                            ("paymentMethods", optional LocalizedTextSchema);
                                            ("open", optional LocalizedTextSchema)]))].

Definition FeaturedPropsSchema : schema :=
  ZObject [("label", optional LocalizedTextSchema);
           ("title", LocalizedTextSchema);
           ("description", optional LocalizedTextSchema);
           ("item", ZObject [("image", urlString);
                             ("badge", optional LocalizedTextSchema);
                             ("region", optional LocalizedTextSchema);
                             ("name", LocalizedTextSchema);
                             ("producer", optional LocalizedTextSchema);
                             ("details", optional (array (ZObject [("label", LocalizedTextSchema);
                                                                   ("text", LocalizedTextSchema)])));
                             ("volume", optional nonEmptyString)]);
           ("categories", optional (array (ZObject [("name", LocalizedTextSchema);
                                                    ("count", LocalizedTextSchema)])))].

Definition TestimonialsPropsSchema : schema :=
  ZObject [("label", optional LocalizedTextSchema);
           ("title", LocalizedTextSchema);
           ("subtitle", optional LocalizedTextSchema);
           ("testimonials", arrayMin (ZObject [("quote", LocalizedTextSchema);
                                               ("author", LocalizedTextSchema);
                                               ("role", optional LocalizedTextSchema);
                                               ("rating", optional (numberBetween 1 5));
                                               ("image", optionalUrlString)])
                              1 "Testimonials section must have at least one testimonial")].

Definition CtaBannerPropsSchema : schema :=
  ZObject [("title", LocalizedTextSchema);
           ("subtitle", optional LocalizedTextSchema);
           ("backgroundImage", optionalUrlString);
           ("backgroundColor", optional (ZString []));
           ("cta", CtaButtonSchema)].

Definition TextBlockPropsSchema : schema :=
  ZObject [("title", optional LocalizedTextSchema);
           ("content", LocalizedTextSchema)].

Definition MapPropsSchema : schema :=
  ZObject [("embedUrl", optionalUrlString);
           ("address", optional LocalizedTextSchema);
           ("mapsUrl", optionalUrlString);
           ("staticImage", optionalUrlString);
           ("title", optional LocalizedTextSchema);
           ("coordinates", optional (ZObject [("lat", number); ("lng", number)]));
           ("zoom", optional number)].

(** *** Section type to schema map *)

Definition sectionPropsSchemas : list (string * schema) :=
  [("hero", HeroPropsSchema);
   ("services", ServicesPropsSchema);
   ("gallery", GalleryPropsSchema);
   ("about", AboutPropsSchema);
   ("contact", ContactPropsSchema);
   ("hours", HoursPropsSchema);
   ("featured", FeaturedPropsSchema);
   ("testimonials", TestimonialsPropsSchema);
   ("cta-banner", CtaBannerPropsSchema);
   ("text-block", TextBlockPropsSchema);
   ("map", MapPropsSchema)].

(** *** Config schemas *)

Definition record (valueSchema : schema) : schema := ZRecord (ZString []) valueSchema.

Definition FontConfigSchema : schema :=
  ZObject [("family", nonEmptyString);
           ("weights", arrayMin (numberBetween 100 900) 1
                         "At least one font weight is required");
           ("fallback", optional nonEmptyString)].

Definition ThemeColorsSchema : schema :=
  ZObject [("primary", ZString []);
           ("primary-foreground", optional (ZString []));
           ("secondary", optional (ZString []));
           ("secondary-foreground", optional (ZString []));
           ("accent", optional (ZString []));
           ("accent-foreground", optional (ZString []));
           ("background", ZString []);
           ("foreground", ZString []);
           ("card", optional (ZString []));
           ("card-foreground", optional (ZString []));
           ("popover", optional (ZString []));
           ("popover-foreground", optional (ZString []));
           ("muted", optional (ZString []));
           ("muted-foreground", optional (ZString []));
           ("border", optional (ZString []));
           ("input", optional (ZString []));
           ("ring", optional (ZString []));
           ("destructive", optional (ZString []));
           ("destructive-foreground", optional (ZString []));
           ("custom", optional (record (ZString [])))].

Definition ThemeConfigSchema : schema :=
  ZObject [("colors", ThemeColorsSchema);
           ("fonts", ZObject [("heading", FontConfigSchema); ("body", FontConfigSchema)]);
           ("borderRadius", optional (ZString []));
           ("shadows", optional (record (ZString [])));
           ("gradients", optional (record (ZString [])));
           ("buttonStyle", optional (ZObject
              [("borderRadius", optional (ZEnum ["none"; "sm"; "md"; "lg"; "full"]))]))].

Definition SeoConfigSchema : schema :=
  ZObject [("title", LocalizedTextSchema);
           ("description", LocalizedTextSchema);
           ("keywords", optional (array nonEmptyString));
           ("ogImage", optionalUrlString);
           ("canonical", optionalUrlString);
           ("locale", optional nonEmptyString);
           ("structuredData", optional (record ZAny));
           ("favicon", optionalUrlString);
           ("appleTouchIcon", optionalUrlString)].

Definition NavLinkSchema : schema :=
  ZObject [("label", LocalizedTextSchema); ("anchor", nonEmptyString)].

Definition NavigationConfigSchema : schema :=
  ZObject [("links", array NavLinkSchema);
           ("showLanguageSwitcher", optional boolean);
           ("logo", optionalUrlString);
           ("logoDark", optionalUrlString);
           ("logoText", optional LocalizedTextSchema);
           ("logoSubtext", optional LocalizedTextSchema);
           ("logoSubtextColor", optional (ZString []));
           ("headerStyle", optional (ZObject
              [("textColorAtTop", optional (ZEnum ["light"; "dark"; "auto"]));
               ("alwaysShowBackground", optional boolean)]));
           ("ctaButton", optional (ZObject [("label", LocalizedTextSchema);
                                            ("anchor", optional nonEmptyString);
                                            ("href", optionalUrlString);
                                            ("phone", optional nonEmptyString)]))].

Definition FooterColumnSchema : schema :=
  ZObject [("title", LocalizedTextSchema);
           ("items", array (ZObject [("text", LocalizedTextSchema);
                                     ("href", optionalUrlString)]))].

Definition FooterConfigSchema : schema :=
  ZObject [("copyright", LocalizedTextSchema);
           ("description", optional LocalizedTextSchema);
           ("links", optional (array NavLinkSchema));
           ("socialLinks", optional (array SocialLinkSchema));
           ("columns", optional (array FooterColumnSchema));
           ("bottomText", optional LocalizedTextSchema);
           ("logo", optionalUrlString);
           ("layout", optional (ZEnum ["full"; "compact"; "minimal"]));
           ("showNavigation", optional boolean)].

Definition DisclaimerConfigSchema : schema :=
  ZObject [("enabled", optional boolean);
           ("title", optional LocalizedTextSchema);
           ("message", optional LocalizedTextSchema);
           ("bulletPoints", optional (array LocalizedTextSchema));
           ("buttonLabel", optional LocalizedTextSchema);
           ("icon", optional nonEmptyString)].

Definition VALID_SECTION_TYPES : list string :=
  ["hero"; "services"; "gallery"; "about"; "contact"; "hours"; "featured";
   "testimonials"; "cta-banner"; "text-block"; "map"].

Definition SectionConfigSchema : schema :=
  ZObject [("type", ZEnum VALID_SECTION_TYPES);
           ("id", nonEmptyString);
           ("props", record ZAny)].

Definition PipelineConfigSchema : schema :=
  ZObject [("steps", optional (array (ZString [])))].

(** [data.languages.includes(data.defaultLanguage)] *)
Definition includesValue (items : list json) (v : option json) : bool :=
  match v with
  | Some (JStr d) => existsb (fun x => match x with JStr l => String.eqb l d | _ => false end) items
  | _ => false
  end.

Definition defaultLanguageListed (data : json) : bool :=
  match member "languages" data with
  | Some (JArr languages) =>
      if Nat.ltb 0 (length languages)
      then includesValue languages (member "defaultLanguage" data)
      else true
  | _ => true
  end.

Definition SiteConfigSchema : schema :=
  ZRefine
    (ZObject [("name", nonEmptyString);
              ("url", optionalUrlString);
              ("languages", optional (array nonEmptyString));
              ("defaultLanguage", nonEmptyString);
              ("theme", ThemeConfigSchema);
              ("seo", optional SeoConfigSchema);
              ("navigation", NavigationConfigSchema);
              ("sections", arrayMin SectionConfigSchema 1 "At least one section is required");
              ("footer", FooterConfigSchema);
              ("disclaimer", optional DisclaimerConfigSchema);
              ("pipeline", optional PipelineConfigSchema)])
    defaultLanguageListed
    "defaultLanguage must be included in the languages array" [Key "defaultLanguage"].

(** *** Validation functions *)

(** An entry of [errors] or [warnings]. *)
Record report : Type := Report {
  rpath : string;
  rmessage : message;
}.

(** The own property [sectionType] of the registry. *)
Fixpoint ownSchema (sectionType : string) (registry : list (string * schema)) : option schema :=
  match registry with
  | [] => None
  | (k, sch) :: rest => if String.eqb sectionType k then Some sch else ownSchema sectionType rest
  end.

(** What [sectionType in sectionPropsSchemas] and
    [sectionPropsSchemas[sectionType]] find: a schema of the registry, a
    member that the registry inherits from [Object.prototype] (then [in]
    holds and the value is no schema), or nothing. *)
Inductive registered : Type :=
  | Own (sch : schema)
  | Inherited
  | Absent.

Definition schemaOf (sectionType : string) (registry : list (string * schema)) : registered :=
  match ownSchema sectionType registry with
  | Some sch => Own sch
  | None => if bool_decide (sectionType ∈ Js.objectPrototype) then Inherited else Absent
  end.

(** The message of the TypeError for [schema.safeParse(props)] on a value
    that has no [safeParse]. *)
Definition notAFunction : string := "schema.safeParse is not a function".

Definition sectionPath (sectionIndex : nat) : string :=
  "sections[" +:+ pretty sectionIndex +:+ "]".

Definition propsReport (sectionIndex : nat) (i : issue) : report :=
  let propPath := joinPath (ipath i) in
  Report (sectionPath sectionIndex +:+ ".props" +:+
          (if Js.truthy propPath then "." +:+ propPath else EmptyString))
         (imessage i).

Definition validateSectionProps (sectionType : string) (props : json) (sectionIndex : nat)
  : Js.completion (list report) :=
  match schemaOf sectionType sectionPropsSchemas with
  | Absent =>
      Js.Returns [Report (sectionPath sectionIndex +:+ ".type")
                         (Text ("Unknown section type: " +:+ quoted sectionType))]
  | Inherited => Js.Throws notAFunction
  | Own sch =>
      match safeParse sch props with
      | Success _ => Js.Returns []
      | Failure issues => Js.Returns (map (propsReport sectionIndex) issues)
      end
  end.

(** *** Language-specific character checks *)

(** A pattern [/\bword/i], or [/\bword\b/i] when [wholeWord]. *)
Record pattern : Type := Pattern { word : string; wholeWord : bool }.

Definition isWordChar (c : ascii) : bool :=
  let n := nat_of_ascii c in
  (Nat.leb 97 n && Nat.leb n 122) || (Nat.leb 65 n && Nat.leb n 90) ||
  (Nat.leb 48 n && Nat.leb n 57) || Nat.eqb n 95.

Definition lower (c : ascii) : ascii :=
  let n := nat_of_ascii c in
  if Nat.leb 65 n && Nat.leb n 90 then ascii_of_nat (n + 32) else c.

(** The text after a case-insensitive occurrence of [w] at its start. *)
Fixpoint afterWord (w text : string) : option string :=
  match w with
  | EmptyString => Some text
  | String a w' =>
      match text with
      | String c text' => if Ascii.eqb (lower c) a then afterWord w' text' else None
      | EmptyString => None
      end
  end.

Definition startsWithWordChar (text : string) : bool :=
  match text with
  | String c _ => isWordChar c
  | EmptyString => false
  end.

(** [pattern.test(text)], scanning with the class of the previous character. *)
Fixpoint testFrom (p : pattern) (prevIsWord : bool) (text : string) : bool :=
  (negb prevIsWord &&
   match afterWord (word p) text with
   | Some rest => if wholeWord p then negb (startsWithWordChar rest) else true
   | None => false
   end) ||
  match text with
  | String c rest => testFrom p (isWordChar c) rest
  | EmptyString => false
  end.

Definition test (p : pattern) (text : string) : bool := testFrom p false text.

Definition LANGUAGE_PATTERNS : list (string * (string * list pattern)) :=
  [("de", ("German",
           [Pattern "uber" true; Pattern "fur" true; Pattern "gruss" false;
            Pattern "munchen" false; Pattern "koln" false; Pattern "dusseldorf" false;
            Pattern "offnung" false]));
   ("fr", ("French",
           [Pattern "elegant" false; Pattern "etablissement" false; Pattern "cafe" true;
            Pattern "apero" false; Pattern "hotellerie" false]))].

Fixpoint languageConfig (langCode : string) (table : list (string * (string * list pattern)))
  : option (string * list pattern) :=
  match table with
  | [] => None
  | (k, c) :: rest => if String.eqb langCode k then Some c else languageConfig langCode rest
  end.

(** [checkLanguageCharacters]: the reason when the text is suspicious. *)
Definition checkLanguageCharacters (text langCode : string) : option string :=
  match languageConfig langCode LANGUAGE_PATTERNS with
  | None => None
  | Some (name, suspiciousPatterns) =>
      if Nat.ltb (String.length text) 10 then None
      else if existsb (fun p => test p text) suspiciousPatterns
      then Some (name +:+ " text may be missing proper characters (diacritics/umlauts)")
      else None
  end.

(** [checkedTexts] and [warnings] while the texts are checked. *)
Record lintState : Type := LintState {
  checkedTexts : gset string;
  lintWarnings : list report;
}.

Definition checkedLanguage (lang : string) : bool :=
  String.eqb lang "de" || String.eqb lang "fr".

(** The body shared by the two places that check one text: [key] is the
    entry of [checkedTexts], [at_] the path of the warning. *)
Definition checkText (key text lang at_ : string) (st : lintState) : lintState :=
  if bool_decide (key ∈ checkedTexts st) then st
  else
    LintState ({[key]} ∪ checkedTexts st)
              (match checkLanguageCharacters text lang with
               | Some reason => lintWarnings st ++ [Report at_ (Text reason)]
               | None => lintWarnings st
               end).

(** [Object.entries(value)] *)
Definition entriesOf (value : json) : list (string * json) :=
  match value with
  | JObj fields => fields
  | JArr items => imap (fun i x => (pretty i, x)) items
  | _ => []
  end.

Section Lint.
Context (defaultLanguage : string) (languagesToCheck : list string).

Definition isLocalizedText (value : json) : bool :=
  existsb (fun kv => bool_decide (fst kv ∈ languagesToCheck)) (entriesOf value).

(** [for (const [lang, text] of Object.entries(value))] *)
Definition checkLanguages (value : json) (currentPath : string) (st : lintState) : lintState :=
  fold_left (fun st kv =>
               match kv with
               | (lang, JStr text) =>
                   if checkedLanguage lang
                   then checkText (lang +:+ ":" +:+ text) text lang
                                  (currentPath +:+ "." +:+ lang) st
                   else st
               | _ => st
               end) (entriesOf value) st.

Definition childPath (path key : string) : string :=
  if Js.truthy path then path +:+ "." +:+ key else key.

Definition itemPath (currentPath : string) (i : nat) : string :=
  currentPath +:+ "[" +:+ pretty i +:+ "]".

Fixpoint checkLocalizedText (obj : json) (path : string) (st : lintState) : lintState :=
  let entry := fun (key : string) (value : json) (st : lintState) =>
    let currentPath := childPath path key in
    let st :=
      match value with
      | JStr v =>
          if checkedLanguage defaultLanguage
          then checkText v v defaultLanguage currentPath st
          else st
      | JObj _ =>
          if isLocalizedText value then checkLanguages value currentPath st
          else checkLocalizedText value currentPath st
      | JArr _ =>
          if isLocalizedText value then checkLanguages value currentPath st else st
      | _ => st
      end in
    match value with
    | JArr items =>
        Js.forIndex
          (fun i item st =>
             match item with
             | JArr _ | JObj _ => checkLocalizedText item (itemPath currentPath i) st
             | _ => st
             end) 0 items st
    | _ => st
    end in
  match obj with
  | JObj fields =>
      fold_left (fun st kv => match kv with (key, value) => entry key value st end) fields st
  | JArr items =>
      Js.forIndex (fun i value st => entry (pretty i) value st) 0 items st
  | _ => st
  end.

End Lint.

(** *** The orchestrator *)

Record validation : Type := Validation {
  valid : bool;
  errors : list report;
  warnings : list report;
}.

Definition topLevelReport (i : issue) : report :=
  let joined := joinPath (ipath i) in
  Report (if Js.truthy joined then joined else "(root)") (imessage i).

(** [validConfig.sections] *)
Definition sectionsOf (validConfig : json) : list json :=
  match member "sections" validConfig with
  | Some (JArr sections) => sections
  | _ => []
  end.

(** A string member of a validated object. *)
Definition stringMember (k : string) (data : json) : string :=
  match member k data with
  | Some (JStr v) => v
  | _ => EmptyString
  end.

Definition propsOf (section : json) : json := default JNull (member "props" section).

Definition seoWarning : report :=
  Report "seo"
         (Text ("No " +:+ quoted "seo" +:+
                " field found — SEO metadata will not be generated")).

Definition duplicateWarning (i : nat) (id : string) : report :=
  Report (sectionPath i +:+ ".id") (Text ("Duplicate section id " +:+ quoted id)).

(** The loop over the sections that checks for duplicate ids. *)
Definition checkDuplicateIds (sections : list json) (warnings : list report)
  : gset string * list report :=
  Js.forIndex
    (fun i section (st : gset string * list report) =>
       let id := stringMember "id" section in
       (({[id]} ∪ fst st),
        if bool_decide (id ∈ fst st) then snd st ++ [duplicateWarning i id] else snd st))
    0 sections (∅, warnings).

Definition languagesToCheckOf (validConfig : json) : list string :=
  match member "languages" validConfig with
  | Some (JArr languages) =>
      omap (fun l => match l with JStr v => Some v | _ => None end) languages
  | _ => [stringMember "defaultLanguage" validConfig]
  end.

Definition checkMember (validConfig : json) (k : string) (defaultLanguage : string)
    (languagesToCheck : list string) (st : lintState) : lintState :=
  match member k validConfig with
  | Some obj => checkLocalizedText defaultLanguage languagesToCheck obj k st
  | None => st
  end.

(** Steps 3 and 4 of [validateSiteConfig], and its result. *)
Definition checkWarnings (validConfig : json) (errors : list report) : validation :=
  let sections := sectionsOf validConfig in
  (* Step 3 *)
  let warnings := if truthy (member "seo" validConfig) then [] else [seoWarning] in
  let warnings := snd (checkDuplicateIds sections warnings) in
  (* Step 4 *)
  let defaultLanguage := stringMember "defaultLanguage" validConfig in
  let languagesToCheck := languagesToCheckOf validConfig in
  let st := LintState ∅ warnings in
  let st :=
    Js.forIndex
      (fun i section st =>
         checkLocalizedText defaultLanguage languagesToCheck (propsOf section)
           (sectionPath i +:+ ".props") st)
      0 sections st in
  let st := checkMember validConfig "navigation" defaultLanguage languagesToCheck st in
  let st := checkMember validConfig "footer" defaultLanguage languagesToCheck st in
  let st := checkMember validConfig "seo" defaultLanguage languagesToCheck st in
  let st := checkMember validConfig "disclaimer" defaultLanguage languagesToCheck st in
  Validation (Nat.eqb (length errors) 0) errors (lintWarnings st).

(** Step 2 of [validateSiteConfig]: the loop that validates the props of
    each section.  An exception of [validateSectionProps] leaves the
    loop. *)
Definition checkSections (sections : list json) : Js.completion (list report) :=
  Js.forIndex
    (fun i section (errors : Js.completion (list report)) =>
       Js.andThen errors (fun errors =>
       Js.andThen (validateSectionProps (stringMember "type" section) (propsOf section) i)
         (fun sectionErrors => Js.Returns (errors ++ sectionErrors))))
    0 sections (Js.Returns []).

Definition validateSiteConfig (config : json) : Js.completion validation :=
  match safeParse SiteConfigSchema config with
  | Failure issues => Js.Returns (Validation false (map topLevelReport issues) [])
  | Success validConfig =>
      Js.andThen (checkSections (sectionsOf validConfig)) (fun errors =>
      Js.Returns (checkWarnings validConfig errors))
  end.

End Registry.

(** *** Where the issues of a member end up *)

Section ParseFacts.
Context `{Library}.

Lemma parse_refine_issue inner check msg at_ here input i :
  i ∈ issues (parse inner here input) ->
  i ∈ issues (parse (ZRefine inner check msg at_) here input).
Proof.
  intros Hi. cbn [parse].
  destruct (aborted (parse inner here input)); [done|].
  destruct (check _); [done|]. cbn. apply elem_of_app. by left.
Qed.

Lemma parse_object_field_issue shape here fields k sch i :
  (k, sch) ∈ shape ->
  i ∈ issues (parse sch (here ++ [Key k]) (field k fields)) ->
  i ∈ issues (parse (ZObject shape) here (Some (JObj fields))).
Proof.
  intros Hk Hi. cbn [parse issues].
  apply list_elem_of_In, in_concat.
  exists (issues (parse sch (here ++ [Key k]) (field k fields))).
  split; [|by apply list_elem_of_In].
  rewrite map_map. apply in_map_iff. exists (k, sch).
  split; [done|]. by apply list_elem_of_In.
Qed.

Lemma parse_array_element_issue element minLength maxLength here items j x i :
  items !! j = Some x ->
  i ∈ issues (parse element (here ++ [Idx j]) (Some x)) ->
  i ∈ issues (parse (ZArray element minLength maxLength) here (Some (JArr items))).
Proof.
  intros Hj Hi. cbn [parse issues]. apply elem_of_app. right.
  apply list_elem_of_In, in_concat.
  exists (issues (parse element (here ++ [Idx j]) (Some x))).
  split; [|by apply list_elem_of_In].
  apply in_map_iff. exists (parse element (here ++ [Idx j]) (Some x)).
  split; [done|]. apply list_elem_of_In, list_elem_of_lookup. exists j.
  by rewrite list_lookup_imap, Hj.
Qed.

Lemma parse_enum_unknown values here v :
  (forall tag, tag ∈ values -> v <> Some (JStr tag)) ->
  exists c, parse (ZEnum values) here v = invalid c here.
Proof.
  intros Hv. cbn [parse].
  destruct v as [[| | |tag| |]|]; try (by eexists).
  case_bool_decide as Hin; [|by eexists]. by destruct (Hv tag Hin).
Qed.

(** A parse that recorded an issue is a failure with all the issues. *)
Lemma safeParse_issue s d i :
  i ∈ issues (parse s [] (Some d)) ->
  safeParse s d = Failure (issues (parse s [] (Some d))).
Proof.
  intros Hi. unfold safeParse, isValid.
  destruct (issues (parse s [] (Some d))) as [|i0 is0] eqn:E.
  - by apply elem_of_nil in Hi.
  - cbn. by rewrite andb_false_r.
Qed.

End ParseFacts.

Section ValidationFacts.
Context `{Platform} `{Library}.

Lemma ownSchema_None sectionType registry :
  sectionType ∉ map fst registry -> ownSchema sectionType registry = None.
Proof.
  induction registry as [|[k sch] registry IH]; intros Hnin; cbn [ownSchema]; [done|].
  cbn in Hnin. apply not_elem_of_cons in Hnin as [Hne Hnin].
  destruct (String.eqb sectionType k) eqn:E; [|auto].
  by apply String.eqb_eq in E.
Qed.

Lemma ownSchema_is_Some sectionType registry :
  sectionType ∈ map fst registry -> is_Some (ownSchema sectionType registry).
Proof.
  induction registry as [|[k sch] registry IH]; cbn [map fst ownSchema]; intros Hin.
  - by apply elem_of_nil in Hin.
  - destruct (String.eqb sectionType k) eqn:E; [by eexists|].
    apply String.eqb_neq in E. apply elem_of_cons in Hin as [?|?]; [done|auto].
Qed.

(** The registry has exactly the eleven known tags, and none of them is
    the name of an inherited member. *)
Lemma registry_keys : map fst sectionPropsSchemas = VALID_SECTION_TYPES.
Proof. reflexivity. Qed.

Lemma known_not_inherited sectionType :
  sectionType ∈ VALID_SECTION_TYPES -> sectionType ∉ Js.objectPrototype.
Proof.
  assert (Hall : Forall (fun tag => tag ∉ Js.objectPrototype) VALID_SECTION_TYPES).
  { apply (bool_decide_unpack _). vm_compute. exact I. }
  rewrite Forall_forall in Hall. apply Hall.
Qed.

Lemma schemaOf_known sectionType :
  sectionType ∈ VALID_SECTION_TYPES ->
  exists sch, schemaOf sectionType sectionPropsSchemas = Own sch.
Proof.
  intros Hin. unfold schemaOf.
  destruct (ownSchema_is_Some sectionType sectionPropsSchemas) as [sch ->]; [done|].
  by exists sch.
Qed.

Lemma schemaOf_inherited sectionType :
  sectionType ∈ Js.objectPrototype -> schemaOf sectionType sectionPropsSchemas = Inherited.
Proof.
  intros Hin. unfold schemaOf. rewrite ownSchema_None.
  - by rewrite bool_decide_eq_true_2.
  - rewrite registry_keys. intros Hknown. by apply (known_not_inherited sectionType).
Qed.

Lemma schemaOf_absent sectionType :
  sectionType ∉ VALID_SECTION_TYPES -> sectionType ∉ Js.objectPrototype ->
  schemaOf sectionType sectionPropsSchemas = Absent.
Proof.
  intros Hnin Hown. unfold schemaOf. rewrite ownSchema_None by done.
  by rewrite bool_decide_eq_false_2.
Qed.

(** Called with a tag that is neither in the registry nor the name of an
    inherited member, [validateSectionProps] returns the one error
    "Unknown section type". *)
Lemma validateSectionProps_unknown sectionType props sectionIndex :
  sectionType ∉ VALID_SECTION_TYPES -> sectionType ∉ Js.objectPrototype ->
  validateSectionProps sectionType props sectionIndex =
  Js.Returns [Report (sectionPath sectionIndex +:+ ".type")
                     (Text ("Unknown section type: " +:+ quoted sectionType))].
Proof.
  intros Hnin Hown. unfold validateSectionProps. by rewrite schemaOf_absent.
Qed.

(** It throws for the name of an inherited member only. *)
Lemma validateSectionProps_returns sectionType props sectionIndex :
  sectionType ∉ Js.objectPrototype ->
  exists errors, validateSectionProps sectionType props sectionIndex = Js.Returns errors.
Proof.
  intros Hown. unfold validateSectionProps, schemaOf.
  destruct (ownSchema sectionType sectionPropsSchemas) as [sch|].
  - destruct (safeParse sch props); by eexists.
  - rewrite bool_decide_eq_false_2 by done. by eexists.
Qed.

(** C6, as amended.  For every configuration whose sections list contains
    an entry whose type tag is not one of the eleven known tags,
    [validateSiteConfig] reports a hard error for that entry, never a
    silent skip: the result has [valid: false] and an error at the path
    [sections.<i>.type], raised by the enum check of the top-level schema.
    Validation stops there: the errors are exactly the issues of the
    top-level schema, no warning is computed and no section's props are
    validated. *)
Theorem unknown_section_type_fails_top_level (fields : list (string * json))
    (sections : list json) (i : nat) (sectionFields : list (string * json)) :
  field "sections" fields = Some (JArr sections) ->
  sections !! i = Some (JObj sectionFields) ->
  (forall tag, tag ∈ VALID_SECTION_TYPES ->
               field "type" sectionFields <> Some (JStr tag)) ->
  exists r, validateSiteConfig (JObj fields) = Js.Returns r /\
  valid r = false /\ warnings r = [] /\
  (exists c, Report ("sections." +:+ pretty i +:+ ".type") (DefaultMessage c) ∈ errors r) /\
  errors r = map topLevelReport (issues (parse SiteConfigSchema [] (Some (JObj fields)))).
Proof.
  intros Hsections Hi Htag.
  destruct (parse_enum_unknown VALID_SECTION_TYPES
              [Key "sections"; Idx i; Key "type"] (field "type" sectionFields) Htag)
    as [c Hc].
  assert (Hin : Issue c [Key "sections"; Idx i; Key "type"] (DefaultMessage c) ∈
                issues (parse SiteConfigSchema [] (Some (JObj fields)))).
  { apply parse_refine_issue.
    apply (parse_object_field_issue _ _ _ "sections"
             (arrayMin SectionConfigSchema 1 "At least one section is required")).
    { do 7 right. left. }
    rewrite Hsections.
    apply (parse_array_element_issue _ _ _ _ _ i (JObj sectionFields) _ Hi).
    apply (parse_object_field_issue _ _ _ "type" (ZEnum VALID_SECTION_TYPES)); [left|].
    cbn [app]. rewrite Hc. left. }
  exists (Validation false
            (map topLevelReport (issues (parse SiteConfigSchema [] (Some (JObj fields)))))
            []).
  split; [unfold validateSiteConfig; by rewrite (safeParse_issue _ _ _ Hin)|].
  cbn [valid warnings errors]. repeat split.
  exists c. apply list_elem_of_fmap.
  exists (Issue c [Key "sections"; Idx i; Key "type"] (DefaultMessage c)).
  split; [reflexivity|exact Hin].
Qed.

(** *** Duplicate section ids *)

(** A warning of the duplicate-id check. *)
Definition isDuplicateWarning (r : report) : bool :=
  match rmessage r with
  | Text s => Js.startsWith "Duplicate section id " s
  | DefaultMessage _ => false
  end.

(** The occurrences of an id after its first one, with their index. *)
Definition repeatedFrom (pre ids : list string) : list (nat * string) :=
  filter (fun p => snd p ∈ take (fst p) (pre ++ ids))
         (imap (fun j id => (length pre + j, id)) ids).

Definition repeated (ids : list string) : list (nat * string) := repeatedFrom [] ids.

Definition duplicateWarningOf (p : nat * string) : report :=
  duplicateWarning (fst p) (snd p).

Lemma forIndex_preserves {A R : Type} (P : R -> Prop) (body : nat -> A -> R -> R) l :
  Forall (fun x => forall i r, P r -> P (body i x r)) l ->
  forall i r, P r -> P (Js.forIndex body i l r).
Proof.
  induction 1 as [|x l Hx _ IH]; intros i r Hr; cbn [Js.forIndex]; auto.
Qed.

Lemma fold_left_preserves {A R : Type} (P : R -> Prop) (body : R -> A -> R) l :
  Forall (fun x => forall r, P r -> P (body r x)) l ->
  forall r, P r -> P (fold_left body l r).
Proof.
  induction 1 as [|x l Hx _ IH]; intros r Hr; cbn [fold_left]; auto.
Qed.

Lemma repeatedFrom_cons pre id ids :
  repeatedFrom pre (id :: ids) =
  (if decide (id ∈ pre) then [(length pre, id)] else []) ++ repeatedFrom (pre ++ [id]) ids.
Proof.
  unfold repeatedFrom. rewrite imap_cons, filter_cons. cbn [fst snd].
  rewrite Nat.add_0_r, take_app_length, <- (app_assoc pre [id]). cbn [app].
  assert (Himap : imap ((fun j id0 => (length pre + j, id0)) ∘ S) ids =
                  imap (fun j id0 => (length (pre ++ [id]) + j, id0)) ids).
  { apply imap_ext. intros j x _. cbn. rewrite length_app. cbn. f_equal. lia. }
  rewrite Himap. by destruct (decide (id ∈ pre)).
Qed.

Lemma checkDuplicateIds_spec sections : forall pre warnings0,
  Js.forIndex
    (fun i section (st : gset string * list report) =>
       let id := stringMember "id" section in
       (({[id]} ∪ fst st),
        if bool_decide (id ∈ fst st) then snd st ++ [duplicateWarning i id] else snd st))
    (length pre) sections (list_to_set pre, warnings0) =
  (list_to_set (pre ++ map (stringMember "id") sections),
   warnings0 ++ map duplicateWarningOf
                  (repeatedFrom pre (map (stringMember "id") sections))).
Proof.
  induction sections as [|section sections IH]; intros pre warnings0.
  - cbn. by rewrite !app_nil_r.
  - cbn [Js.forIndex map fst snd].
    set (id := stringMember "id" section).
    assert (Hset : ({[id]} ∪ list_to_set pre : gset string) = list_to_set (pre ++ [id])).
    { rewrite list_to_set_snoc_L. apply (comm_L (∪)). }
    assert (Hlen : S (length pre) = length (pre ++ [id])).
    { rewrite length_app. cbn. lia. }
    rewrite Hset, Hlen, IH, <- app_assoc. cbn [app]. f_equal.
    rewrite repeatedFrom_cons, map_app, app_assoc. f_equal.
    case_bool_decide as Hin.
    + apply elem_of_list_to_set in Hin. by rewrite decide_True.
    + rewrite decide_False; [by rewrite app_nil_r|]. intros Hin'. apply Hin.
      by apply elem_of_list_to_set.
Qed.

(** There are as many repeated occurrences as there are sections beyond
    the number of distinct ids. *)
Lemma repeatedFrom_length ids : forall pre,
  length (repeatedFrom pre ids) + size (list_to_set (pre ++ ids) : gset string) =
  size (list_to_set pre : gset string) + length ids.
Proof.
  induction ids as [|id ids IH]; intros pre.
  - cbn. rewrite app_nil_r. lia.
  - rewrite repeatedFrom_cons, length_app.
    pose proof (IH (pre ++ [id])) as IH'. rewrite <- app_assoc in IH'. cbn [app] in IH'.
    rewrite list_to_set_snoc_L in IH'. cbn [length].
    destruct (decide (id ∈ pre)) as [Hin|Hnin]; cbn [length].
    + assert (Hsame : (list_to_set pre ∪ {[id]} : gset string) = list_to_set pre).
      { rewrite (comm_L (∪)). apply subseteq_union_1_L.
        intros x Hx. apply elem_of_singleton in Hx as ->.
        by apply elem_of_list_to_set. }
      rewrite Hsame in IH'. lia.
    + assert (Hsize : size (list_to_set pre ∪ {[id]} : gset string) =
                      S (size (list_to_set pre : gset string))).
      { rewrite size_union, size_singleton; [lia|].
        intros x Hx Hx'. apply elem_of_singleton in Hx' as ->.
        by apply elem_of_list_to_set in Hx. }
      rewrite Hsize in IH'. lia.
Qed.

Lemma repeated_length ids :
  length (repeated ids) + size (list_to_set ids : gset string) = length ids.
Proof.
  pose proof (repeatedFrom_length ids []) as Hlen. cbn [app] in Hlen.
  unfold repeated. change (list_to_set [] : gset string) with (∅ : gset string) in Hlen.
  rewrite size_empty in Hlen. lia.
Qed.

Lemma checkDuplicateIds_repeated sections warnings0 :
  snd (checkDuplicateIds sections warnings0) =
  warnings0 ++ map duplicateWarningOf (repeated (map (stringMember "id") sections)).
Proof.
  unfold checkDuplicateIds, repeated.
  exact (f_equal snd (checkDuplicateIds_spec sections [] warnings0)).
Qed.

(** The warnings in [st] are [ws0] followed by warnings that are not about
    duplicate ids. *)
Definition extends (ws0 : list report) (st : lintState) : Prop :=
  exists added, lintWarnings st = ws0 ++ added /\
                Forall (fun r => isDuplicateWarning r = false) added.

Lemma checkText_extends ws0 key text lang at_ st :
  extends ws0 st -> extends ws0 (checkText key text lang at_ st).
Proof.
  intros (added & Hw & Hall). unfold checkText.
  case_bool_decide; [by exists added|]. cbn.
  unfold checkLanguageCharacters.
  destruct (languageConfig lang LANGUAGE_PATTERNS) as [[name pats]|] eqn:El;
    [|by exists added].
  destruct (Nat.ltb _ _); [by exists added|].
  destruct (existsb _ _); [|by exists added].
  exists (added ++ [Report at_
            (Text (name +:+ " text may be missing proper characters (diacritics/umlauts)"))]).
  split; [by rewrite Hw, app_assoc|].
  apply Forall_app. split; [done|]. apply Forall_singleton.
  cbn in El. destruct (String.eqb lang "de"); [by injection El as <- _|].
  destruct (String.eqb lang "fr"); [by injection El as <- _|done].
Qed.

Section LintFacts.
Context (defaultLanguage : string) (languagesToCheck : list string) (ws0 : list report).

Definition keeps (obj : json) : Prop :=
  forall path st, extends ws0 st ->
    extends ws0 (checkLocalizedText defaultLanguage languagesToCheck obj path st).

Lemma checkLanguages_extends value currentPath st :
  extends ws0 st -> extends ws0 (checkLanguages value currentPath st).
Proof.
  unfold checkLanguages. apply fold_left_preserves.
  apply Forall_forall. intros [lang text] _ r Hr.
  destruct text; try done. destruct (checkedLanguage lang); [|done].
  by apply checkText_extends.
Qed.

(** The loop over the items of an array value. *)
Lemma items_extend items currentPath st :
  Forall keeps items ->
  extends ws0 st ->
  extends ws0
    (Js.forIndex
       (fun i item st =>
          match item with
          | JArr _ | JObj _ =>
              checkLocalizedText defaultLanguage languagesToCheck item
                (itemPath currentPath i) st
          | _ => st
          end) 0 items st).
Proof.
  intros Hitems. apply forIndex_preserves.
  eapply Forall_impl; [exact Hitems|]. intros item Hk i r Hr.
  destruct item; try done; by apply Hk.
Qed.

Definition keepsBelow (t : json) : Prop :=
  keeps t /\
  match t with
  | JArr items => Forall keeps items
  | JObj fields => Forall (fun kv => keeps (snd kv)) fields
  | _ => True
  end.

(** One entry of [Object.entries(obj)]. *)
Lemma entry_extends path key value st :
  keepsBelow value ->
  extends ws0 st ->
  extends ws0
    (let currentPath := childPath path key in
     let st :=
       match value with
       | JStr v =>
           if checkedLanguage defaultLanguage
           then checkText v v defaultLanguage currentPath st
           else st
       | JObj _ =>
           if isLocalizedText languagesToCheck value
           then checkLanguages value currentPath st
           else checkLocalizedText defaultLanguage languagesToCheck value currentPath st
       | JArr _ =>
           if isLocalizedText languagesToCheck value
           then checkLanguages value currentPath st else st
       | _ => st
       end in
     match value with
     | JArr items =>
         Js.forIndex
           (fun i item st =>
              match item with
              | JArr _ | JObj _ =>
                  checkLocalizedText defaultLanguage languagesToCheck item
                    (itemPath currentPath i) st
              | _ => st
              end) 0 items st
     | _ => st
     end).
Proof.
  intros [Hk Hbelow] Hst. cbv zeta.
  destruct value as [|b|q|v|items|fields]; try done.
  - destruct (checkedLanguage defaultLanguage); [|done]. by apply checkText_extends.
  - apply items_extend; [done|].
    destruct (isLocalizedText _ _); [|done]. by apply checkLanguages_extends.
  - destruct (isLocalizedText _ _); [by apply checkLanguages_extends|]. by apply Hk.
Qed.

Lemma checkLocalizedText_keepsBelow t : keepsBelow t.
Proof.
  induction t as [|b|q|v|items IH|fields IH] using json_ind.
  1-4: split; [|done]; intros path st Hst; exact Hst.
  - assert (Hitems : Forall keeps items).
    { eapply Forall_impl; [exact IH|]. by intros x [? _]. }
    split; [|done]. intros path st Hst. cbn [checkLocalizedText].
    apply (forIndex_preserves (extends ws0)); [|done].
    eapply Forall_impl; [exact IH|]. intros value Hv i r Hr.
    exact (entry_extends path (pretty i) value r Hv Hr).
  - assert (Hfields : Forall (fun kv => keeps (snd kv)) fields).
    { eapply Forall_impl; [exact IH|]. by intros x [? _]. }
    split; [|done]. intros path st Hst. cbn [checkLocalizedText].
    apply (fold_left_preserves (extends ws0)); [|done].
    eapply Forall_impl; [exact IH|]. intros [key value] Hv r Hr. cbn in Hv.
    exact (entry_extends path key value r Hv Hr).
Qed.

Lemma checkLocalizedText_extends obj path st :
  extends ws0 st ->
  extends ws0 (checkLocalizedText defaultLanguage languagesToCheck obj path st).
Proof. apply (proj1 (checkLocalizedText_keepsBelow obj)). Qed.

Lemma checkMember_extends validConfig k st :
  extends ws0 st ->
  extends ws0 (checkMember validConfig k defaultLanguage languagesToCheck st).
Proof.
  intros Hst. unfold checkMember.
  destruct (member k validConfig); [|done]. by apply checkLocalizedText_extends.
Qed.

End LintFacts.

Lemma section_errors_nil sections : forall i0 acc,
  (forall j section, sections !! j = Some section ->
     validateSectionProps (stringMember "type" section) (propsOf section) (i0 + j) =
     Js.Returns []) ->
  Js.forIndex
    (fun i section (errors : Js.completion (list report)) =>
       Js.andThen errors (fun errors =>
       Js.andThen (validateSectionProps (stringMember "type" section) (propsOf section) i)
         (fun sectionErrors => Js.Returns (errors ++ sectionErrors))))
    i0 sections (Js.Returns acc) = Js.Returns acc.
Proof.
  induction sections as [|section sections IH]; intros i0 acc Hok; cbn [Js.forIndex].
  - done.
  - pose proof (Hok 0 section eq_refl) as H0'. rewrite Nat.add_0_r in H0'.
    rewrite H0'. cbn [Js.andThen]. rewrite app_nil_r. apply IH. intros j sec Hj.
    replace (S i0 + j) with (i0 + S j) by lia. by apply Hok.
Qed.

Lemma filter_duplicate_all l :
  filter (fun w => isDuplicateWarning w = true) (map duplicateWarningOf l) =
  map duplicateWarningOf l.
Proof.
  induction l as [|p l IH]; [done|]. cbn [map].
  rewrite filter_cons_True by reflexivity. by rewrite IH.
Qed.

Lemma filter_duplicate_none added :
  Forall (fun r => isDuplicateWarning r = false) added ->
  filter (fun w => isDuplicateWarning w = true) added = [].
Proof.
  induction 1 as [|r added Hr _ IH]; [done|].
  rewrite filter_cons_False by congruence. done.
Qed.

(** C7. For every configuration that passes the top-level schema and
    whose sections all pass their props schema, [validateSiteConfig]
    returns [valid: true] with no error, whatever ids the sections carry,
    and its warnings contain exactly one duplicate-id warning for every
    occurrence of an id after the first occurrence of that id, in order,
    at the path [sections[i].id]: as many as there are sections beyond the
    number of distinct ids.  The ids are those of the validated
    configuration. *)
Theorem duplicate_ids_warn (config validConfig : json) :
  safeParse SiteConfigSchema config = Success validConfig ->
  (forall i section, sectionsOf validConfig !! i = Some section ->
     validateSectionProps (stringMember "type" section) (propsOf section) i =
     Js.Returns []) ->
  let ids := map (stringMember "id") (sectionsOf validConfig) in
  exists r, validateSiteConfig config = Js.Returns r /\
  valid r = true /\ errors r = [] /\
  filter (fun w => isDuplicateWarning w = true) (warnings r) =
    map duplicateWarningOf (repeated ids) /\
  length (filter (fun w => isDuplicateWarning w = true) (warnings r)) +
    size (list_to_set ids : gset string) = length ids.
Proof.
  intros Hparse Hprops ids.
  exists (checkWarnings validConfig []).
  split.
  { unfold validateSiteConfig, checkSections. rewrite Hparse.
    by rewrite (section_errors_nil (sectionsOf validConfig) 0 [] Hprops). }
  set (r := checkWarnings validConfig []).
  cut (valid r = true /\ errors r = [] /\
       filter (fun w => isDuplicateWarning w = true) (warnings r) =
         map duplicateWarningOf (repeated ids)).
  { intros (Hv & He & Hw). repeat split; try done.
    rewrite Hw, length_map. apply repeated_length. }
  unfold r, checkWarnings.
  cbv zeta. cbn [valid errors warnings].
  split; [done|]. split; [done|].
  set (ws := if truthy (member "seo" validConfig) then [] else [seoWarning]).
  rewrite (checkDuplicateIds_repeated (sectionsOf validConfig) ws).
  fold ids.
  set (ws1 := ws ++ map duplicateWarningOf (repeated ids)).
  set (dl := stringMember "defaultLanguage" validConfig).
  set (ltc := languagesToCheckOf validConfig).
  assert (Hext : extends ws1
            (checkMember validConfig "disclaimer" dl ltc
               (checkMember validConfig "seo" dl ltc
                  (checkMember validConfig "footer" dl ltc
                     (checkMember validConfig "navigation" dl ltc
                        (Js.forIndex
                           (fun i section st =>
                              checkLocalizedText dl ltc (propsOf section)
                                (sectionPath i +:+ ".props") st)
                           0 (sectionsOf validConfig) (LintState ∅ ws1))))))).
  { do 4 apply checkMember_extends.
    apply (forIndex_preserves (extends ws1)).
    - apply Forall_forall. intros section _ i st Hst. by apply checkLocalizedText_extends.
    - exists []. split; [by rewrite app_nil_r|constructor]. }
  destruct Hext as (added & -> & Hadded).
  unfold ws1. rewrite !filter_app, filter_duplicate_all, (filter_duplicate_none _ Hadded).
  rewrite app_nil_r.
  assert (Hws : filter (fun w => isDuplicateWarning w = true) ws = []).
  { unfold ws. destruct (truthy _); [done|]. by rewrite filter_cons_False. }
  by rewrite Hws.
Qed.

End ValidationFacts.

(** *** Induction on schemas *)

Section SchemaInduction.
Variable P : schema -> Prop.
Hypothesis Hstring : forall checks, P (ZString checks).
Hypothesis Hnumber : forall checks, P (ZNumber checks).
Hypothesis Hboolean : P ZBoolean.
Hypothesis Hany : P ZAny.
Hypothesis Hliteral : forall q, P (ZLiteral q).
Hypothesis Henum : forall values, P (ZEnum values).
Hypothesis Harray : forall element minLength maxLength,
  P element -> P (ZArray element minLength maxLength).
Hypothesis Hobject : forall shape, Forall (fun kv => P (snd kv)) shape -> P (ZObject shape).
Hypothesis Hrecord : forall keySchema valueSchema,
  P keySchema -> P valueSchema -> P (ZRecord keySchema valueSchema).
Hypothesis Hunion : forall options, Forall P options -> P (ZUnion options).
Hypothesis Hoptional : forall inner, P inner -> P (ZOptional inner).
Hypothesis Hrefine : forall inner check msg at_, P inner -> P (ZRefine inner check msg at_).

Fixpoint schema_ind (s : schema) : P s :=
  match s with
  | ZString checks => Hstring checks
  | ZNumber checks => Hnumber checks
  | ZBoolean => Hboolean
  | ZAny => Hany
  | ZLiteral q => Hliteral q
  | ZEnum values => Henum values
  | ZArray element minLength maxLength => Harray element minLength maxLength (schema_ind element)
  | ZObject shape =>
      Hobject shape ((fix go (l : list (string * schema)) : Forall (fun kv => P (snd kv)) l :=
                        match l with
                        | [] => @List.Forall_nil _ _
                        | kv :: l' => @List.Forall_cons _ _ kv l' (schema_ind (snd kv)) (go l')
                        end) shape)
  | ZRecord keySchema valueSchema =>
      Hrecord keySchema valueSchema (schema_ind keySchema) (schema_ind valueSchema)
  | ZUnion options =>
      Hunion options ((fix go (l : list schema) : Forall P l :=
                         match l with
                         | [] => @List.Forall_nil _ P
                         | x :: l' => @List.Forall_cons _ P x l' (schema_ind x) (go l')
                         end) options)
  | ZOptional inner => Hoptional inner (schema_ind inner)
  | ZRefine inner check msg at_ => Hrefine inner check msg at_ (schema_ind inner)
  end.
End SchemaInduction.

(** *** Failed parses carry an issue *)

Section AbortFacts.
Context `{Library}.

Lemma existsb_concat {A : Type} (ab : A -> bool) (iss : A -> list issue) (l : list A) :
  Forall (fun a => ab a = true -> iss a <> []) l ->
  existsb ab l = true -> concat (map iss l) <> [].
Proof.
  induction 1 as [|a l Ha _ IH]; cbn [existsb map concat]; [done|].
  intros [Hab|Hl]%orb_true_iff [Hnil1 Hnil2]%app_eq_nil; [by apply Ha|by apply IH].
Qed.

(** A parse that aborts has recorded an issue. *)
Lemma parse_aborted_issue s : forall here input,
  aborted (parse s here input) = true -> issues (parse s here input) <> [].
Proof.
  induction s as [checks|checks| | |q|values|element minLength maxLength IH|shape IH
                 |keySchema valueSchema IHk IHv|options IH|inner IH|inner check msg at_ IH]
    using schema_ind; intros here input; cbn [parse].
  - destruct input as [[| | |v| |]|]; try done.
    by destruct (runStringChecks checks here v []).
  - by destruct input as [[| |q| | |]|].
  - by destruct input as [[|b| | | |]|].
  - done.
  - destruct input as [[| |q'| | |]|]; try done. by destruct (Qeq_bool q' q).
  - destruct input as [[| | |v| |]|]; try done. by case_bool_decide.
  - destruct input as [[| | | |items|]|]; try done. cbn [aborted issues].
    intros Hab Hnil. apply app_eq_nil in Hnil as [_ Hnil]. revert Hnil.
    apply (existsb_concat aborted issues); [|exact Hab].
    apply Forall_forall. intros r Hr. apply list_elem_of_lookup in Hr as [i Hi].
    rewrite list_lookup_imap in Hi. destruct (items !! i); [|done].
    injection Hi as <-. apply IH.
  - destruct input as [[| | | | |fields]|]; try done. cbn [aborted issues].
    apply (existsb_concat (fun kr : string * result => aborted (snd kr))
             (fun kr => issues (snd kr))).
    apply Forall_forall. intros kr Hkr. apply list_elem_of_fmap in Hkr as ([k sch] & -> & Hin).
    cbn [snd]. rewrite Forall_forall in IH. apply (IH (k, sch) Hin).
  - destruct input as [[| | | | |fields]|]; try done. cbn [aborted issues].
    apply (existsb_concat (fun kr : result * result => aborted (fst kr) || aborted (snd kr))
             (fun kr => issues (fst kr) ++ issues (snd kr))).
    apply Forall_forall. intros kr Hkr. apply list_elem_of_fmap in Hkr as ([k v] & -> & Hin).
    cbn [fst snd]. intros [Hab|Hab]%orb_true_iff [Hn1 Hn2]%app_eq_nil.
    + by apply (IHk _ _ Hab).
    + by apply (IHv _ _ Hab).
  - destruct (List.find isValid _) as [r|] eqn:Ev.
    { apply find_some in Ev as [_ Hv]. unfold isValid in Hv.
      destruct (aborted r); [done|]. done. }
    destruct (List.find isDirty _) as [r|] eqn:Ed; [|done].
    apply find_some in Ed as [_ Hd]. unfold isDirty in Hd.
    by destruct (aborted r).
  - destruct input; [apply IH|done].
  - destruct (aborted (parse inner here input)) eqn:Ea; [by apply IH|].
    destruct (check _); [by rewrite Ea|done].
Qed.

Lemma safeParse_failure s d iss : safeParse s d = Failure iss -> iss <> [].
Proof.
  unfold safeParse, isValid.
  destruct (aborted (parse s [] (Some d))) eqn:Ea; cbn [negb andb].
  - intros [= <-]. by apply parse_aborted_issue.
  - case_bool_decide as Hlen; [done|]. intros [= <-] Hnil. by rewrite Hnil in Hlen.
Qed.

End AbortFacts.

(** *** The output of a successful parse *)

Section OutputFacts.
Context `{Platform} `{Library}.

Lemma isValid_no_issue s here input :
  isValid (parse s here input) = true <-> issues (parse s here input) = [].
Proof.
  unfold isValid. split.
  - intros [_ Hlen%bool_decide_eq_true]%andb_true_iff.
    by destruct (issues (parse s here input)).
  - intros Hnil. destruct (aborted (parse s here input)) eqn:Ea.
    + by destruct (parse_aborted_issue s here input Ea).
    + by rewrite Hnil.
Qed.

Lemma field_absent k fields : k ∉ map fst fields -> field k fields = None.
Proof.
  induction fields as [|[k' v] fields IH]; cbn [map fst field]; [done|].
  intros [Hne Hnin]%not_elem_of_cons.
  destruct (String.eqb k k') eqn:E; [by apply String.eqb_eq in E|auto].
Qed.

Lemma output_keys (parseField : string -> schema -> result) shape k :
  k ∈ map fst (omap outputField
                 (map (fun kv : string * schema =>
                         match kv with (k, sch) => (k, parseField k sch) end) shape)) ->
  k ∈ map fst shape.
Proof.
  induction shape as [|[k' sch] shape IH]; cbn [map omap list_omap fst]; [done|].
  unfold outputField at 1. cbn [fst snd].
  destruct (value (parseField k' sch)); cbn [map fst].
  - intros [->|Hin]%elem_of_cons; [left|right; auto].
  - intros Hin. right. auto.
Qed.

(** The member [k] of a parsed object is the output of the schema of [k]. *)
Lemma field_output (parseField : string -> schema -> result) shape k sch :
  NoDup (map fst shape) -> (k, sch) ∈ shape ->
  field k (omap outputField
             (map (fun kv : string * schema =>
                     match kv with (k, sch) => (k, parseField k sch) end) shape)) =
  value (parseField k sch).
Proof.
  induction shape as [|[k' sch'] shape IH]; cbn [map omap list_omap fst].
  - intros _ Hin. by apply elem_of_nil in Hin.
  - intros [Hnin Hnd]%NoDup_cons Hin. unfold outputField at 1. cbn [fst snd].
    apply elem_of_cons in Hin as [[= <- <-]|Hin].
    + destruct (value (parseField k sch)) as [v|] eqn:Ev.
      * cbn [field]. by rewrite String.eqb_refl.
      * apply field_absent. intros Hk. apply Hnin. by apply output_keys in Hk.
    + assert (Hne : String.eqb k k' = false).
      { apply String.eqb_neq. intros ->. apply Hnin.
        apply list_elem_of_fmap. by exists (k', sch). }
      destruct (value (parseField k' sch')); [cbn [field]; rewrite Hne|]; by apply IH.
Qed.

Lemma object_member shape here fields k sch :
  NoDup (map fst shape) -> (k, sch) ∈ shape ->
  member k (default JNull (value (parse (ZObject shape) here (Some (JObj fields))))) =
  value (parse sch (here ++ [Key k]) (field k fields)).
Proof.
  intros Hnd Hin. cbn [parse value default member].
  exact (field_output (fun k sch => parse sch (here ++ [Key k]) (field k fields))
           shape k sch Hnd Hin).
Qed.

Lemma object_no_issue shape here input :
  issues (parse (ZObject shape) here input) = [] ->
  exists fields, input = Some (JObj fields) /\
    forall k sch, (k, sch) ∈ shape ->
      issues (parse sch (here ++ [Key k]) (field k fields)) = [].
Proof.
  destruct input as [[| | | | |fields]|]; try done.
  intros Hnil. exists fields. split; [done|]. intros k sch Hin.
  destruct (issues (parse sch (here ++ [Key k]) (field k fields))) as [|i rest] eqn:Ei; [done|].
  assert (Hi : i ∈ issues (parse (ZObject shape) here (Some (JObj fields)))).
  { apply (parse_object_field_issue _ _ _ k sch i Hin). rewrite Ei. left. }
  rewrite Hnil in Hi. by apply elem_of_nil in Hi.
Qed.

Lemma array_no_issue element minLength maxLength here input :
  issues (parse (ZArray element minLength maxLength) here input) = [] ->
  exists items, input = Some (JArr items) /\
    forall j x, items !! j = Some x ->
      issues (parse element (here ++ [Idx j]) (Some x)) = [].
Proof.
  destruct input as [[| | | |items|]|]; try done.
  intros Hnil. exists items. split; [done|]. intros j x Hj.
  destruct (issues (parse element (here ++ [Idx j]) (Some x))) as [|i rest] eqn:Ei; [done|].
  assert (Hi : i ∈ issues (parse (ZArray element minLength maxLength) here (Some (JArr items)))).
  { apply (parse_array_element_issue _ _ _ _ _ j x i Hj). rewrite Ei. left. }
  rewrite Hnil in Hi. by apply elem_of_nil in Hi.
Qed.

Lemma array_items element minLength maxLength here items :
  value (parse (ZArray element minLength maxLength) here (Some (JArr items))) =
  Some (JArr (imap (fun j x => default JNull (value (parse element (here ++ [Idx j]) (Some x))))
                   items)).
Proof.
  cbn [parse value]. do 2 f_equal.
  exact (fmap_imap (fun j x => parse element (here ++ [Idx j]) (Some x))
           (fun r => default JNull (value r)) items).
Qed.

Lemma enum_no_issue values here input :
  issues (parse (ZEnum values) here input) = [] ->
  exists v, v ∈ values /\ value (parse (ZEnum values) here input) = Some (JStr v).
Proof.
  cbn [parse]. destruct input as [[| | |v| |]|]; try done.
  case_bool_decide as Hin; [|done]. intros _. by exists v.
Qed.

Lemma refine_no_issue inner check msg at_ here input :
  issues (parse (ZRefine inner check msg at_) here input) = [] ->
  issues (parse inner here input) = [] /\
  value (parse (ZRefine inner check msg at_) here input) = value (parse inner here input).
Proof.
  cbn [parse]. destruct (aborted (parse inner here input)); [done|].
  destruct (check _); [done|]. cbn [issues value].
  by intros [_ ?]%app_eq_nil.
Qed.

(** The sections in the output of a refined object schema whose member
    [sections] is an array of [SectionConfigSchema] carry one of the
    eleven known tags: the value the enum let through. *)
Lemma refined_object_sections shape check msg at_ note config validConfig :
  safeParse (ZRefine (ZObject shape) check msg at_) config = Success validConfig ->
  NoDup (map fst shape) ->
  ("sections", arrayMin SectionConfigSchema 1 note) ∈ shape ->
  Forall (fun section => stringMember "type" section ∈ VALID_SECTION_TYPES)
         (sectionsOf validConfig).
Proof.
  unfold safeParse.
  destruct (isValid (parse (ZRefine (ZObject shape) check msg at_) [] (Some config))) eqn:Hv;
    [|done].
  intros Hdata Hnd Hin.
  match type of Hdata with
  | Success ?data = _ => assert (Hvalue : validConfig = data) by congruence
  end.
  rewrite Hvalue. clear Hdata Hvalue. apply isValid_no_issue in Hv.
  apply refine_no_issue in Hv as [Hv ->].
  apply object_no_issue in Hv as (fields & Hconfig & Hv).
  assert (config = JObj fields) as -> by congruence. clear Hconfig.
  unfold sectionsOf. rewrite (object_member shape [] fields _ _ Hnd Hin).
  specialize (Hv _ _ Hin). unfold arrayMin in Hv |- *.
  apply array_no_issue in Hv as (items & -> & Hv). rewrite array_items.
  apply Forall_forall. intros section Hsection.
  apply list_elem_of_lookup in Hsection as [j Hj].
  apply list_lookup_imap_Some in Hj as (x & Hx & ->).
  specialize (Hv j x Hx). unfold SectionConfigSchema in Hv |- *.
  apply object_no_issue in Hv as (sectionFields & Hsection & Hv).
  assert (x = JObj sectionFields) as -> by congruence. clear Hsection.
  unfold stringMember. rewrite (object_member _ _ sectionFields "type" (ZEnum VALID_SECTION_TYPES)).
  - destruct (enum_no_issue VALID_SECTION_TYPES _ _ (Hv "type" _ ltac:(left)))
      as (v & Hknown & ->). done.
  - apply (bool_decide_unpack _). vm_compute. exact I.
  - left.
Qed.

Lemma parsed_section_types config validConfig :
  safeParse SiteConfigSchema config = Success validConfig ->
  Forall (fun section => stringMember "type" section ∈ VALID_SECTION_TYPES)
         (sectionsOf validConfig).
Proof.
  intros Hparse. unfold SiteConfigSchema in Hparse.
  eapply refined_object_sections; [exact Hparse| |].
  - apply (bool_decide_unpack _). vm_compute. exact I.
  - do 7 right. left.
Qed.

Lemma checkSections_loop sections : forall i0 acc,
  Forall (fun section => stringMember "type" section ∉ Js.objectPrototype) sections ->
  exists added,
    Js.forIndex
      (fun i section (errors : Js.completion (list report)) =>
         Js.andThen errors (fun errors =>
         Js.andThen (validateSectionProps (stringMember "type" section) (propsOf section) i)
           (fun sectionErrors => Js.Returns (errors ++ sectionErrors))))
      i0 sections (Js.Returns acc) = Js.Returns (acc ++ added).
Proof.
  induction sections as [|section sections IH]; intros i0 acc Hown; cbn [Js.forIndex].
  - exists []. by rewrite app_nil_r.
  - apply Forall_cons in Hown as [Hsection Hown].
    destruct (validateSectionProps_returns (stringMember "type" section) (propsOf section) i0
                Hsection) as [sectionErrors ->].
    cbn [Js.andThen].
    destruct (IH (S i0) (acc ++ sectionErrors) Hown) as [added ->].
    exists (sectionErrors ++ added). by rewrite app_assoc.
Qed.

(** [validateSiteConfig] returns on every configuration: the tag it hands
    to [validateSectionProps] has passed the enum of the top-level
    schema. *)
Lemma validateSiteConfig_returns config :
  exists r, validateSiteConfig config = Js.Returns r /\
    match safeParse SiteConfigSchema config with
    | Failure issues => r = Validation false (map topLevelReport issues) []
    | Success validConfig => exists errors, r = checkWarnings validConfig errors
    end.
Proof.
  unfold validateSiteConfig.
  destruct (safeParse SiteConfigSchema config) as [validConfig|iss] eqn:Ep; [|by eexists].
  destruct (checkSections_loop (sectionsOf validConfig) 0 []) as [errors Hloop].
  { eapply Forall_impl; [exact (parsed_section_types config validConfig Ep)|].
    intros section. apply known_not_inherited. }
  unfold checkSections. rewrite Hloop. cbn [Js.andThen app].
  eexists. split; [reflexivity|]. by exists errors.
Qed.

(** The verdict is [valid] exactly when the error list is empty. *)
Lemma validateSiteConfig_verdict config :
  exists r, validateSiteConfig config = Js.Returns r /\
            valid r = Nat.eqb (length (errors r)) 0.
Proof.
  destruct (validateSiteConfig_returns config) as (r & Hr & Hshape).
  exists r. split; [done|].
  destruct (safeParse SiteConfigSchema config) as [validConfig|iss] eqn:Ep.
  - by destruct Hshape as [errors ->].
  - subst r. apply safeParse_failure in Ep. cbn. by destruct iss.
Qed.

End OutputFacts.

(** *** The verdict and the place of the errors *)

Section MoreValidation.
Context `{Platform} `{Library}.

(** X13. The verdict of [validateSiteConfig] and its error list agree:
    on every configuration the call returns, and the result is [valid]
    exactly when it carries no error.  In particular a configuration the
    top-level schema rejects always comes with at least one error, also
    when the parse aborted. *)
Theorem validateSiteConfig_valid_iff_no_errors (config : json) :
  exists r, validateSiteConfig config = Js.Returns r /\
            (valid r = true <-> errors r = []).
Proof.
  destruct (validateSiteConfig_verdict config) as (r & Hr & Hvalid).
  exists r. split; [done|]. rewrite Hvalid.
  destruct (errors r); cbn; split; done.
Qed.


Lemma append_assoc a b c : (a +:+ b) +:+ c = a +:+ b +:+ c.
Proof.
  induction a as [|x a IH]; [done|].
  change (String x ((a +:+ b) +:+ c) = String x (a +:+ b +:+ c)). by rewrite IH.
Qed.

Lemma startsWith_append p x : Js.startsWith p (p +:+ x) = true.
Proof.
  unfold Js.startsWith. induction p as [|c p IH]; [by destruct x|].
  change (String.prefix (String c p) (String c (p +:+ x)) = true). cbn [String.prefix].
  by destruct (ascii_dec c c).
Qed.

(** X14. [validateSectionProps] tells a wrong tag from wrong props by the
    path of the error.  For a known tag the registry has a schema, the
    call returns, and every error it returns lies at or under
    [sections[i].props].  For a tag outside the eleven known ones that is
    not the name of a member inherited from [Object.prototype] it returns
    exactly one error, at [sections[i].type].  For the name of such a
    member ([constructor], [toString], [__proto__], ...) the test
    [sectionType in sectionPropsSchemas] holds although the registry has
    no schema of that name, and the call throws a TypeError instead of
    returning an error. *)
Theorem validateSectionProps_error_paths (sectionType : string) (props : json)
    (sectionIndex : nat) :
  (sectionType ∈ VALID_SECTION_TYPES ->
   exists sch errors,
     schemaOf sectionType sectionPropsSchemas = Own sch /\
     validateSectionProps sectionType props sectionIndex = Js.Returns errors /\
     Forall (fun e => Js.startsWith (sectionPath sectionIndex +:+ ".props") (rpath e) = true)
            errors) /\
  (sectionType ∉ VALID_SECTION_TYPES -> sectionType ∉ Js.objectPrototype ->
   validateSectionProps sectionType props sectionIndex =
     Js.Returns [Report (sectionPath sectionIndex +:+ ".type")
                        (Text ("Unknown section type: " +:+ quoted sectionType))]) /\
  (sectionType ∈ Js.objectPrototype ->
   (sectionType ∉ VALID_SECTION_TYPES) /\
   validateSectionProps sectionType props sectionIndex = Js.Throws notAFunction).
Proof.
  split; [|split; [apply validateSectionProps_unknown|]].
  - intros Hin. destruct (schemaOf_known sectionType Hin) as [sch Hsch].
    exists sch. unfold validateSectionProps. rewrite Hsch.
    destruct (safeParse sch props) as [d|iss]; eexists; (split; [done|]);
      (split; [done|]); [constructor|].
    apply Forall_forall. intros e He. apply list_elem_of_fmap in He as (i & -> & _).
    unfold propsReport. cbn [rpath]. rewrite <- append_assoc. apply startsWith_append.
  - intros Hin. split.
    + intros Hknown. by apply (known_not_inherited sectionType).
    + unfold validateSectionProps. by rewrite schemaOf_inherited.
Qed.


(** *** What the reusable schemas accept *)

Lemma ltb_length_1 s : Nat.ltb (String.length s) 1 = negb (Js.truthy s).
Proof. by destruct s. Qed.

(** [z.string().trim().min(1, msg)] on a string. *)
Lemma parse_trimmed_text msg here s :
  parse (ZString [Trim; Min 1 msg]) here (Some (JStr s)) =
  Result false (Some (JStr (Js.trim s)))
         (if Js.truthy (Js.trim s) then [] else [Issue too_small here (Text msg)]).
Proof.
  cbn [parse runStringChecks]. rewrite ltb_length_1.
  by destruct (Js.truthy (Js.trim s)).
Qed.


Lemma isValid_refine inner check msg at_ here input :
  isValid (parse (ZRefine inner check msg at_) here input) =
  isValid (parse inner here input) &&
  check (default JNull (value (parse inner here input))).
Proof.
  cbn [parse]. unfold isValid.
  destruct (aborted (parse inner here input)) eqn:Ea; [by rewrite Ea|].
  destruct (check _); cbn [negb andb aborted issues].
  - by rewrite Ea, andb_true_r.
  - rewrite andb_false_r. apply bool_decide_eq_false. rewrite length_app. cbn. lia.
Qed.






Lemma parse_string_other checks here v :
  (forall s, v <> JStr s) ->
  parse (ZString checks) here (Some v) = invalid invalid_type here.
Proof. intros Hv. destruct v; try done. by destruct (Hv s). Qed.




Lemma parse_object shape here fields :
  parse (ZObject shape) here (Some (JObj fields)) =
  let rs := map (fun kv : string * schema =>
                   match kv with
                   | (k, sch) => (k, parse sch (here ++ [Key k]) (field k fields))
                   end) shape in
  Result (existsb (fun kr => aborted (snd kr)) rs)
         (Some (JObj (omap outputField rs)))
         (concat (map (fun kr => issues (snd kr)) rs)).
Proof. reflexivity. Qed.

Lemma parse_refine inner check msg at_ here input :
  parse (ZRefine inner check msg at_) here input =
  let r := parse inner here input in
  if aborted r then r
  else if check (default JNull (value r)) then r
  else Result false (value r) (issues r ++ [Issue custom (here ++ at_) (Text msg)]).
Proof. reflexivity. Qed.

Lemma parse_optional_missing inner here : parse (optional inner) here None = Result false None [].
Proof. reflexivity. Qed.

(** X16. A call-to-action button that names neither [anchor] nor [href]
    never passes [CtaButtonSchema], wherever the button sits: the parse
    is not valid and records an issue, and unless a member has the wrong
    type (the parse aborts, and the refinement is skipped) the last issue
    is the custom one at the button itself, "Either anchor or href must be
    provided". *)
Theorem CtaButtonSchema_needs_target (fields : list (string * json)) (here : path) :
  field "anchor" fields = None -> field "href" fields = None ->
  let r := parse CtaButtonSchema here (Some (JObj fields)) in
  isValid r = false /\ issues r <> [] /\
  (aborted r = false ->
   last (issues r) =
     Some (Issue custom here
             (Text ("Either " +:+ quoted "anchor" +:+ " or " +:+ quoted "href" +:+
                    " must be provided")))).
Proof.
  intros Hanchor Hhref. unfold CtaButtonSchema. rewrite parse_refine. cbv zeta.
  match goal with |- context [aborted (parse ?i here ?v)] => set (inner := parse i here v) end.
  assert (Hab : aborted inner = true -> issues inner <> [])
    by apply parse_aborted_issue.
  assert (Hcheck : anchorOrHref (default JNull (value inner)) = false).
  { unfold inner. rewrite parse_object. cbv zeta.
    cbn [map value fst snd]. rewrite Hanchor, Hhref, !parse_optional_missing.
    cbn [omap list_omap outputField fst snd value].
    unfold outputField. cbn [fst snd].
    repeat match goal with
           | |- context [value (parse ?sch ?h ?v)] => destruct (value (parse sch h v))
           end; reflexivity. }
  rewrite Hcheck, app_nil_r.
  destruct (aborted inner) eqn:Ea.
  - unfold isValid. rewrite Ea. split; [done|]. split; [by apply Hab|done].
  - unfold isValid. cbn [aborted issues negb andb]. split.
    + apply bool_decide_eq_false. rewrite length_app. cbn. lia.
    + split; [by destruct (issues inner)|]. intros _. apply last_snoc.
Qed.

(** X17. [urlString] succeeds exactly on strings that are not empty once
    trimmed and whose trimmed text passes the URL-or-path test; the test
    sees the trimmed text, and the output is the trimmed text. *)
Theorem urlString_accepts (v d : json) :
  safeParse urlString v = Success d <->
  exists s, v = JStr s /\ d = JStr (Js.trim s) /\
            Js.truthy (Js.trim s) = true /\ urlStringCheck (JStr (Js.trim s)) = true.
Proof.
  unfold safeParse, urlString. rewrite isValid_refine, parse_refine. cbv zeta.
  assert (Hcases : (exists s, v = JStr s) \/ (forall s, v <> JStr s))
    by (destruct v; try (by right); left; by eexists).
  destruct Hcases as [[s ->]|Hother].
  - rewrite parse_trimmed_text. unfold isValid. cbn [aborted issues value default from_option id negb andb].
    destruct (Js.truthy (Js.trim s)) eqn:Et, (urlStringCheck (JStr (Js.trim s))) eqn:Ec;
      cbn [length bool_decide andb value default from_option id].
    + split.
      * intros [= <-]. by exists s.
      * intros (s' & [= <-] & -> & _). done.
    + split; [done|]. intros (s' & [= <-] & _ & _ & ?). congruence.
    + split; [done|]. intros (s' & [= <-] & _ & ? & _). congruence.
    + split; [done|]. intros (s' & [= <-] & _ & ? & _). congruence.
  - rewrite parse_string_other by done. cbn.
    split; [done|]. intros (s & -> & _). by destruct (Hother s).
Qed.

End MoreValidation.

(** *** src/schemas/sections.ts: the hero schema of the render layer *)

Module Ts.
Section Hero.
Context `{Platform} `{Library}.

Definition ThemeColorSchema : schema :=
  ZEnum ["primary"; "secondary"; "accent"; "foreground"; "background"; "muted"].

Definition HeroPropsSchema : schema :=
  ZObject (heroFields ThemeColorSchema ++
           [("stats", optional (ZArray heroStatsItem
                                  (Some (2, "Stats must have at least 2 items"))
                                  (Some (4, "Stats cannot exceed 4 items"))))]).

End Hero.
End Ts.

(** *** Bounds on lists *)

Section BoundFacts.
Context `{Platform} `{Library}.

(** X28. The hero schema of the render layer keeps the list of stats
    between two and four entries: an object whose [stats] member is a
    list of fewer than two entries fails with "Stats must have at least 2
    items" at [stats], and one with more than four fails with "Stats
    cannot exceed 4 items", whatever else the object holds. *)
Theorem Ts_hero_stats_bounds (fields : list (string * json)) (items : list json) :
  field "stats" fields = Some (JArr items) ->
  (length items < 2 ->
   exists issues,
     safeParse Ts.HeroPropsSchema (JObj fields) = Failure issues /\
     Issue too_small [Key "stats"] (Text "Stats must have at least 2 items") ∈ issues) /\
  (4 < length items ->
   exists issues,
     safeParse Ts.HeroPropsSchema (JObj fields) = Failure issues /\
     Issue too_big [Key "stats"] (Text "Stats cannot exceed 4 items") ∈ issues).
Proof.
  intros Hstats.
  assert (Hin : forall i,
            i ∈ lengthIssues [Key "stats"] (length items)
                  (Some (2, "Stats must have at least 2 items"))
                  (Some (4, "Stats cannot exceed 4 items")) ->
            exists issues,
              safeParse Ts.HeroPropsSchema (JObj fields) = Failure issues /\ i ∈ issues).
  { intros i Hi.
    assert (Hissue : i ∈ issues (parse Ts.HeroPropsSchema [] (Some (JObj fields)))).
    { unfold Ts.HeroPropsSchema.
      apply (parse_object_field_issue _ _ _ "stats"
               (optional (ZArray heroStatsItem
                            (Some (2, "Stats must have at least 2 items"))
                            (Some (4, "Stats cannot exceed 4 items"))))).
      { apply elem_of_app. right. left. }
      rewrite Hstats. cbn [app optional parse issues]. apply elem_of_app. by left. }
    eexists. split; [by apply (safeParse_issue _ _ i)|done]. }
  split; intros Hlen; apply Hin; unfold lengthIssues.
  - assert (Nat.ltb (length items) 2 = true) as -> by (apply Nat.ltb_lt; lia).
    apply elem_of_app. left. left.
  - assert (Nat.ltb 4 (length items) = true) as -> by (apply Nat.ltb_lt; lia).
    apply elem_of_app. right. left.
Qed.

Lemma top_level_issue (config : json) (i : issue) (r : validation) :
  i ∈ issues (parse SiteConfigSchema [] (Some config)) ->
  validateSiteConfig config = Js.Returns r ->
  valid r = false /\ warnings r = [] /\ topLevelReport i ∈ errors r.
Proof.
  intros Hin. unfold validateSiteConfig. rewrite (safeParse_issue _ _ _ Hin).
  intros Hr. assert (r = Validation false
    (map topLevelReport (issues (parse SiteConfigSchema [] (Some config)))) []) as ->
    by congruence.
  cbn [valid warnings errors]. split; [done|]. split; [done|].
  apply list_elem_of_fmap. by exists i.
Qed.

(** X29. A configuration object without [sections], or with an empty list
    of sections, is never valid: [validateSiteConfig] stops at the
    top-level schema, computes no warning, and reports an error at
    [sections], the type error of the library when the member is missing
    and "At least one section is required" when the list is empty. *)
Theorem validateSiteConfig_needs_sections (fields : list (string * json)) :
  exists r, validateSiteConfig (JObj fields) = Js.Returns r /\
  (field "sections" fields = None ->
   valid r = false /\ warnings r = [] /\
   Report "sections" (DefaultMessage invalid_type) ∈ errors r) /\
  (field "sections" fields = Some (JArr []) ->
   valid r = false /\ warnings r = [] /\
   Report "sections" (Text "At least one section is required") ∈ errors r).
Proof.
  assert (Hmember : forall i,
            i ∈ issues (parse (arrayMin SectionConfigSchema 1 "At least one section is required")
                          [Key "sections"] (field "sections" fields)) ->
            i ∈ issues (parse SiteConfigSchema [] (Some (JObj fields)))).
  { intros i Hi. apply parse_refine_issue.
    apply (parse_object_field_issue _ _ _ "sections"
             (arrayMin SectionConfigSchema 1 "At least one section is required"));
      [do 7 right; left|exact Hi]. }
  destruct (validateSiteConfig_returns (JObj fields)) as (r & Hr & _).
  exists r. split; [exact Hr|]. split; intros Hsections.
  - apply (top_level_issue (JObj fields)
             (Issue invalid_type [Key "sections"] (DefaultMessage invalid_type)) r);
      [|exact Hr].
    apply Hmember. rewrite Hsections. cbn. left.
  - apply (top_level_issue (JObj fields)
             (Issue too_small [Key "sections"] (Text "At least one section is required")) r);
      [|exact Hr].
    apply Hmember. rewrite Hsections. cbn. left.
Qed.

End BoundFacts.

(** *** Configurations for the examples *)

Module Example.
Import Download.Example.

(** A stand-in for the e-mail pattern of the library. *)
#[export] Instance library : Library := {| isEmail := Js.includesChar "@" |}.

Definition stat (value label : string) : json :=
  JObj [("value", JStr value); ("label", JStr label)].

(** A hero section with one entry in [stats], and one with five. *)
Definition heroOneStat : json :=
  JObj [("title", JStr "Ristorante Camino");
        ("stats", JArr [stat "15" "Years"])].

Definition heroFiveStats : json :=
  JObj [("title", JStr "Ristorante Camino");
        ("stats", JArr [stat "15" "Years"; stat "40" "Seats"; stat "120" "Wines";
                        stat "7" "Days"; stat "3" "Chefs"])].

(** C8 (the code departs from the claim).  The pipeline's hero schema puts
    no bound on [stats]: a hero section with one entry, or with five,
    passes [validateSectionProps] without error.  The hero schema of
    [src/schemas/sections.ts], which the pipeline module says it mirrors,
    rejects both with its 2-to-4 messages. *)
Theorem hero_stats_bounds_missing_in_pipeline :
  validateSectionProps "hero" heroOneStat 0 = Js.Returns [] /\
  validateSectionProps "hero" heroFiveStats 0 = Js.Returns [] /\
  safeParse Ts.HeroPropsSchema heroOneStat =
    Failure [Issue too_small [Key "stats"] (Text "Stats must have at least 2 items")] /\
  safeParse Ts.HeroPropsSchema heroFiveStats =
    Failure [Issue too_big [Key "stats"] (Text "Stats cannot exceed 4 items")].
Proof. vm_compute. repeat split. Qed.

(** A tag that names a member of [Object.prototype] passes the [in] test
    of [validateSectionProps], and what the registry yields for it is no
    schema: the call throws.  A tag that names nothing gets the error. *)
Example validateSectionProps_inherited_tag :
  validateSectionProps "constructor" (JObj []) 0 = Js.Throws notAFunction /\
  validateSectionProps "toString" (JObj []) 0 = Js.Throws notAFunction /\
  validateSectionProps "__proto__" (JObj []) 0 = Js.Throws notAFunction /\
  validateSectionProps "banner" (JObj []) 0 =
    Js.Returns [Report "sections[0].type"
                       (Text ("Unknown section type: " +:+ quoted "banner"))].
Proof. vm_compute. repeat split. Qed.

(** A minimal site around a list of sections. *)
Definition font : json := JObj [("family", JStr "Inter"); ("weights", JArr [JNum 400])].

Definition sectionOf (type id : string) (props : json) : json :=
  JObj [("type", JStr type); ("id", JStr id); ("props", props)].

Definition siteFields (sections : list json) : list (string * json) :=
  [("name", JStr "Ristorante Camino");
   ("languages", JArr [JStr "it"; JStr "en"]);
   ("defaultLanguage", JStr "it");
   ("theme", JObj [("colors", JObj [("primary", JStr "#7a1f1f");
                                    ("background", JStr "#ffffff");
                                    ("foreground", JStr "#111111")]);
                   ("fonts", JObj [("heading", font); ("body", font)])]);
   ("navigation", JObj [("links", JArr [])]);
   ("sections", JArr sections);
   ("footer", JObj [("copyright", JStr "Camino")])].

Definition site (sections : list json) : json := JObj (siteFields sections).

(** A section with an unknown tag, then a hero section without title. *)
Definition unknownSections : list json :=
  [sectionOf "banner" "menu" (JObj []); sectionOf "hero" "top" (JObj [])].

(** C6 as stated fails: the unknown tag is reported by the top-level
    schema, not with the "Unknown section type" message of
    [validateSectionProps], and the props error of the other section (a
    hero without title) is not enumerated, although [validateSectionProps]
    would report both when called. *)
Lemma unknown_section_type_counterexample :
  exists r, validateSiteConfig (site unknownSections) = Js.Returns r /\
  errors r = [Report "sections.0.type" (DefaultMessage invalid_enum_value)] /\
  (forall e, e ∈ errors r ->
     rmessage e <> Text ("Unknown section type: " +:+ quoted "banner") /\
     rpath e <> "sections[1].props.title") /\
  validateSectionProps "banner" (JObj []) 0 =
    Js.Returns [Report "sections[0].type"
                       (Text ("Unknown section type: " +:+ quoted "banner"))] /\
  validateSectionProps "hero" (JObj []) 1 =
    Js.Returns [Report "sections[1].props.title" (DefaultMessage invalid_union)].
Proof.
  exists (Validation false [Report "sections.0.type" (DefaultMessage invalid_enum_value)] []).
  split; [vm_compute; reflexivity|]. cbn [errors]. split; [done|]. split.
  - intros e Hin. apply list_elem_of_singleton in Hin as ->. by split.
  - split; vm_compute; reflexivity.
Qed.

Lemma banner_not_a_section_type tag :
  tag ∈ VALID_SECTION_TYPES ->
  field "type" [("type", JStr "banner"); ("id", JStr "menu"); ("props", JObj [])]
    <> Some (JStr tag).
Proof.
  intros Hin Heq. injection Heq as <-.
  unfold VALID_SECTION_TYPES in Hin.
  repeat (apply elem_of_cons in Hin as [Hin|Hin]; [discriminate|]).
  by apply elem_of_nil in Hin.
Defined.

Lemma unknown_section_type_fails_top_level_witness :
  exists r, validateSiteConfig (site unknownSections) = Js.Returns r /\
  valid r = false /\ warnings r = [] /\
  (exists c, Report ("sections." +:+ pretty 0 +:+ ".type") (DefaultMessage c) ∈ errors r) /\
  errors r = map topLevelReport
               (issues (parse SiteConfigSchema [] (Some (site unknownSections)))).
Proof.
  exact (unknown_section_type_fails_top_level (siteFields unknownSections) unknownSections 0
           [("type", JStr "banner"); ("id", JStr "menu"); ("props", JObj [])]
           eq_refl eq_refl banner_not_a_section_type).
Defined.

(** Four valid sections whose ids are a, a, b, a. *)
Definition repeatedIdSections : list json :=
  [sectionOf "map" "a" (JObj []); sectionOf "map" "a" (JObj []);
   sectionOf "map" "b" (JObj []); sectionOf "map" "a" (JObj [])].

Definition repeatedIdConfig : json :=
  Eval vm_compute in
    match safeParse SiteConfigSchema (site repeatedIdSections) with
    | Success validConfig => validConfig
    | Failure _ => JNull
    end.

Lemma repeatedIdConfig_parsed :
  safeParse SiteConfigSchema (site repeatedIdSections) = Success repeatedIdConfig.
Proof. vm_compute. reflexivity. Defined.

Lemma repeatedIdConfig_props i section :
  sectionsOf repeatedIdConfig !! i = Some section ->
  validateSectionProps (stringMember "type" section) (propsOf section) i = Js.Returns [].
Proof.
  destruct i as [|[|[|[|i]]]]; intros Hs; vm_compute in Hs;
    try discriminate; injection Hs as <-; vm_compute; reflexivity.
Defined.

Lemma duplicate_ids_warn_witness :
  exists r, validateSiteConfig (site repeatedIdSections) = Js.Returns r /\
  valid r = true /\ errors r = [] /\
  filter (fun w => isDuplicateWarning w = true) (warnings r) =
    [duplicateWarning 1 "a"; duplicateWarning 3 "a"] /\
  length (filter (fun w => isDuplicateWarning w = true) (warnings r)) +
    size ({["a"; "b"]} : gset string) = 4.
Proof.
  pose proof (duplicate_ids_warn (site repeatedIdSections) repeatedIdConfig
                repeatedIdConfig_parsed repeatedIdConfig_props) as Hrun.
  match goal with |- ?G => exact (Hrun <: G) end.
Defined.

(** A button with a label only. *)
Lemma CtaButtonSchema_needs_target_witness :
  let r := parse CtaButtonSchema [] (Some (JObj [("label", JStr "Book a table")])) in
  isValid r = false /\
  last (issues r) =
    Some (Issue custom []
            (Text ("Either " +:+ quoted "anchor" +:+ " or " +:+ quoted "href" +:+
                   " must be provided"))).
Proof.
  destruct (CtaButtonSchema_needs_target [("label", JStr "Book a table")] []
              eq_refl eq_refl) as (Hvalid & _ & Hlast).
  split; [exact Hvalid|]. apply Hlast. vm_compute. reflexivity.
Defined.

Lemma Ts_hero_stats_bounds_witness :
  exists issues,
    safeParse Ts.HeroPropsSchema heroOneStat = Failure issues /\
    Issue too_small [Key "stats"] (Text "Stats must have at least 2 items") ∈ issues.
Proof.
  destruct (Ts_hero_stats_bounds
              [("title", JStr "Ristorante Camino"); ("stats", JArr [stat "15" "Years"])]
              [stat "15" "Years"] eq_refl) as [Hsmall _].
  apply Hsmall. cbn. lia.
Defined.

End Example.

End Schemas.

(** ** pipeline/validate-config.js *)

Module ValidateConfig.
Import Json Zod.
Import Download (Platform).

(** What [validateConfig] finds at the resolved path. *)
Inductive source : Type :=
  | Missing                        (* fs.existsSync is false *)
  | Unreadable (message : string)  (* readFileSync or JSON.parse throws *)
  | Parsed (config : json).

(** The object the returned promise resolves to; [errors] is absent on
    success. *)
Record verdict : Type := Verdict {
  valid : bool;
  errors : option (list string);
  warnings : list string;
}.

Section ValidateConfig.
Context `{Platform} `{Library}.
(** The text of a message; the library's own texts are not modelled. *)
Context (messageText : message -> string).

(** [`${error.path}: ${error.message}`] *)
Definition line (r : Schemas.report) : string :=
  Schemas.rpath r +:+ ": " +:+ messageText (Schemas.rmessage r).

(** [for (const r of reports) lines.push(...)] *)
Definition pushLines (reports : list Schemas.report) (lines : list string) : list string :=
  fold_left (fun lines r => lines ++ [line r]) reports lines.

(** [validateConfig] is [async]: an exception that leaves it rejects the
    promise it returns. *)
Definition validateConfig (resolvedPath : string) (file : source) : Js.completion verdict :=
  match file with
  | Missing => Js.Returns (Verdict false (Some ["Config file not found: " +:+ resolvedPath]) [])
  | Unreadable message =>
      Js.Returns (Verdict false (Some ["Config file is not valid JSON: " +:+ message]) [])
  | Parsed config =>
      Js.andThen (Schemas.validateSiteConfig config) (fun result =>
      let errors := pushLines (Schemas.errors result) [] in
      let warnings := pushLines (Schemas.warnings result) [] in
      Js.Returns (if Nat.eqb (length errors) 0 then Verdict true None warnings
                  else Verdict false (Some errors) warnings))
  end.

Lemma pushLines_map reports : forall lines,
  pushLines reports lines = lines ++ map line reports.
Proof.
  unfold pushLines. induction reports as [|r reports IH]; intros lines; cbn [fold_left map].
  - by rewrite app_nil_r.
  - by rewrite IH, <- app_assoc.
Qed.

(** X19. The verdict of [validateConfig] agrees with the validator and
    with its own error list.  The promise is never rejected, and the
    result is valid exactly when the file holds JSON that
    [validateSiteConfig] finds valid; it is valid exactly when it carries
    no [errors] property, and an [errors] property is never an empty list.
    For a file that holds JSON the warnings are those of
    [validateSiteConfig], one line each, in order, and so are the errors
    when there are any. *)
Theorem validateConfig_verdict (resolvedPath : string) (file : source) :
  exists r, validateConfig resolvedPath file = Js.Returns r /\
  (valid r = true <->
   exists config result, file = Parsed config /\
                         Schemas.validateSiteConfig config = Js.Returns result /\
                         Schemas.valid result = true) /\
  (valid r = true <-> errors r = None) /\
  (forall lines, errors r = Some lines -> lines <> []) /\
  (forall config, file = Parsed config ->
     exists result, Schemas.validateSiteConfig config = Js.Returns result /\
       warnings r = map line (Schemas.warnings result) /\
       (valid r = false -> errors r = Some (map line (Schemas.errors result)))).
Proof.
  destruct file as [|message|config]; cbn [validateConfig].
  1-2: eexists; (split; [reflexivity|]); cbn [valid errors warnings];
       (split; [split; [done|by intros (config & result & ? & _)]|]);
       (split; [done|]); (split; [by intros lines [= <-]|done]).
  destruct (Schemas.validateSiteConfig_verdict config) as (result & Hresult & Hagree).
  rewrite Hresult. cbn [Js.andThen]. eexists. split; [reflexivity|].
  rewrite !pushLines_map. cbn [app]. rewrite length_map.
  destruct (Schemas.errors result) as [|e es] eqn:Ee;
    cbn [length Nat.eqb valid errors warnings map] in *.
  - split; [split; [by exists config, result|done]|]. split; [done|]. split; [done|].
    intros config' Hfile. assert (config' = config) as -> by congruence.
    exists result. by rewrite Ee.
  - split; [split; [done|]|].
    { intros (config' & result' & Hfile & Hresult' & Hv).
      assert (config' = config) as -> by congruence.
      assert (result' = result) as -> by congruence. congruence. }
    split; [done|]. split; [by intros lines [= <-]|].
    intros config' Hfile. assert (config' = config) as -> by congruence.
    exists result. by rewrite Ee.
Qed.

End ValidateConfig.
End ValidateConfig.

(** ** bin/siteforge.js: the pre-build pipeline *)

Module Siteforge.

Record pipelineStep : Type := Step {
  name : string;
  label : string;
  file : string;
  required : bool;
}.

Definition PIPELINE_STEPS : list pipelineStep :=
  [Step "validate-config" "Validate configuration" "validate-config.js" true;
   Step "download-assets" "Download remote assets" "download-assets.js" false;
   Step "optimize-images" "Optimize images" "optimize-images.js" false;
   Step "generate-metadata" "Generate metadata" "generate-metadata.js" false].

(** What [runPipelineStep] returns. *)
Inductive stepResult : Type :=
  | Skipped                   (* the script is not there *)
  | Succeeded
  | Failed (error : string).  (* the child process exits with an error *)

Record tally : Type := Tally {
  passed : nat;
  skipped : nat;
  warned : nat;
  failed : nat;
}.

Section Pipeline.
(** The file system and whatever else the scripts read and change. *)
Context {World : Type} (runPipelineStep : pipelineStep -> World -> stepResult * World).

(** The body of the loop over the steps. *)
Definition runStep (st : tally * World) (step : pipelineStep) : tally * World :=
  let '(c, w) := st in
  match runPipelineStep step w with
  | (Skipped, w') => (Tally (passed c) (S (skipped c)) (warned c) (failed c), w')
  | (Succeeded, w') => (Tally (S (passed c)) (skipped c) (warned c) (failed c), w')
  | (Failed _, w') =>
      if negb (required step)
      then (Tally (passed c) (skipped c) (S (warned c)) (failed c), w')
      else (Tally (passed c) (skipped c) (warned c) (S (failed c)), w')
  end.

Definition selected (stepsToRun : option (list string)) : list pipelineStep :=
  match stepsToRun with
  | Some names => List.filter (fun s => bool_decide (name s ∈ names)) PIPELINE_STEPS
  | None => PIPELINE_STEPS
  end.

(** [runPipeline]: the counts, whether it ends in [process.exit(1)], and
    the world afterwards. *)
Definition runPipeline (stepsToRun : option (list string)) (w : World)
  : tally * bool * World :=
  let steps := selected stepsToRun in
  let '(c, w') := fold_left runStep steps (Tally 0 0 0 0, w) in
  (c, Nat.ltb 0 (failed c), w').

Definition total (c : tally) : nat := passed c + skipped c + warned c + failed c.

Lemma runStep_tally c w step :
  total (runStep (c, w) step).1 = S (total c) /\
  (failed (runStep (c, w) step).1 =
   match (runPipelineStep step w).1 with
   | Failed _ => if required step then S (failed c) else failed c
   | _ => failed c
   end).
Proof.
  unfold runStep, total.
  destruct (runPipelineStep step w) as [[| |error] w'];
    [cbn; split; [lia|done]..|].
  destruct (required step); cbn [negb fst passed skipped warned failed];
    (split; [lia|done]).
Qed.

Lemma loop_tally steps : forall c w,
  total (fold_left runStep steps (c, w)).1 = total c + length steps /\
  (Forall (fun s => required s = false) steps ->
   failed (fold_left runStep steps (c, w)).1 = failed c).
Proof.
  induction steps as [|step steps IH]; intros c w; cbn [fold_left length].
  - cbn [fst]. split; [lia|done].
  - destruct (runStep_tally c w step) as [Ht Hf].
    destruct (runStep (c, w) step) as [c1 w1]. cbn [fst] in *.
    destruct (IH c1 w1) as [Ht' Hf']. split; [lia|].
    intros [Hs Hrest]%Forall_cons. rewrite (Hf' Hrest), Hf, Hs.
    by destruct (runPipelineStep step w).1.
Qed.

Definition validateStep : pipelineStep :=
  Step "validate-config" "Validate configuration" "validate-config.js" true.

Definition runsValidation (stepsToRun : option (list string)) : bool :=
  match stepsToRun with
  | Some names => bool_decide ("validate-config" ∈ names)
  | None => true
  end.

(** X20. [runPipeline] counts every selected step once, as passed,
    skipped, warned or failed, and at most one step can fail.  It ends in
    [process.exit(1)] exactly when the validation step is selected and its
    script, run first, fails: a failing download, optimization or metadata
    step is only a warning, and a validation script that is not there is
    skipped without failing the pipeline. *)
Theorem runPipeline_verdict (stepsToRun : option (list string)) (w : World) :
  let c := (runPipeline stepsToRun w).1.1 in
  let exits := (runPipeline stepsToRun w).1.2 in
  passed c + skipped c + warned c + failed c = length (selected stepsToRun) /\
  length (selected stepsToRun) <= 4 /\
  failed c <= 1 /\
  (exits = true <->
   runsValidation stepsToRun = true /\
   exists error, (runPipelineStep validateStep w).1 = Failed error).
Proof.
  cbv zeta. unfold runPipeline.
  assert (Hsel : exists rest,
            selected stepsToRun =
              (if runsValidation stepsToRun then [validateStep] else []) ++ rest /\
            Forall (fun s => required s = false) rest /\ length rest <= 3).
  { destruct stepsToRun as [names|]; cbn [selected runsValidation].
    - exists (List.filter (fun s => bool_decide (name s ∈ names)) (tail PIPELINE_STEPS)).
      split; [|split].
      + cbn [PIPELINE_STEPS List.filter tail name]. by destruct (bool_decide _).
      + apply Forall_forall. intros s Hs. apply list_elem_of_In, filter_In in Hs as [Hs _].
        cbn in Hs. by destruct Hs as [<-|[<-|[<-|[]]]].
      + etransitivity; [apply filter_length_le|]. done.
    - exists (tail PIPELINE_STEPS). split; [done|]. split; [by repeat constructor|done]. }
  destruct Hsel as (rest & Hsel & Hrest & Hlen). rewrite Hsel.
  rewrite fold_left_app.
  destruct (fold_left runStep (if runsValidation stepsToRun then [validateStep] else [])
              (Tally 0 0 0 0, w)) as [c1 w1] eqn:E1.
  destruct (loop_tally rest c1 w1) as [Ht Hf]. specialize (Hf Hrest).
  destruct (fold_left runStep rest (c1, w1)) as [c w'] eqn:E2. cbn [fst snd] in *.
  unfold total in Ht. rewrite length_app.
  destruct (runsValidation stepsToRun); cbn [fold_left length] in *.
  - destruct (runStep_tally (Tally 0 0 0 0) w validateStep) as [Ht1 Hf1].
    rewrite E1 in Ht1, Hf1. cbn [fst] in *. unfold total in Ht1.
    cbn [passed skipped warned failed validateStep required] in Ht1, Hf1.
    split; [lia|]. split; [lia|].
    destruct ((runPipelineStep validateStep w).1) as [| |error] eqn:Er.
    + split; [lia|]. rewrite Hf, Hf1. cbn. split; [done|by intros [_ [? ?]]].
    + split; [lia|]. rewrite Hf, Hf1. cbn. split; [done|by intros [_ [? ?]]].
    + split; [lia|]. rewrite Hf, Hf1. cbn. split; [by eauto|done].
  - injection E1 as <- <-. cbn [passed skipped warned failed] in *.
    split; [lia|]. split; [lia|]. split; [lia|]. rewrite Hf. cbn.
    split; [done|by intros [? _]].
Qed.

End Pipeline.
End Siteforge.
